(** * Windows native MIDI back end (source/Win32/i_winmusic.cpp)

    A shallow embedding of the multi-track MIDI to stream converter, the
    stream buffer refill, the playback thread loop and the volume logic,
    followed by the properties of the specification that were checked
    against it.

    Conventions.
    - A C++ [int] is a [Z] in [-2^31, 2^31); [to_int] is the conversion
      that wraps modulo 2^32.  A [DWORD] / [unsigned int] is a [Z] in
      [0, 2^32); [to_dword] wraps.  Counters that index an allocated
      array ([num_events], [position], loop indices) never leave the
      range of [int] and are plain [Z].
    - A C++ [float] is an IEEE 754 binary32 number: the Standard
      Library's [spec_float] at precision 24 and maximal exponent 128,
      every operation rounded to nearest even.
    - A read or write outside an array, and the conversion to [int] of
      a float that no [int] holds, are undefined behaviour; the model
      makes them the result [Undefined].
    - The module-level variables of the translation unit are the fields
      of the record [state]; the calls made on the MIDI stream handle are
      appended to the field [device]. *)

From Stdlib Require Import ZArith List Lia Bool Sorted.
From Stdlib Require Import Floats.SpecFloat.
Import ListNotations.
Local Open Scope Z_scope.

(* ================================================================== *)
(** * Definitions *)
(* ================================================================== *)

(** ** Results of fallible code *)

Inductive result (A : Type) : Type :=
| Ok (a : A)
| Undefined
| OutOfFuel.
Arguments Ok {A} a.
Arguments Undefined {A}.
Arguments OutOfFuel {A}.

Definition bind {A B : Type} (r : result A) (k : A -> result B) : result B :=
  match r with
  | Ok a => k a
  | Undefined => Undefined
  | OutOfFuel => OutOfFuel
  end.

Notation "x <- r ;; k" := (bind r (fun x => k))
  (at level 61, r at next level, right associativity).

(** [a[i]] for a C array held in a list. *)
Definition array_get {A : Type} (a : list A) (i : Z) : result A :=
  if i <? 0 then Undefined
  else match nth_error a (Z.to_nat i) with
       | Some x => Ok x
       | None => Undefined
       end.

Fixpoint list_set {A : Type} (a : list A) (n : nat) (x : A) : list A :=
  match a, n with
  | [], _ => []
  | _ :: t, O => x :: t
  | h :: t, S n' => h :: list_set t n' x
  end.

(** [a[i] = x]. *)
Definition array_set {A : Type} (a : list A) (i : Z) (x : A) : result (list A) :=
  if (0 <=? i) && (i <? Z.of_nat (length a)) then Ok (list_set a (Z.to_nat i) x)
  else Undefined.

(** ** Machine integers *)

Definition INT_MAX : Z := 2147483647.
Definition INT_MIN : Z := -2147483648.

Definition to_int (z : Z) : Z := (z + 2 ^ 31) mod 2 ^ 32 - 2 ^ 31.
Definition to_dword (z : Z) : Z := z mod 2 ^ 32.

(** ** binary32 floating point *)

Module F32.
Definition prec : Z := 24.
Definition emax : Z := 128.
Definition t : Type := spec_float.

Definition zero : t := S754_zero false.
Definition one : t := S754_finite false 8388608 (-23).

Definition mul : t -> t -> t := SFmul prec emax.
Definition add : t -> t -> t := SFadd prec emax.
Definition sub : t -> t -> t := SFsub prec emax.
Definition div : t -> t -> t := SFdiv prec emax.
Definition leb : t -> t -> bool := SFleb.
Definition valid : t -> bool := valid_binary prec emax.

(** [float(z)] for an [int] z. *)
Definition of_int (z : Z) : t := binary_normalize prec emax z 0 false.

(** [int(f)]: truncation toward zero; undefined (here [None]) for a
    NaN, an infinity or a value outside the range of [int]. *)
Definition truncate (f : t) : option Z :=
  match f with
  | S754_zero _ => Some 0
  | S754_finite s m e =>
      let a := if 0 <=? e then Zpos m * 2 ^ e else Zpos m / 2 ^ (- e) in
      let z := if s then - a else a in
      if (INT_MIN <=? z) && (z <=? INT_MAX) then Some z else None
  | _ => None
  end.

(** A decimal literal [n / 10^k] written with suffix f: the binary32
    number nearest to it. *)
Definition literal (n d : Z) : t := div (of_int n) (of_int d).

(** The closed unit interval. *)
Definition in_unit (f : t) : Prop :=
  valid f = true /\ leb zero f = true /\ leb f one = true.
End F32.

(** ** The MIDI file reader (midifile.h) *)

(** Modelled from the spec: midifile.h and the file reader are not among
    the sources.  The spec gives a RawEvent a delta time from the previous
    event of its track, an event kind, a channel and up to two data
    bytes; the kinds carry the status bytes of the MIDI standard. *)
Definition MIDI_EVENT_NOTE_OFF : Z := 0x80.
Definition MIDI_EVENT_NOTE_ON : Z := 0x90.
Definition MIDI_EVENT_AFTERTOUCH : Z := 0xA0.
Definition MIDI_EVENT_CONTROLLER : Z := 0xB0.
Definition MIDI_EVENT_PROGRAM_CHANGE : Z := 0xC0.
Definition MIDI_EVENT_CHAN_AFTERTOUCH : Z := 0xD0.
Definition MIDI_EVENT_PITCH_BEND : Z := 0xE0.
Definition MIDI_EVENT_SYSEX : Z := 0xF0.
Definition MIDI_EVENT_SYSEX_SPLIT : Z := 0xF7.
Definition MIDI_EVENT_META : Z := 0xFF.

Definition MIDI_CONTROLLER_MAIN_VOLUME : Z := 0x7.
Definition MIDI_META_SET_TEMPO : Z := 0x51.

(** Modelled from the spec: one ChannelVolumeState entry for each of the
    16 MIDI channels. *)
Definition MIDI_CHANNELS_PER_TRACK : Z := 16.

(** Modelled from the spec: the payload of an event, a union in the
    reader's header: channel number and two parameters for a channel
    event, a type and data bytes for a meta event, bytes for a system
    exclusive event. *)
Inductive midi_event_data : Type :=
| channel_data (channel param1 param2 : Z)
| meta_data (type : Z) (bytes : list Z)
| sysex_data (bytes : list Z).

Record midi_event_t : Type := {
  event_type : Z;
  delta_time : Z;      (* unsigned int *)
  data : midi_event_data
}.

Record midi_file_t : Type := {
  file_tracks : list (list midi_event_t);
  time_division : Z
}.

(** Modelled from the spec: a track iterator is the list of the events
    the track has not yielded yet. *)
Definition midi_track_iter_t : Type := list midi_event_t.

Definition MIDI_NumTracks (file : midi_file_t) : Z :=
  Z.of_nat (length (file_tracks file)).

(** Modelled from the spec: the total event count of the file, used to
    size the output array. *)
Definition MIDI_NumEvents (file : midi_file_t) : nat :=
  list_sum (map (@length midi_event_t) (file_tracks file)).

Definition MIDI_GetFileTimeDivision (file : midi_file_t) : Z :=
  time_division file.

(** Modelled from the spec: the time until the next event of the track;
    0 once the track has no further event. *)
Definition MIDI_GetDeltaTime (iter : midi_track_iter_t) : Z :=
  match iter with
  | [] => 0
  | e :: _ => delta_time e
  end.

(** Modelled from the spec: consume and return the next event; [None]
    when the iterator is exhausted. *)
Definition MIDI_GetNextEvent (iter : midi_track_iter_t)
  : option (midi_event_t * midi_track_iter_t) :=
  match iter with
  | [] => None
  | e :: rest => Some (e, rest)
  end.

(** Fields of the union read through the member the switch selects. *)
Definition data_channel (e : midi_event_t) : Z :=
  match data e with channel_data c _ _ => c | _ => 0 end.
Definition data_param1 (e : midi_event_t) : Z :=
  match data e with channel_data _ p _ => p | _ => 0 end.
Definition data_param2 (e : midi_event_t) : Z :=
  match data e with channel_data _ _ p => p | _ => 0 end.
Definition data_meta_type (e : midi_event_t) : Z :=
  match data e with meta_data ty _ => ty | _ => 0 end.
Definition data_meta_byte (e : midi_event_t) (i : nat) : Z :=
  match data e with meta_data _ bs => nth i bs 0 | _ => 0 end.

(** ** Windows multimedia constants (mmsystem.h) *)

Definition MEVT_SHORTMSG : Z := 0x00.
Definition MEVT_TEMPO : Z := 0x01.
Definition MMSYSERR_NOERROR : Z := 0.

(** ** Data of the translation unit *)

Record native_event_t : Type := {
  dwDeltaTime : Z;
  dwStreamID : Z;      (* always 0 *)
  dwEvent : Z
}.

Definition zero_event : native_event_t :=
  {| dwDeltaTime := 0; dwStreamID := 0; dwEvent := 0 |}.

Record win_midi_song_t : Type := {
  native_events : list native_event_t;
  num_events : Z;
  position : Z;
  looping : bool
}.

Record win_midi_track_t : Type := {
  iter : option midi_track_iter_t;    (* None: nullptr *)
  absolute_time : Z
}.

Definition volume_correction : list Z :=
  [   0;   4;   7;  11;  13;  14;  16;  18;
     21;  22;  23;  24;  24;  24;  25;  25;
     25;  26;  26;  27;  27;  27;  28;  28;
     29;  29;  29;  30;  30;  31;  31;  32;
     32;  32;  33;  33;  34;  34;  35;  35;
     36;  37;  37;  38;  38;  39;  39;  40;
     40;  41;  42;  42;  43;  43;  44;  45;
     45;  46;  47;  47;  48;  49;  49;  50;
     51;  52;  52;  53;  54;  55;  56;  56;
     57;  58;  59;  60;  61;  62;  62;  63;
     64;  65;  66;  67;  68;  69;  70;  71;
     72;  73;  74;  75;  77;  78;  79;  80;
     81;  82;  84;  85;  86;  87;  89;  90;
     91;  92;  94;  95;  96;  98;  99; 101;
    102; 104; 105; 107; 108; 110; 112; 113;
    115; 117; 118; 120; 122; 123; 125; 127 ].

Definition MIDIEVENT_CHANNEL (x : Z) : Z := Z.land x 0x0000000F.
Definition MIDIEVENT_TYPE (x : Z) : Z := Z.land x 0x000000F0.
Definition MIDIEVENT_DATA1 (x : Z) : Z := Z.shiftr (Z.land x 0x0000FF00) 8.
Definition MIDIEVENT_VOLUME (x : Z) : Z := Z.shiftr (Z.land x 0x007F0000) 16.

Definition STREAM_MAX_EVENTS : Z := 4.

Record buffer_t : Type := {
  events : list native_event_t;       (* STREAM_MAX_EVENTS slots *)
  buf_num_events : Z
}.

(** A call made on the stream handle, or the error box. *)
Inductive device_call : Type :=
| midiStreamOut (window : list native_event_t)
| midiOutShortMsg (msg : Z)
| midiStreamProperty_TIMEDIV (dwTimeDiv : Z)
| midiStreamProperty_TEMPO (dwTempo : Z)
| midiStreamRestart
| midiStreamStop
| midiOutReset
| MidiErrorMessageBox (dwError : Z).

Record state : Type := {
  song : win_midi_song_t;
  volume_factor : F32.t;
  channel_volume : list Z;            (* MIDI_CHANNELS_PER_TRACK entries *)
  buffer : buffer_t;
  hBufferReturnEvent : bool;          (* auto-reset event, true: signaled *)
  hExitEvent : bool;                  (* auto-reset event, true: signaled *)
  hPlayerThread : bool;               (* true: the thread exists *)
  device : list device_call
}.

Definition set_song (s : state) (g : win_midi_song_t) : state :=
  {| song := g; volume_factor := volume_factor s;
     channel_volume := channel_volume s; buffer := buffer s;
     hBufferReturnEvent := hBufferReturnEvent s; hExitEvent := hExitEvent s;
     hPlayerThread := hPlayerThread s; device := device s |}.

Definition set_volume_factor (s : state) (f : F32.t) : state :=
  {| song := song s; volume_factor := f;
     channel_volume := channel_volume s; buffer := buffer s;
     hBufferReturnEvent := hBufferReturnEvent s; hExitEvent := hExitEvent s;
     hPlayerThread := hPlayerThread s; device := device s |}.

Definition set_channel_volume (s : state) (cv : list Z) : state :=
  {| song := song s; volume_factor := volume_factor s;
     channel_volume := cv; buffer := buffer s;
     hBufferReturnEvent := hBufferReturnEvent s; hExitEvent := hExitEvent s;
     hPlayerThread := hPlayerThread s; device := device s |}.

Definition set_buffer (s : state) (b : buffer_t) : state :=
  {| song := song s; volume_factor := volume_factor s;
     channel_volume := channel_volume s; buffer := b;
     hBufferReturnEvent := hBufferReturnEvent s; hExitEvent := hExitEvent s;
     hPlayerThread := hPlayerThread s; device := device s |}.

Definition set_signals (s : state) (ret ex : bool) : state :=
  {| song := song s; volume_factor := volume_factor s;
     channel_volume := channel_volume s; buffer := buffer s;
     hBufferReturnEvent := ret; hExitEvent := ex;
     hPlayerThread := hPlayerThread s; device := device s |}.

Definition set_thread (s : state) (th : bool) : state :=
  {| song := song s; volume_factor := volume_factor s;
     channel_volume := channel_volume s; buffer := buffer s;
     hBufferReturnEvent := hBufferReturnEvent s; hExitEvent := hExitEvent s;
     hPlayerThread := th; device := device s |}.

Definition call_device (s : state) (c : device_call) : state :=
  {| song := song s; volume_factor := volume_factor s;
     channel_volume := channel_volume s; buffer := buffer s;
     hBufferReturnEvent := hBufferReturnEvent s; hExitEvent := hExitEvent s;
     hPlayerThread := hPlayerThread s; device := device s ++ [c] |}.

Definition set_position (g : win_midi_song_t) (p : Z) : win_midi_song_t :=
  {| native_events := native_events g; num_events := num_events g;
     position := p; looping := looping g |}.

Definition set_looping (g : win_midi_song_t) (l : bool) : win_midi_song_t :=
  {| native_events := native_events g; num_events := num_events g;
     position := position g; looping := l |}.

(** The static initialisers: zero everywhere, [volume_factor = 1.0]. *)
Definition initial_state : state :=
  {| song := {| native_events := []; num_events := 0; position := 0;
                looping := false |};
     volume_factor := F32.one;
     channel_volume := repeat 0 (Z.to_nat MIDI_CHANNELS_PER_TRACK);
     buffer := {| events := repeat zero_event (Z.to_nat STREAM_MAX_EVENTS);
                  buf_num_events := 0 |};
     hBufferReturnEvent := false; hExitEvent := false;
     hPlayerThread := false; device := [] |}.

(** ** FillBuffer and StreamOut *)

(** [volume_correction[int(float(volume) * volume_factor)]], the index
    first. *)
Definition volume_index (volume : Z) (factor : F32.t) : result Z :=
  match F32.truncate (F32.mul (F32.of_int volume) factor) with
  | Some i => Ok i
  | None => Undefined
  end.

Definition corrected_volume (volume : Z) (factor : F32.t) : result Z :=
  i <- volume_index volume factor ;;
  array_get volume_correction i.

Definition is_main_volume (x : Z) : bool :=
  (MIDIEVENT_TYPE x =? MIDI_EVENT_CONTROLLER) &&
  (MIDIEVENT_DATA1 x =? MIDI_CONTROLLER_MAIN_VOLUME).

Definition with_dwEvent (ev : native_event_t) (x : Z) : native_event_t :=
  {| dwDeltaTime := dwDeltaTime ev; dwStreamID := dwStreamID ev; dwEvent := x |}.

Definition set_buf_num_events (s : state) (i : Z) : state :=
  set_buffer s {| events := events (buffer s); buf_num_events := i |}.

(** The body of the [for] loop of FillBuffer at index [i], after the
    test of the cursor: copy the event, substitute the volume, advance. *)
Definition FillBuffer_copy (i : Z) (s : state) : result state :=
  let g := song s in
  ev <- array_get (native_events g) (position g) ;;
  evs <- array_set (events (buffer s)) i ev ;;
  let s := set_buffer s {| events := evs; buf_num_events := buf_num_events (buffer s) |} in
  s <- (if is_main_volume (dwEvent ev) then
          let volume := MIDIEVENT_VOLUME (dwEvent ev) in
          cv <- array_set (channel_volume s) (MIDIEVENT_CHANNEL (dwEvent ev)) volume ;;
          let s := set_channel_volume s cv in
          volume <- corrected_volume volume (volume_factor s) ;;
          let x := Z.lor (Z.land (dwEvent ev) 0xFF00FFFF)
                         (Z.shiftl (Z.land volume 0x7F) 16) in
          evs <- array_set (events (buffer s)) i (with_dwEvent ev x) ;;
          Ok (set_buffer s {| events := evs;
                              buf_num_events := buf_num_events (buffer s) |})
        else Ok s) ;;
  Ok (set_song s (set_position (song s) (position (song s) + 1))).

(** [n] is the number of iterations the [for] loop still has to make,
    [i] its counter. *)
Fixpoint FillBuffer_loop (n : nat) (i : Z) (s : state) : result state :=
  match n with
  | O => Ok (set_buf_num_events s i)
  | S n' =>
      if num_events (song s) <=? position (song s) then
        if looping (song s) then
          s <- FillBuffer_copy i (set_song s (set_position (song s) 0)) ;;
          FillBuffer_loop n' (i + 1) s
        else Ok (set_buf_num_events s i)
      else
        s <- FillBuffer_copy i s ;;
        FillBuffer_loop n' (i + 1) s
  end.

Definition FillBuffer (s : state) : result state :=
  FillBuffer_loop (Z.to_nat STREAM_MAX_EVENTS) 0 s.

(** The window the last fill produced: the filled slots of the buffer. *)
Definition window (s : state) : list native_event_t :=
  firstn (Z.to_nat (buf_num_events (buffer s))) (events (buffer s)).

(** [mmr] is what midiStreamOut answers. *)
Definition StreamOut (mmr : Z) (s : state) : state :=
  if buf_num_events (buffer s) =? 0 then s
  else
    let s := call_device s (midiStreamOut (window s)) in
    if mmr =? MMSYSERR_NOERROR then s
    else call_device s (MidiErrorMessageBox mmr).

(** ** The stream callback and the player thread *)

Definition MOM_DONE : Z := 0x3C9.

Definition MidiStreamProc (uMsg : Z) (s : state) : state :=
  if uMsg =? MOM_DONE then set_signals s true (hExitEvent s) else s.

(** [WaitForMultipleObjects(2, events, FALSE, INFINITE)] with
    [events = { hBufferReturnEvent, hExitEvent }]: the call returns
    [WAIT_OBJECT_0 + n] for the smallest index [n] of a signaled object
    and resets that auto-reset event; with no object signaled the thread
    stays blocked ([None]). *)
Definition WaitForMultipleObjects (s : state) : option (Z * state) :=
  if hBufferReturnEvent s then Some (0, set_signals s false (hExitEvent s))
  else if hExitEvent s then Some (1, set_signals s (hBufferReturnEvent s) false)
  else None.

Inductive thread_step : Type :=
| Blocked
| Continues (s : state)
| Returns (s : state).

(** One turn of the [while(1)] loop of PlayerProc. *)
Definition PlayerProc_turn (mmr : Z) (s : state) : result thread_step :=
  match WaitForMultipleObjects s with
  | None => Ok Blocked
  | Some (n, s) =>
      if n =? 0 then
        s <- FillBuffer s ;;
        Ok (Continues (StreamOut mmr s))
      else if n =? 1 then Ok (Returns s)
      else Ok (Continues s)
  end.

(** ** MIDItoStream *)

(** The scan for the track with the minimal candidate time; [i] is the
    index of the head of [tracks]. *)
Fixpoint find_min (tracks : list win_midi_track_t) (i min_time idx : Z) : Z * Z :=
  match tracks with
  | [] => (min_time, idx)
  | trk :: rest =>
      match iter trk with
      | None => find_min rest (i + 1) min_time idx
      | Some it =>
          let time := to_int (absolute_time trk + MIDI_GetDeltaTime it) in
          if time <? min_time then find_min rest (i + 1) time i
          else find_min rest (i + 1) min_time idx
      end
  end.

(** The packed event word [data] the switch computes; 0 for the kinds
    it leaves out. *)
Definition event_dword (event : midi_event_t) : Z :=
  let ty := event_type event in
  if ty =? MIDI_EVENT_META then
    if data_meta_type event =? MIDI_META_SET_TEMPO then
      to_dword (Z.lor (Z.lor (Z.lor (data_meta_byte event 2)
                                    (Z.shiftl (data_meta_byte event 1) 8))
                             (Z.shiftl (data_meta_byte event 0) 16))
                      (Z.shiftl MEVT_TEMPO 24))
    else 0
  else if (ty =? MIDI_EVENT_NOTE_OFF) || (ty =? MIDI_EVENT_NOTE_ON) ||
          (ty =? MIDI_EVENT_AFTERTOUCH) || (ty =? MIDI_EVENT_CONTROLLER) ||
          (ty =? MIDI_EVENT_PITCH_BEND) then
    to_dword (Z.lor (Z.lor (Z.lor (Z.lor ty (data_channel event))
                                  (Z.shiftl (data_param1 event) 8))
                           (Z.shiftl (data_param2 event) 16))
                    (Z.shiftl MEVT_SHORTMSG 24))
  else if (ty =? MIDI_EVENT_PROGRAM_CHANGE) || (ty =? MIDI_EVENT_CHAN_AFTERTOUCH) then
    to_dword (Z.lor (Z.lor (Z.lor (Z.lor ty (data_channel event))
                                  (Z.shiftl (data_param1 event) 8))
                           (Z.shiftl 0 16))
                    (Z.shiftl MEVT_SHORTMSG 24))
  else 0.

(** What the merge consumed, in order: the track, the absolute time
    [min_time] at which the event was taken, the event and its packed
    word.  The list is not part of the program; it names the source of
    each output event. *)
Record consumed_t : Type := {
  c_track : Z;
  c_time : Z;
  c_event : midi_event_t;
  c_data : Z
}.

Definition set_events (g : win_midi_song_t) (evs : list native_event_t) (n : Z)
  : win_midi_song_t :=
  {| native_events := evs; num_events := n;
     position := position g; looping := looping g |}.

(** The [while(1)] loop. *)
Fixpoint MIDItoStream_loop (fuel : nat) (tracks : list win_midi_track_t)
    (current_time : Z) (g : win_midi_song_t)
  : result (win_midi_song_t * list consumed_t) :=
  match fuel with
  | O => OutOfFuel
  | S fuel' =>
      let (min_time, idx) := find_min tracks 0 INT_MAX (-1) in
      if idx =? -1 then Ok (g, [])
      else
        trk <- array_get tracks idx ;;
        match iter trk with
        | None => Undefined
        | Some it =>
            match MIDI_GetNextEvent it with
            | None =>
                tracks <- array_set tracks idx
                            {| iter := None; absolute_time := min_time |} ;;
                MIDItoStream_loop fuel' tracks current_time g
            | Some (event, it) =>
                tracks <- array_set tracks idx
                            {| iter := Some it; absolute_time := min_time |} ;;
                let data := event_dword event in
                let c := {| c_track := idx; c_time := min_time;
                            c_event := event; c_data := data |} in
                if data =? 0 then
                  r <- MIDItoStream_loop fuel' tracks current_time g ;;
                  Ok (fst r, c :: snd r)
                else
                  evs <- array_set (native_events g) (num_events g)
                           {| dwDeltaTime := to_dword (min_time - current_time);
                              dwStreamID := 0;
                              dwEvent := data |} ;;
                  r <- MIDItoStream_loop fuel' tracks min_time
                         (set_events g evs (num_events g + 1)) ;;
                  Ok (fst r, c :: snd r)
            end
        end
  end.

Definition MIDI_IterateTrack (file : midi_file_t) : list win_midi_track_t :=
  map (fun trk : list midi_event_t => {| iter := Some trk; absolute_time := 0 |})
      (file_tracks file).

(** Every turn of the loop takes an event or closes a track. *)
Definition MIDItoStream_fuel (file : midi_file_t) : nat :=
  S (MIDI_NumEvents file + length (file_tracks file)).

Definition MIDItoStream_traced (file : midi_file_t) (g : win_midi_song_t)
  : result (win_midi_song_t * list consumed_t) :=
  MIDItoStream_loop (MIDItoStream_fuel file) (MIDI_IterateTrack file) 0
    (set_events g (repeat zero_event (MIDI_NumEvents file)) (num_events g)).

Definition MIDItoStream (file : midi_file_t) (s : state) : result state :=
  r <- MIDItoStream_traced file (song s) ;;
  Ok (set_song s (fst r)).

(** The source of the output events, in output order. *)
Definition merge_trace (file : midi_file_t) (g : win_midi_song_t) : list consumed_t :=
  match MIDItoStream_traced file g with
  | Ok r => snd r
  | _ => []
  end.

Definition emitted (tr : list consumed_t) : list consumed_t :=
  filter (fun c => negb (c_data c =? 0)) tr.

(** The output events of the song: the slots below [num_events]. *)
Definition song_events (g : win_midi_song_t) : list native_event_t :=
  firstn (Z.to_nat (num_events g)) (native_events g).

(** ** The public operations *)

Definition MIDI_MINVOL : F32.t := F32.literal 20 100.    (* 0.20f *)
Definition MIDI_MAXVOL : F32.t := F32.literal 75 100.    (* 0.75f *)

(** The messages of the loop over the channels of I_WIN_SetMusicVolume,
    from channel [i] on; [n] channels remain. *)
Fixpoint volume_messages (n : nat) (i : Z) (cv : list Z) (factor : F32.t)
  : result (list Z) :=
  match n with
  | O => Ok []
  | S n' =>
      v <- array_get cv i ;;
      value <- corrected_volume v factor ;;
      let msg := Z.lor (Z.lor (Z.lor MIDI_EVENT_CONTROLLER i)
                              (Z.shiftl MIDI_CONTROLLER_MAIN_VOLUME 8))
                       (Z.shiftl value 16) in
      rest <- volume_messages n' (i + 1) cv factor ;;
      Ok (msg :: rest)
  end.

Section Operations.

(** The range of the sound volume sliders, a constant of the engine's
    sound header, which is not among the sources. *)
Variable SND_MAXVOLUME : Z.

(** The reader of the MIDI container, outside this translation unit:
    [None] when the bytes are not a MIDI file. *)
Variable MIDI_LoadFile : list Z -> option midi_file_t.

Definition MIDI_INCREMENT : F32.t :=
  F32.div (F32.sub MIDI_MAXVOL MIDI_MINVOL) (F32.of_int (SND_MAXVOLUME - 1)).

(** The value [volume_factor] takes for a level. *)
Definition volume_factor_of (volume : Z) : F32.t :=
  if volume =? 0 then F32.zero
  else F32.add MIDI_MINVOL (F32.mul MIDI_INCREMENT (F32.of_int (volume - 1))).

(** Returns the new state; the messages sent are the last
    [MIDI_CHANNELS_PER_TRACK] calls of [device]. *)
Definition I_WIN_SetMusicVolume (volume : Z) (s : state) : result state :=
  let s := set_volume_factor s (volume_factor_of volume) in
  msgs <- volume_messages (Z.to_nat MIDI_CHANNELS_PER_TRACK) 0
            (channel_volume s) (volume_factor s) ;;
  Ok (fold_left (fun s msg => call_device s (midiOutShortMsg msg)) msgs s).

(** [mmr] is what midiStreamRestart answers. *)
Definition I_WIN_PlaySong (looping : bool) (mmr : Z) (s : state) : state :=
  let s := set_song s (set_looping (song s) looping) in
  let s := set_thread s true in
  let s := call_device s midiStreamRestart in
  if mmr =? MMSYSERR_NOERROR then s else call_device s (MidiErrorMessageBox mmr).

(** [bytes] is the song data; [mmr_timediv], [mmr_tempo] and [mmr_out]
    are what the two midiStreamProperty calls and midiStreamOut answer. *)
Definition I_WIN_RegisterSong (bytes : list Z) (mmr_timediv mmr_tempo mmr_out : Z)
    (s : state) : result (bool * state) :=
  match MIDI_LoadFile bytes with
  | None => Ok (false, s)
  | Some file =>
      let s := set_channel_volume s
                 (repeat 100 (Z.to_nat MIDI_CHANNELS_PER_TRACK)) in
      let s := call_device s
                 (midiStreamProperty_TIMEDIV (MIDI_GetFileTimeDivision file)) in
      if negb (mmr_timediv =? MMSYSERR_NOERROR) then
        Ok (false, call_device s (MidiErrorMessageBox mmr_timediv))
      else
        let s := call_device s (midiStreamProperty_TEMPO 500000) in
        if negb (mmr_tempo =? MMSYSERR_NOERROR) then
          Ok (false, call_device s (MidiErrorMessageBox mmr_tempo))
        else
          s <- MIDItoStream file s ;;
          let s := set_signals s false false in
          s <- FillBuffer s ;;
          Ok (true, StreamOut mmr_out s)
  end.

Definition I_WIN_UnRegisterSong (s : state) : state :=
  set_song s {| native_events := []; num_events := 0; position := 0;
                looping := looping (song s) |}.

(** The states the operations lead to from the initial one, when
    I_WIN_SetMusicVolume is only called with a level of the slider. *)
Inductive reachable : state -> Prop :=
| reach_initial : reachable initial_state
| reach_SetMusicVolume s volume s' :
    reachable s -> 0 <= volume <= SND_MAXVOLUME ->
    I_WIN_SetMusicVolume volume s = Ok s' -> reachable s'
| reach_RegisterSong s bytes m1 m2 m3 b s' :
    reachable s ->
    I_WIN_RegisterSong bytes m1 m2 m3 s = Ok (b, s') -> reachable s'
| reach_UnRegisterSong s :
    reachable s -> reachable (I_WIN_UnRegisterSong s)
| reach_PlaySong s looping mmr :
    reachable s -> reachable (I_WIN_PlaySong looping mmr s)
| reach_MidiStreamProc s uMsg :
    reachable s -> reachable (MidiStreamProc uMsg s)
| reach_exit_request s :
    reachable s -> reachable (set_signals s (hBufferReturnEvent s) true)
| reach_PlayerProc_Continues s mmr s' :
    reachable s -> PlayerProc_turn mmr s = Ok (Continues s') -> reachable s'
| reach_PlayerProc_Returns s mmr s' :
    reachable s -> PlayerProc_turn mmr s = Ok (Returns s') -> reachable s'.

End Operations.

(** ** Predicates of the statements *)

(** The song's cursor and count lie within its event array. *)
Definition song_ok (g : win_midi_song_t) : Prop :=
  0 <= position g <= num_events g /\
  num_events g <= Z.of_nat (length (native_events g)).

(** The stream buffer has its [STREAM_MAX_EVENTS] slots and there is one
    recorded volume for each channel. *)
Definition arrays_ok (s : state) : Prop :=
  Z.of_nat (length (events (buffer s))) = STREAM_MAX_EVENTS /\
  Z.of_nat (length (channel_volume s)) = MIDI_CHANNELS_PER_TRACK.

(** The volume state: a scale factor in the unit interval and channel
    volumes of 7 bits. *)
Definition volume_ok (s : state) : Prop :=
  arrays_ok s /\
  F32.in_unit (volume_factor s) /\
  Forall (fun v => 0 <= v <= 127) (channel_volume s).

(** The absolute times of the events of a track: the running sums of
    the delta times, from [t0]. *)
Fixpoint absolute_times (t0 : Z) (trk : list midi_event_t) : list Z :=
  match trk with
  | [] => []
  | e :: rest => (t0 + delta_time e) :: absolute_times (t0 + delta_time e) rest
  end.

Definition track_length (trk : list midi_event_t) : Z :=
  fold_right (fun e acc => delta_time e + acc) 0 trk.

(** No absolute time of the file reaches [INT_MAX]. *)
Definition times_fit (file : midi_file_t) : Prop :=
  Forall (fun trk => Forall (fun e => 0 <= delta_time e) trk /\
                     track_length trk < INT_MAX) (file_tracks file).

(** Non-decreasing time, and at equal times non-decreasing track. *)
Definition merge_le (a b : consumed_t) : Prop :=
  c_time a < c_time b \/ (c_time a = c_time b /\ c_track a <= c_track b).

(** The sum of the delta times of the first [k] events. *)
Definition delta_sum (k : nat) (evs : list native_event_t) : Z :=
  fold_right Z.add 0 (map dwDeltaTime (firstn k evs)).

(** The cyclic stream of the song from cursor [p]: [n] events. *)
Fixpoint cyclic (evs : list native_event_t) (p : nat) (n : nat) : list native_event_t :=
  match n with
  | O => []
  | S n' => nth (p mod length evs) evs zero_event :: cyclic evs (S p) n'
  end.

(** ** Auxiliary definitions of the proofs *)

Definition sticky (m : Z) (n : Z) : bool := negb (m mod 2 ^ n =? 0).

Definition U : Z := 400.

Definition round_up (N s : Z) : bool :=
  Z.testbit N (s - 1) && (sticky N (s - 1) || Z.odd (N / 2 ^ s)).

Definition rne (N s : Z) : Z := (N / 2 ^ s + (if round_up N s then 1 else 0)) * 2 ^ s.

Definition grid (N : Z) : Z := Z.max (Z.log2 N + 1 - 24) (U - 149).

Definition RND (N : Z) : Z := rne N (grid N).

Definition bra_finish (sx : bool) (mrs : shr_record) (e2 : Z) : spec_float :=
  match shr_m mrs with
  | Z0 => S754_zero sx
  | Zpos m0 => if e2 <=? F32.emax - F32.prec then S754_finite sx m0 e2 else S754_infinity sx
  | Zneg _ => S754_nan
  end.

(** the value of a non-negative float, in units of 2^-U *)
Definition val (f : F32.t) : Z :=
  match f with
  | S754_finite false m e => Zpos m * 2 ^ (e + U)
  | _ => 0
  end.

Definition of_int_exact (v : Z) : bool :=
  match F32.of_int v with
  | S754_finite false m e => (Zpos m * 2 ^ (e + U) =? v * 2 ^ U) && (-23 <=? e) && (e <=? 0)
  | _ => false
  end.

(** the index the code computes, as a number *)
Definition index_of (v : Z) (f : F32.t) : Z := RND (v * val f) / 2 ^ U.

(** What FillBuffer puts into the window for an event of the song: the
    event itself, with the volume field replaced by the corrected
    volume when it is a main volume controller event. *)
Definition substituted (factor : F32.t) (ev : native_event_t) : result native_event_t :=
  if is_main_volume (dwEvent ev) then
    volume <- corrected_volume (MIDIEVENT_VOLUME (dwEvent ev)) factor ;;
    Ok (with_dwEvent ev (Z.lor (Z.land (dwEvent ev) 0xFF00FFFF)
                               (Z.shiftl (Z.land volume 0x7F) 16)))
  else Ok ev.

(** The channel volumes after an event of the song went through
    FillBuffer. *)
Definition recorded (cv : list Z) (ev : native_event_t) : list Z :=
  if is_main_volume (dwEvent ev) then
    list_set cv (Z.to_nat (MIDIEVENT_CHANNEL (dwEvent ev))) (MIDIEVENT_VOLUME (dwEvent ev))
  else cv.

(** A main volume controller event of the stream: a short message of
    type controller with controller number 7. *)
Definition is_volume_event (x : Z) : bool :=
  (Z.shiftr x 24 =? MEVT_SHORTMSG) && is_main_volume x.

(** The test of FillBuffer looks at the low 16 bits of the word alone;
    [plain_song] holds of a list of events when the test takes no event
    for a main volume controller event that is not a short message. *)
Definition plain_song (evs : list native_event_t) : Prop :=
  Forall (fun ev => is_main_volume (dwEvent ev) = true ->
                    Z.shiftr (dwEvent ev) 24 = MEVT_SHORTMSG) evs.

(** How an event [src] of the song appears in the window as [w] at
    scale factor [factor]: a main volume controller event with the
    corrected volume in its volume field, any other event as it is. *)
Definition streamed_as (factor : F32.t) (src w : native_event_t) : Prop :=
  if is_volume_event (dwEvent src) then
    exists c, corrected_volume (MIDIEVENT_VOLUME (dwEvent src)) factor = Ok c /\
              w = with_dwEvent src (Z.lor (Z.land (dwEvent src) 0xFF00FFFF)
                                          (Z.shiftl (Z.land c 0x7F) 16))
  else w = src.

(** [n] fills in a row; the windows they produce, one after the other. *)
Fixpoint fills (n : nat) (s : state) : result (list native_event_t * state) :=
  match n with
  | O => Ok ([], s)
  | S n' =>
      s1 <- FillBuffer s ;;
      r <- fills n' s1 ;;
      Ok (window s1 ++ fst r, snd r)
  end.

(** The fill and submit cycle of the player thread, [n] times. *)
Fixpoint cycles (n : nat) (mmr : Z) (s : state) : result state :=
  match n with
  | O => Ok s
  | S n' =>
      s1 <- FillBuffer s ;;
      cycles n' mmr (StreamOut mmr s1)
  end.

Definition table_entry_ok (i : Z) : bool :=
  match array_get volume_correction i with
  | Ok c => (0 <=? c) && (c <=? 127)
  | _ => false
  end.

(** The state after the body of the loop copied [ev] into slot [i] as [w]. *)
Definition copied (i : Z) (ev w : native_event_t) (s : state) : state :=
  {| song := set_position (song s) (position (song s) + 1);
     volume_factor := volume_factor s;
     channel_volume := recorded (channel_volume s) ev;
     buffer := {| events := list_set (events (buffer s)) (Z.to_nat i) w;
                  buf_num_events := buf_num_events (buffer s) |};
     hBufferReturnEvent := hBufferReturnEvent s; hExitEvent := hExitEvent s;
     hPlayerThread := hPlayerThread s; device := device s |}.


(** What a run of the loop of FillBuffer leaves unchanged. *)
Definition fill_frame (s s' : state) : Prop :=
  native_events (song s') = native_events (song s) /\
  num_events (song s') = num_events (song s) /\
  looping (song s') = looping (song s) /\
  volume_factor s' = volume_factor s /\
  hBufferReturnEvent s' = hBufferReturnEvent s /\
  hExitEvent s' = hExitEvent s /\
  hPlayerThread s' = hPlayerThread s /\
  device s' = device s /\
  arrays_ok s' /\
  (Forall (fun v => 0 <= v <= 127) (channel_volume s) ->
   Forall (fun v => 0 <= v <= 127) (channel_volume s')).


(** The candidate time the scan computes for a track; [None] for a
    closed track. *)
Definition candidate (trk : win_midi_track_t) : option Z :=
  match iter trk with
  | Some it => Some (to_int (absolute_time trk + MIDI_GetDeltaTime it))
  | None => None
  end.

(** An open track whose remaining absolute times stay below [INT_MAX]. *)
Definition track_fits (trk : win_midi_track_t) : Prop :=
  match iter trk with
  | None => True
  | Some it =>
      0 <= absolute_time trk /\
      Forall (fun e => 0 <= delta_time e) it /\
      absolute_time trk + track_length it < INT_MAX
  end.

(** The events the open tracks still hold, and the number of open
    tracks. *)
Definition remaining (tracks : list win_midi_track_t) : nat :=
  list_sum (map (fun trk => match iter trk with
                            | Some it => length it
                            | None => O
                            end) tracks).

Definition open_tracks (tracks : list win_midi_track_t) : nat :=
  list_sum (map (fun trk => match iter trk with
                            | Some _ => 1%nat
                            | None => O
                            end) tracks).

Definition lex_le (t1 j1 t2 j2 : Z) : Prop := t1 < t2 \/ (t1 = t2 /\ j1 <= j2).

(** The output events for a list of emitted events, the previous one
    emitted at [t0]. *)
Fixpoint encode (t0 : Z) (em : list consumed_t) : list native_event_t :=
  match em with
  | [] => []
  | c :: rest =>
      {| dwDeltaTime := to_dword (c_time c - t0); dwStreamID := 0;
         dwEvent := c_data c |} :: encode (c_time c) rest
  end.

(** The absolute time each consumed event has in the file: the events
    of a track take the absolute times of the track in order.
    [pending] holds, for each track, the absolute times not taken yet. *)
Fixpoint source_times (pending : list (list Z)) (tr : list consumed_t) : list Z :=
  match tr with
  | [] => []
  | c :: rest =>
      match nth_error pending (Z.to_nat (c_track c)) with
      | Some (t :: ts) =>
          t :: source_times (list_set pending (Z.to_nat (c_track c)) ts) rest
      | _ => 0 :: source_times pending rest
      end
  end.

(** The consumed events of a merge with their absolute times in the
    file, and those of them that were emitted. *)
Definition timed (file : midi_file_t) (tr : list consumed_t) : list (Z * consumed_t) :=
  combine (source_times (map (absolute_times 0) (file_tracks file)) tr) tr.

Definition timed_emitted (file : midi_file_t) (tr : list consumed_t)
  : list (Z * consumed_t) :=
  filter (fun p => negb (c_data (snd p) =? 0)) (timed file tr).

Definition timed_le (a b : Z * consumed_t) : Prop :=
  lex_le (fst a) (c_track (snd a)) (fst b) (c_track (snd b)).

(** The events taken from track [k], in the order of the merge. *)
Definition of_track (k : nat) (tr : list consumed_t) : list consumed_t :=
  filter (fun c => c_track c =? Z.of_nat k) tr.

(** The merge of [file] into a song with no events: it completes, the
    trace holds for each consumed event the word the switch packs for
    it, the output array holds the words of the emitted events, those
    with a word other than 0, in the order of the trace, the events of
    each track were consumed in the order of the track, and the emitted
    events come in non-decreasing absolute time, the lower track first
    at equal times. *)
Definition merged_in_time_order (file : midi_file_t) (g : win_midi_song_t) : Prop :=
  exists g' tr,
    MIDItoStream_traced file g = Ok (g', tr) /\
    Forall (fun c => c_data c = event_dword (c_event c)) tr /\
    map dwEvent (song_events g') =
      map (fun c => event_dword (c_event c)) (emitted tr) /\
    (forall k trk, nth_error (file_tracks file) k = Some trk ->
                   map c_event (of_track k tr) = trk) /\
    StronglySorted timed_le (timed_emitted file tr).

(** What a merge gives: the events in the order the merge takes them,
    each with its track and its absolute time, and the output array,
    delta time and word of each event. *)
Definition merge_gives (file : midi_file_t) (g : win_midi_song_t)
    (order : list (Z * Z * midi_event_t)) (output : list (Z * Z)) : Prop :=
  exists g' tr,
    MIDItoStream_traced file g = Ok (g', tr) /\
    map (fun c => (c_track c, c_time c, c_event c)) tr = order /\
    map (fun ev => (dwDeltaTime ev, dwEvent ev)) (song_events g') = output.

(** The differences of consecutive times, the first one from [t0]. *)
Fixpoint differences (t0 : Z) (ts : list Z) : list Z :=
  match ts with
  | [] => []
  | t :: rest => (t - t0) :: differences t rest
  end.

(** The merge of [file] into a song with no events: it completes, the
    trace holds for each consumed event the word the switch packs for
    it, the output array holds one event for each emitted event, with
    its word, and none for a dropped one, each delta time is the
    distance from the absolute time of the previous emitted event, and
    the delta times of the first [k + 1] output events add up to the
    absolute time of the event emitted at place [k]. *)
Definition deltas_sum_to_times (file : midi_file_t) (g : win_midi_song_t) : Prop :=
  exists g' tr,
    MIDItoStream_traced file g = Ok (g', tr) /\
    Forall (fun c => c_data c = event_dword (c_event c)) tr /\
    map dwEvent (song_events g') =
      map (fun c => event_dword (c_event c)) (emitted tr) /\
    map dwDeltaTime (song_events g') =
      differences 0 (map fst (timed_emitted file tr)) /\
    forall k p, nth_error (timed_emitted file tr) k = Some p ->
                delta_sum (S k) (song_events g') = fst p.

(** The check of one value of the scale factor: a valid number of the
    unit interval, between [MIDI_MINVOL] and [MIDI_MAXVOL]. *)
Definition factor_ok (SND_MAXVOLUME volume : Z) : bool :=
  let f := volume_factor_of SND_MAXVOLUME volume in
  F32.valid f && F32.leb F32.zero f && F32.leb f F32.one &&
  F32.leb MIDI_MINVOL f && F32.leb f MIDI_MAXVOL.

Definition factors_ok (SND_MAXVOLUME : Z) : bool :=
  forallb (fun n => factor_ok SND_MAXVOLUME (Z.of_nat n))
          (seq 1 (Z.to_nat SND_MAXVOLUME)).

(** The values the scale factor takes: 1.0 at start, then 0.0 or a
    number between 0.20 and 0.75. *)
Definition factor_in_range (f : F32.t) : Prop :=
  f = F32.one \/ f = F32.zero \/
  (F32.leb MIDI_MINVOL f = true /\ F32.leb f MIDI_MAXVOL = true).

Definition table_pair_ok (i j : nat) : bool :=
  nth i volume_correction 0 <=? nth j volume_correction 0.

Definition table_sorted : bool :=
  forallb (fun i => forallb (fun d => table_pair_ok i (i + d)) (seq 0 (128 - i)))
          (seq 0 128).

(** The message I_WIN_SetMusicVolume sends for channel [i] when the
    corrected volume is 0. *)
Definition mute_message (i : Z) : Z :=
  Z.lor (Z.lor (Z.lor MIDI_EVENT_CONTROLLER i)
               (Z.shiftl MIDI_CONTROLLER_MAIN_VOLUME 8))
        (Z.shiftl 0 16).

(** What any run of FillBuffer leaves unchanged. *)
Definition fill_keeps (s s' : state) : Prop :=
  volume_factor s' = volume_factor s /\
  hBufferReturnEvent s' = hBufferReturnEvent s /\
  hExitEvent s' = hExitEvent s /\
  hPlayerThread s' = hPlayerThread s /\
  device s' = device s /\
  length (events (buffer s')) = length (events (buffer s)) /\
  length (channel_volume s') = length (channel_volume s) /\
  (Forall (fun v => 0 <= v <= 127) (channel_volume s) ->
   Forall (fun v => 0 <= v <= 127) (channel_volume s')).

(** ** The inputs of the examples *)

Definition note_on (delta note : Z) : midi_event_t :=
  {| event_type := MIDI_EVENT_NOTE_ON; delta_time := delta;
     data := channel_data 0 note 64 |}.

(** Track A with events at the absolute times 0, 100, 100 and track B
    with events at 50, 100. *)
Definition two_track_file : midi_file_t :=
  {| file_tracks := [ [note_on 0 1; note_on 100 2; note_on 0 3];
                      [note_on 50 4; note_on 50 5] ];
     time_division := 96 |}.

(** Two tracks that run past [INT_MAX]: nine events 0x0FFFFFFF ticks
    apart on track A, eight on track B. *)
Definition long_file : midi_file_t :=
  {| file_tracks := [ repeat (note_on 0x0FFFFFFF 1) 9;
                      repeat (note_on 0x0FFFFFFF 2) 8 ];
     time_division := 96 |}.

Definition fresh_song : win_midi_song_t := song initial_state.

(** A text meta event, a kind MIDItoStream drops. *)
Definition meta_text (delta : Z) : midi_event_t :=
  {| event_type := MIDI_EVENT_META; delta_time := delta;
     data := meta_data 0x01 [0x41] |}.

(** Two tracks with dropped events among the notes: track A has a note
    at 10, a text at 30 and a note at 60, track B a text at 5 and a
    note at 45. *)
Definition dropping_file : midi_file_t :=
  {| file_tracks := [ [note_on 10 1; meta_text 20; note_on 30 2];
                      [meta_text 5; note_on 40 3] ];
     time_division := 96 |}.

(** A song left registered: one event, already played. *)
Definition stale_song : win_midi_song_t :=
  {| native_events := [ {| dwDeltaTime := 0; dwStreamID := 0; dwEvent := 0x403C90 |} ];
     num_events := 1; position := 1; looping := false |}.

(** A looping song of a note, main volume 100 on channel 0 and another
    note. *)
Definition three_song : win_midi_song_t :=
  {| native_events := [ {| dwDeltaTime := 0; dwStreamID := 0; dwEvent := 0x403C90 |};
                        {| dwDeltaTime := 5; dwStreamID := 0; dwEvent := 0x6407B0 |};
                        {| dwDeltaTime := 10; dwStreamID := 0; dwEvent := 0x403E90 |} ];
     num_events := 3; position := 0; looping := true |}.

(** A song of one event, main volume 100 on channel 0, set to loop. *)
Definition volume_song : win_midi_song_t :=
  {| native_events := [ {| dwDeltaTime := 5; dwStreamID := 0; dwEvent := 0x6407B0 |} ];
     num_events := 1; position := 0; looping := true |}.

(** A song of one note, not played yet. *)
Definition note_song : win_midi_song_t :=
  {| native_events := [ {| dwDeltaTime := 0; dwStreamID := 0; dwEvent := 0x403C90 |} ];
     num_events := 1; position := 0; looping := false |}.

(** A reader that accepts every input as the two-track file, and one
    that accepts none. *)
Definition load_two_track (bytes : list Z) : option midi_file_t := Some two_track_file.
Definition load_nothing (bytes : list Z) : option midi_file_t := None.
(** ** FillBuffer on any song *)

(** The events the next [n] turns of the loop of FillBuffer copy, for a
    song of [K] events in the array [alloc], looping or not, from cursor
    [p]. *)
Fixpoint taken (l : bool) (K : Z) (alloc : list native_event_t) (p : Z) (n : nat)
  : list native_event_t :=
  match n with
  | O => []
  | S n' =>
      if K <=? p then
        if l then nth 0 alloc zero_event :: taken l K alloc 1 n' else []
      else nth (Z.to_nat p) alloc zero_event :: taken l K alloc (p + 1) n'
  end.

(** The cursor after these turns. *)
Fixpoint cursor_after (l : bool) (K : Z) (p : Z) (n : nat) : Z :=
  match n with
  | O => p
  | S n' =>
      if K <=? p then
        if l then cursor_after l K 1 n' else p
      else cursor_after l K (p + 1) n'
  end.

(** What FillBuffer needs to stay inside its arrays: the buffer and the
    channel volumes have their slots, the scale factor lies in [0,1],
    the cursor is not negative, the event count does not exceed the
    array of the song, and a looping song has a slot 0. *)
Definition fill_safe (s : state) : Prop :=
  arrays_ok s /\ F32.in_unit (volume_factor s) /\
  0 <= position (song s) /\
  num_events (song s) <= Z.of_nat (length (native_events (song s))) /\
  (looping (song s) = true -> native_events (song s) <> []).

(** The events one fill takes from the song: the next four of the
    cyclic stream of a looping song, the next four (or those left) of a
    song played once. *)
Definition fill_sources (s : state) : list native_event_t :=
  if looping (song s)
  then cyclic (song_events (song s)) (Z.to_nat (position (song s)))
              (Z.to_nat STREAM_MAX_EVENTS)
  else firstn (Z.to_nat STREAM_MAX_EVENTS)
              (skipn (Z.to_nat (position (song s))) (song_events (song s))).

(** ** Equalities of event words, bit by bit *)

Ltac bit_cases :=
  repeat match goal with
         | |- context [?a <? ?b] => destruct (Z.ltb_spec a b); try lia
         | |- context [?a <=? ?b] => destruct (Z.leb_spec a b); try lia
         end.

Ltac bits i :=
  apply Z.bits_inj'; intros i ?;
  repeat (rewrite ?Z.land_spec, ?Z.lor_spec, ?Z.shiftr_spec, ?Z.shiftl_spec,
            ?Z.testbit_ones, ?Z.bits_0 by lia);
  bit_cases;
  repeat match goal with
         | |- context [Z.testbit ?x ?j] => rewrite (Z.testbit_neg_r x j) by lia
         end;
  rewrite ?Z.add_simpl_r, ?Z.sub_simpl_r;
  cbn [andb orb];
  rewrite ?andb_true_r, ?andb_false_r, ?orb_false_r, ?orb_true_r;
  try reflexivity.

(** ** The events MIDItoStream keeps *)

(** An event the switch of MIDItoStream packs into a word other than 0,
    and the number of such events in a file. *)
Definition supported (e : midi_event_t) : bool := negb (event_dword e =? 0).

Definition MIDI_NumSupported (file : midi_file_t) : nat :=
  list_sum (map (fun trk => length (filter supported trk)) (file_tracks file)).

(** What holds of every entry of the trace of a merge over [n] tracks. *)
Definition trace_entry_ok (n : nat) (c : consumed_t) : Prop :=
  0 <= c_track c < Z.of_nat n /\ c_data c = event_dword (c_event c).

(** ** The messages and the scale factors of I_WIN_SetMusicVolume *)

(** The message for channel [i] and corrected volume [value]. *)
Definition volume_message (i value : Z) : Z :=
  Z.lor (Z.lor (Z.lor MIDI_EVENT_CONTROLLER i)
               (Z.shiftl MIDI_CONTROLLER_MAIN_VOLUME 8))
        (Z.shiftl value 16).

(** The corrected volume as a number, 0 where the code is undefined. *)
Definition corrected (volume : Z) (factor : F32.t) : Z :=
  match corrected_volume volume factor with
  | Ok c => c
  | _ => 0
  end.

Definition volume_message_ok (i value : Z) : bool :=
  let m := volume_message i value in
  (MIDIEVENT_TYPE m =? MIDI_EVENT_CONTROLLER) && (MIDIEVENT_CHANNEL m =? i) &&
  (MIDIEVENT_DATA1 m =? MIDI_CONTROLLER_MAIN_VOLUME) && (MIDIEVENT_VOLUME m =? value) &&
  (Z.shiftr m 16 =? value) && is_main_volume m.

(** The scale factors of the levels 0, 1, ..., [SND_MAXVOLUME] of a
    slider, in this order. *)
Definition factor_list (SND_MAXVOLUME : Z) : list F32.t :=
  let inc := MIDI_INCREMENT SND_MAXVOLUME in
  F32.zero ::
  map (fun n => F32.add MIDI_MINVOL (F32.mul inc (F32.of_int (Z.of_nat n))))
      (seq 0 (Z.to_nat SND_MAXVOLUME)).

Definition same_float (a b : F32.t) : bool :=
  match a, b with
  | S754_finite s m e, S754_finite s' m' e' =>
      Bool.eqb s s' && Pos.eqb m m' && Z.eqb e e'
  | _, _ => false
  end.

(** The value of a non-negative float in units of 2^-149. *)
Definition scaled (f : F32.t) : Z :=
  match f with
  | S754_finite false m e => Z.shiftl (Zpos m) (e + 149)
  | _ => 0
  end.

(** The check of one slider: the factors do not decrease from one level
    to the next, level 1 is [MIDI_MINVOL] and the top level is
    [MIDI_MAXVOL]. *)
Definition factor_steps_ok (SND_MAXVOLUME : Z) : bool :=
  let fs := factor_list SND_MAXVOLUME in
  let vs := map scaled fs in
  forallb (fun n => nth n vs 0 <=? nth (S n) vs 0) (seq 0 (Z.to_nat SND_MAXVOLUME)) &&
  same_float (nth 1 fs F32.zero) MIDI_MINVOL &&
  same_float (nth (Z.to_nat SND_MAXVOLUME) fs F32.zero) MIDI_MAXVOL.

(** ** The calls of StreamOut *)

(** The calls StreamOut makes for a window. *)
Definition StreamOut_calls (mmr : Z) (w : list native_event_t) : list device_call :=
  match w with
  | [] => []
  | _ => midiStreamOut w ::
         (if mmr =? MMSYSERR_NOERROR then [] else [MidiErrorMessageBox mmr])
  end.
(* ================================================================== *)
(** * binary32 rounding *)
(* ================================================================== *)

Lemma digits2_log2 m : Zpos (digits2_pos m) = Z.log2 (Zpos m) + 1.
Proof.
  induction m as [m IH|m IH|]; simpl digits2_pos.
  - rewrite Pos2Z.inj_succ, IH. destruct m; simpl; lia.
  - rewrite Pos2Z.inj_succ, IH. destruct m; simpl; lia.
  - reflexivity.
Qed.

Lemma iter_nat_swap {A} (f : A -> A) n x : Nat.iter n f (f x) = f (Nat.iter n f x).
Proof. induction n; simpl; congruence. Qed.

Lemma iter_pos_nat {A} (f : A -> A) p x :
  iter_pos f p x = Nat.iter (Pos.to_nat p) f x.
Proof.
  revert x; induction p as [p IH|p IH|]; intros x; simpl iter_pos.
  - rewrite !IH, Pos2Nat.inj_xI.
    replace (S (2 * Pos.to_nat p))%nat with (Pos.to_nat p + S (Pos.to_nat p))%nat by lia.
    rewrite Nat.iter_add. f_equal. rewrite iter_nat_swap. reflexivity.
  - rewrite !IH, Pos2Nat.inj_xO.
    replace (2 * Pos.to_nat p)%nat with (Pos.to_nat p + Pos.to_nat p)%nat by lia.
    rewrite Nat.iter_add. reflexivity.
  - reflexivity.
Qed.

Lemma shr_1_nonneg m r s : 0 <= m ->
  shr_1 (Build_shr_record m r s) = Build_shr_record (m / 2) (Z.odd m) (r || s).
Proof.
  intros Hm. destruct m as [|p|p]; try lia.
  - reflexivity.
  - rewrite <- Z.div2_div. destruct p as [p|p|]; reflexivity.
Qed.

Lemma pow2_S n : 0 <= n -> 2 ^ (n + 1) = 2 ^ n * 2.
Proof. intros. rewrite Z.pow_add_r by lia. reflexivity. Qed.

Lemma testbit_mod m k : 0 <= k ->
  m mod 2 ^ (k + 1) = m mod 2 ^ k + (if Z.testbit m k then 2 ^ k else 0).
Proof.
  intros Hk. rewrite pow2_S, Z.rem_mul_r by lia.
  pose proof (Z.testbit_spec' m k Hk) as Hb.
  destruct (Z.testbit m k); simpl in Hb; rewrite <- Hb; lia.
Qed.

Lemma shr_iter m n : 0 <= m ->
  Nat.iter (S n) shr_1 (Build_shr_record m false false) =
  Build_shr_record (m / 2 ^ Z.of_nat (S n)) (Z.testbit m (Z.of_nat n))
                   (sticky m (Z.of_nat n)).
Proof.
  intros Hm. induction n as [|n IH].
  - change (Nat.iter 1 shr_1 ?x) with (shr_1 x). rewrite shr_1_nonneg by lia.
    unfold sticky. rewrite Z.bit0_odd. simpl Z.of_nat. rewrite Z.pow_0_r, Z.mod_1_r, Z.pow_1_r. reflexivity.
  - change (Nat.iter (S (S n)) shr_1 ?x) with (shr_1 (Nat.iter (S n) shr_1 x)).
    rewrite IH. rewrite shr_1_nonneg by (apply Z.div_pos; lia).
    replace (Z.of_nat (S (S n))) with (Z.of_nat (S n) + 1) by lia.
    replace (Z.of_nat (S n)) with (Z.of_nat n + 1) by lia.
    set (k := Z.of_nat n). assert (0 <= k) by lia.
    f_equal.
    + rewrite (pow2_S (k + 1)) by lia. rewrite Z.div_div by lia. reflexivity.
    + rewrite Z.testbit_odd, Z.shiftr_div_pow2 by lia. reflexivity.
    + unfold sticky. rewrite (testbit_mod m k) by lia.
      pose proof (Z.mod_pos_bound m (2 ^ k) ltac:(lia)).
      destruct (Z.testbit m k); simpl.
      * symmetry. apply negb_true_iff, Z.eqb_neq. lia.
      * rewrite Z.add_0_r. reflexivity.
Qed.

Lemma fexp32 e : fexp F32.prec F32.emax e = Z.max (e - 24) (-149).
Proof. reflexivity. Qed.

Lemma rne_scale m n k : 0 <= m -> 0 < n -> 0 <= k ->
  rne (m * 2 ^ k) (n + k) = rne m n * 2 ^ k.
Proof.
  intros Hm Hn Hk. unfold rne, round_up, sticky.
  assert (Hd : m * 2 ^ k / 2 ^ (n + k) = m / 2 ^ n).
  { rewrite Z.pow_add_r by lia. apply Z.div_mul_cancel_r; lia. }
  rewrite Hd.
  replace (n + k - 1) with (k + (n - 1)) by lia.
  rewrite Z.mul_pow2_bits_add by lia.
  assert (Hs : (m * 2 ^ k) mod 2 ^ (k + (n - 1)) = (m mod 2 ^ (n - 1)) * 2 ^ k).
  { rewrite Z.pow_add_r by lia. rewrite (Z.mul_comm (2 ^ k)). apply Z.mul_mod_distr_r; lia. }
  rewrite Hs.
  assert (Hz : (m mod 2 ^ (n - 1) * 2 ^ k =? 0) = (m mod 2 ^ (n - 1) =? 0)).
  { destruct (Z.eqb_spec (m mod 2 ^ (n - 1)) 0) as [->|Hne]; [reflexivity|].
    apply Z.eqb_neq. assert (0 < 2 ^ k) by lia. nia. }
  rewrite Hz. rewrite Z.pow_add_r by lia. ring.
Qed.

Lemma rne_exact N s : 0 <= N -> 0 < s -> N mod 2 ^ s = 0 -> rne N s = N.
Proof.
  intros HN Hs H0. unfold rne, round_up.
  assert (Hb : Z.testbit N (s - 1) = false).
  { pose proof (testbit_mod N (s - 1) ltac:(lia)) as H.
    replace (s - 1 + 1) with s in H by lia. rewrite H0 in H.
    pose proof (Z.mod_pos_bound N (2 ^ (s - 1)) ltac:(lia)).
    destruct (Z.testbit N (s - 1)); [|reflexivity].
    assert (0 < 2 ^ (s - 1)) by lia. lia. }
  rewrite Hb. simpl. rewrite Z.add_0_r.
  pose proof (Z.div_mod N (2 ^ s) ltac:(lia)). lia.
Qed.

Lemma log2_val m k : 0 < m -> 0 <= k -> Z.log2 (m * 2 ^ k) = Z.log2 m + k.
Proof. intros. rewrite Z.log2_mul_pow2 by lia. lia. Qed.

Lemma bra_stage2 sx R m1 e1 mrs e2 :
  0 <= m1 <= 2 ^ 24 -> -149 <= e1 <= 103 -> R = m1 * 2 ^ (e1 + U) ->
  shr_fexp F32.prec F32.emax m1 e1 loc_Exact = (mrs, e2) ->
  (R = 0 /\ bra_finish sx mrs e2 = S754_zero sx) \/
  (exists m' e', bra_finish sx mrs e2 = S754_finite sx m' e' /\ -149 <= e' /\
                 Zpos m' * 2 ^ (e' + U) = R).
Proof.
  intros Hm1 He1 HR. unfold shr_fexp. rewrite fexp32. unfold bra_finish.
  destruct m1 as [|p1|p1]; try lia.
  - cbn [Zdigits2 shr_record_of_loc].
    replace (Z.max (0 + e1 - 24) (-149) - e1) with (Z.max (-24) (-149 - e1)) by lia.
    destruct (Z.max (-24) (-149 - e1)) eqn:Hmin; try lia; cbn [shr];
      intros [= <- <-]; left; split; (lia || reflexivity).
  - cbn [Zdigits2 shr_record_of_loc]. rewrite digits2_log2.
    pose proof (Z.log2_spec (Zpos p1) ltac:(lia)) as Hl1.
    destruct (Z.eq_dec (Zpos p1) (2 ^ 24)) as [Heq|Hne].
    + assert (p1 = 16777216%positive)
        by (change (2 ^ 24) with (Zpos 16777216) in Heq; congruence).
      subst p1. change (Z.log2 (Zpos 16777216)) with 24.
      replace (Z.max (24 + 1 + e1 - 24) (-149) - e1) with 1 by lia.
      cbn [shr iter_pos shr_1 shr_m orb]. intros [= <- <-]. cbn [shr_m].
      right. exists 8388608%positive, (e1 + 1).
      replace (e1 + 1 <=? F32.emax - F32.prec) with true
        by (symmetry; apply Z.leb_le; unfold F32.emax, F32.prec; lia).
      repeat split; try lia. rewrite HR.
      replace (e1 + 1 + U) with (e1 + U + 1) by lia. rewrite pow2_S by (unfold U; lia).
      lia.
    + assert (Z.log2 (Zpos p1) < 24).
      { apply Z.log2_lt_pow2; lia. }
      assert (Hle : (e1 <=? F32.emax - F32.prec) = true)
        by (apply Z.leb_le; unfold F32.emax, F32.prec; lia).
      destruct (Z.max (Z.log2 (Z.pos p1) + 1 + e1 - 24) (-149) - e1) eqn:Hn; try lia;
        cbn [shr]; intros [= <- <-]; cbn [shr_m]; right; exists p1, e1; rewrite Hle;
        repeat split; try lia.
Qed.

Lemma bra_unfold sx mx ex :
  binary_round_aux F32.prec F32.emax sx mx ex loc_Exact =
  let mrs1 := fst (shr_fexp F32.prec F32.emax mx ex loc_Exact) in
  let e1 := snd (shr_fexp F32.prec F32.emax mx ex loc_Exact) in
  let p := shr_fexp F32.prec F32.emax
             (round_nearest_even (shr_m mrs1) (loc_of_shr_record mrs1)) e1 loc_Exact in
  bra_finish sx (fst p) (snd p).
Proof.
  unfold binary_round_aux, bra_finish.
  destruct (shr_fexp F32.prec F32.emax mx ex loc_Exact) as [mrs1 e1]. cbn [fst snd].
  destruct (shr_fexp F32.prec F32.emax _ e1 loc_Exact) as [mrs2 e2]. reflexivity.
Qed.

Lemma bra_stage1 m e mrs1 e1 :
  let t := Z.max (Z.log2 (Zpos m) + 1 + e - 24) (-149) in
  shr_fexp F32.prec F32.emax (Zpos m) e loc_Exact = (mrs1, e1) ->
  (t <= e /\ mrs1 = Build_shr_record (Zpos m) false false /\ e1 = e) \/
  (e < t /\ e1 = t /\
   mrs1 = Build_shr_record (Zpos m / 2 ^ (t - e)) (Z.testbit (Zpos m) (t - e - 1))
                           (sticky (Zpos m) (t - e - 1))).
Proof.
  intros t. unfold shr_fexp. cbn [Zdigits2]. rewrite digits2_log2, fexp32. fold t.
  unfold shr, shr_record_of_loc.
  destruct (t - e) as [|p|p] eqn:Hn.
  - intros [= <- <-]. left. repeat split; lia.
  - rewrite iter_pos_nat.
    destruct (Pos2Nat.is_succ p) as [n Hp]. rewrite Hp.
    rewrite shr_iter by lia.
    assert (Hpn : Zpos p = Z.of_nat (S n)) by lia.
    rewrite <- Hpn. replace (Z.of_nat n) with (Zpos p - 1) by lia.
    intros [= <- <-]. right. repeat split; lia.
  - intros [= <- <-]. left. repeat split; lia.
Qed.

Lemma bra_spec sx m e :
  - U <= e <= 103 -> Z.log2 (Zpos m) + 1 + e <= 127 ->
  let N := Zpos m * 2 ^ (e + U) in
  let r := binary_round_aux F32.prec F32.emax sx (Zpos m) e loc_Exact in
  (RND N = 0 /\ r = S754_zero sx) \/
  (exists m' e', r = S754_finite sx m' e' /\ -149 <= e' /\ Zpos m' * 2 ^ (e' + U) = RND N).
Proof.
  intros He Hd N r.
  pose proof (Z.log2_spec (Zpos m) ltac:(lia)) as Hlog.
  rewrite <- Z.add_1_r in Hlog.
  subst r. rewrite bra_unfold. cbv zeta.
  destruct (shr_fexp F32.prec F32.emax (Zpos m) e loc_Exact) as [mrs1 e1] eqn:H1.
  apply bra_stage1 in H1. cbn [fst snd].
  set (d := Z.log2 (Zpos m) + 1) in *.
  assert (Hdpos : 0 < d) by (pose proof (Z.log2_nonneg (Zpos m)); lia).
  set (t := Z.max (d + e - 24) (-149)) in *.
  assert (Ht : -149 <= t /\ d + e - 24 <= t /\ (t = -149 \/ t = d + e - 24))
    by (unfold t; lia).
  clearbody t.
  assert (Hgrid : grid N = t + U).
  { unfold grid, N. rewrite log2_val by lia. fold d. unfold U in *. lia. }
  unfold RND. rewrite Hgrid.
  assert (HN : 0 <= N).
  { unfold N. apply Z.mul_nonneg_nonneg; [lia|]. apply Z.pow_nonneg; lia. }
  destruct H1 as [(Hte & -> & ->)|(Hte & -> & ->)].
  - cbn [shr_m loc_of_shr_record round_nearest_even].
    assert (Hm24 : 0 <= Zpos m <= 2 ^ 24).
    { split; [lia|]. apply Z.lt_le_incl; apply Z.lt_le_trans with (2 ^ d);
        [lia | apply Z.pow_le_mono_r; lia]. }
    assert (HR : rne N (t + U) = Zpos m * 2 ^ (e + U)).
    { apply rne_exact; [assumption|unfold U; lia|].
      unfold N. replace (e + U) with ((e - t) + (t + U)) by lia.
      rewrite Z.pow_add_r by (unfold U; lia). rewrite Z.mul_assoc. apply Z.mod_mul.
      apply Z.pow_nonzero; unfold U; lia. }
    destruct (shr_fexp F32.prec F32.emax (Zpos m) e loc_Exact) as [mrs e2] eqn:Hsf.
    cbn [fst snd]. apply (bra_stage2 sx _ (Zpos m) e mrs e2); try assumption. lia.
  - cbn [shr_m]. set (n := t - e) in *. assert (Hn : 0 < n) by (unfold n; lia).
    set (q := Zpos m / 2 ^ n).
    assert (Hq : 0 <= q < 2 ^ 24).
    { split; [apply Z.div_pos; lia|].
      apply Z.div_lt_upper_bound; [lia|].
      apply Z.lt_le_trans with (2 ^ d); [lia|].
      rewrite <- Z.pow_add_r by lia. apply Z.pow_le_mono_r; unfold n; lia. }
    assert (Hrn : round_nearest_even q
              (loc_of_shr_record {| shr_m := q; shr_r := Z.testbit (Zpos m) (n - 1);
                                    shr_s := sticky (Zpos m) (n - 1) |}) =
            q + (if round_up (Zpos m) n then 1 else 0)).
    { unfold round_up. fold q. rewrite <- Z.negb_even.
      destruct (Z.testbit (Zpos m) (n - 1)), (sticky (Zpos m) (n - 1)); simpl;
        try destruct (Z.even q); simpl; lia. }
    rewrite Hrn.
    set (m1 := q + (if round_up (Zpos m) n then 1 else 0)).
    assert (Hm1 : 0 <= m1 <= 2 ^ 24) by (unfold m1; destruct (round_up _ _); lia).
    assert (HR : rne N (t + U) = m1 * 2 ^ (t + U)).
    { unfold N. replace (t + U) with (n + (e + U)) by (unfold n; lia).
      assert (0 <= e + U) by (clear - He; lia).
      rewrite rne_scale by lia.
      unfold rne. fold q. fold m1. rewrite (Z.pow_add_r 2 n (e + U)) by lia. ring. }
    destruct (shr_fexp F32.prec F32.emax m1 t loc_Exact) as [mrs e2] eqn:Hsf.
    cbn [fst snd]. apply (bra_stage2 sx _ m1 t mrs e2); try assumption. lia.
Qed.

Lemma bra_spec_lt sx m e :
  - U <= e <= 103 -> Z.log2 (Zpos m) + 1 + e <= 127 ->
  let N := Zpos m * 2 ^ (e + U) in
  let r := binary_round_aux F32.prec F32.emax sx (Zpos m) e loc_Exact in
  r = S754_zero sx \/ exists m' e', r = S754_finite sx m' e'.
Proof.
  intros He Hd N r. destruct (bra_spec sx m e He Hd) as [[_ H]|(m' & e' & H & _)].
  - left; exact H.
  - right; eauto.
Qed.

(** rounding on one grid *)
Lemma rne_cases N s : 0 <= N -> 0 < s ->
  exists (l : Z) (b : bool), 0 <= l < 2 ^ (s - 1) /\
    N = (N / 2 ^ s) * 2 ^ s + l + (if b then 2 ^ (s - 1) else 0) /\
    round_up N s = b && (negb (l =? 0) || Z.odd (N / 2 ^ s)).
Proof.
  intros HN Hs. exists (N mod 2 ^ (s - 1)), (Z.testbit N (s - 1)).
  split; [apply Z.mod_pos_bound; lia|]. split; [|reflexivity].
  pose proof (testbit_mod N (s - 1) ltac:(lia)) as H.
  replace (s - 1 + 1) with s in H by lia.
  pose proof (Z.div_mod N (2 ^ s) ltac:(lia)). lia.
Qed.

Lemma pow2_split s : 0 < s -> 2 ^ s = 2 * 2 ^ (s - 1).
Proof. intros. rewrite <- Z.pow_succ_r by lia. f_equal. lia. Qed.

Lemma rne_bounds N s : 0 <= N -> 0 < s ->
  (N / 2 ^ s) * 2 ^ s <= rne N s <= (N / 2 ^ s + 1) * 2 ^ s.
Proof.
  intros HN Hs. unfold rne. assert (0 < 2 ^ s) by lia.
  destruct (round_up N s); nia.
Qed.

Lemma rne_mono N1 N2 s : 0 <= N1 <= N2 -> 0 < s -> rne N1 s <= rne N2 s.
Proof.
  intros HN Hs.
  assert (Hq : N1 / 2 ^ s <= N2 / 2 ^ s) by (apply Z.div_le_mono; lia).
  assert (Hp : 0 < 2 ^ s) by lia.
  destruct (Z.eq_dec (N1 / 2 ^ s) (N2 / 2 ^ s)) as [Heq|Hne].
  - destruct (rne_cases N1 s ltac:(lia) Hs) as (l1 & b1 & Hl1 & E1 & U1).
    destruct (rne_cases N2 s ltac:(lia) Hs) as (l2 & b2 & Hl2 & E2 & U2).
    unfold rne. rewrite U1, U2, <- Heq in *.
    pose proof (pow2_split s Hs) as Hps.
    set (o := Z.odd (N1 / 2 ^ s)) in *.
    set (u1 := b1 && (negb (l1 =? 0) || o)).
    set (u2 := b2 && (negb (l2 =? 0) || o)).
    assert (H : u1 = true -> u2 = true).
    { unfold u1, u2. intros Hb. apply andb_true_iff in Hb. destruct Hb as [-> Hb].
      destruct b2; [|exfalso; lia]. cbn [andb].
      destruct o; [apply orb_true_r|].
      rewrite orb_false_r in *. apply negb_true_iff, Z.eqb_neq in Hb.
      apply negb_true_iff, Z.eqb_neq. lia. }
    destruct u1, u2; try lia.
  - pose proof (rne_bounds N1 s ltac:(lia) Hs). pose proof (rne_bounds N2 s ltac:(lia) Hs). nia.
Qed.

Lemma RND_0 : RND 0 = 0.
Proof. reflexivity. Qed.

Lemma grid_pos N : 0 < grid N.
Proof. unfold grid, U. lia. Qed.

Lemma RND_nonneg N : 0 <= N -> 0 <= RND N.
Proof.
  intros HN. pose proof (rne_bounds N (grid N) HN (grid_pos N)).
  unfold RND. pose proof (grid_pos N). assert (0 <= N / 2 ^ grid N) by (apply Z.div_pos; lia).
  assert (0 < 2 ^ grid N) by lia. nia.
Qed.

Lemma RND_mono N1 N2 : 0 <= N1 <= N2 -> RND N1 <= RND N2.
Proof.
  intros HN. destruct (Z.eq_dec N1 0) as [->|Hne].
  { rewrite RND_0. apply RND_nonneg; lia. }
  assert (Hg : grid N1 <= grid N2).
  { unfold grid. pose proof (Z.log2_le_mono N1 N2 ltac:(lia)). lia. }
  destruct (Z.eq_dec (grid N1) (grid N2)) as [Heq|Hlt].
  - unfold RND. rewrite Heq. apply rne_mono; [lia|apply grid_pos].
  - pose proof (grid_pos N1) as Hp1.
    set (s1 := grid N1) in *. set (s2 := grid N2) in *.
    assert (Hs2 : s2 = Z.log2 N2 + 1 - 24) by (unfold s2, s1, grid in *; lia).
    assert (Hl1 : Z.log2 N1 + 1 - 24 <= s1) by (unfold s1, grid; lia).
    pose proof (Z.log2_spec N1 ltac:(lia)) as HL1. rewrite <- Z.add_1_r in HL1.
    pose proof (Z.log2_spec N2 ltac:(lia)) as HL2.
    apply Z.le_trans with (2 ^ (s2 + 23)).
    + pose proof (rne_bounds N1 s1 ltac:(lia) Hp1) as [_ Hub]. fold (RND N1) in Hub.
      apply Z.le_trans with (1 := Hub).
      assert (N1 / 2 ^ s1 < 2 ^ 24).
      { apply Z.div_lt_upper_bound; [lia|].
        apply Z.lt_le_trans with (2 ^ (Z.log2 N1 + 1)); [lia|].
        rewrite <- Z.pow_add_r by lia. apply Z.pow_le_mono_r; lia. }
      apply Z.le_trans with (2 ^ 24 * 2 ^ s1).
      * apply Z.mul_le_mono_nonneg_r; lia.
      * rewrite <- Z.pow_add_r by lia. apply Z.pow_le_mono_r; lia.
    + pose proof (rne_bounds N2 s2 ltac:(lia) ltac:(lia)) as [Hlb _]. fold (RND N2) in Hlb.
      apply Z.le_trans with (2 := Hlb).
      assert (2 ^ 23 <= N2 / 2 ^ s2).
      { apply Z.div_le_lower_bound; [lia|].
        rewrite <- Z.pow_add_r by lia. replace (s2 + 23) with (Z.log2 N2) by lia. lia. }
      rewrite (Z.add_comm s2), Z.pow_add_r by lia.
      apply Z.mul_le_mono_nonneg_r; lia.
Qed.

Lemma RND_exact v : 0 <= v < 2 ^ 24 -> RND (v * 2 ^ U) = v * 2 ^ U.
Proof.
  intros Hv. destruct (Z.eq_dec v 0) as [->|Hne]; [reflexivity|].
  unfold RND. apply rne_exact.
  - assert (0 < 2 ^ U) by (unfold U; lia). nia.
  - apply grid_pos.
  - assert (Hg : grid (v * 2 ^ U) <= U).
    { unfold grid. rewrite log2_val by (unfold U; lia).
      assert (Z.log2 v < 24) by (apply Z.log2_lt_pow2; lia). unfold U in *. lia. }
    pose proof (grid_pos (v * 2 ^ U)).
    replace U with ((U - grid (v * 2 ^ U)) + grid (v * 2 ^ U)) at 1 by lia.
    rewrite Z.pow_add_r by lia. rewrite Z.mul_assoc. apply Z.mod_mul. lia.
Qed.

Lemma pos_iter_xO p d : Zpos (Pos.iter xO p d) = Zpos p * 2 ^ Zpos d.
Proof.
  induction d as [|d IH] using Pos.peano_ind.
  - simpl. lia.
  - rewrite Pos.iter_succ, Pos2Z.inj_xO, IH, Pos2Z.inj_succ, Z.pow_succ_r by lia. ring.
Qed.

Lemma binary_round_finite sx p : Z.log2 (Zpos p) < 100 ->
  let r := binary_round F32.prec F32.emax sx p 0 in
  r = S754_zero sx \/ exists m e, r = S754_finite sx m e.
Proof.
  intros Hl r. subst r. unfold binary_round.
  pose proof (Z.log2_nonneg (Zpos p)) as Hl0.
  rewrite digits2_log2, fexp32. unfold shl_align.
  destruct (Z.max (Z.log2 (Z.pos p) + 1 + 0 - 24) (-149) - 0) as [|d|d] eqn:Hd.
  - apply bra_spec_lt; unfold U; lia.
  - apply bra_spec_lt; unfold U; lia.
  - assert (Hmz : Zpos (Pos.iter xO p d) = Zpos p * 2 ^ Zpos d) by apply pos_iter_xO.
    apply bra_spec_lt; [unfold U; lia|].
    rewrite Hmz, log2_val by lia. lia.
Qed.

Lemma of_int_finite v : - 2 ^ 31 <= v < 2 ^ 31 ->
  (exists s, F32.of_int v = S754_zero s) \/ (exists s m e, F32.of_int v = S754_finite s m e).
Proof.
  intros Hv. unfold F32.of_int, binary_normalize.
  destruct v as [|p|p].
  - left; eauto.
  - assert (Z.log2 (Zpos p) < 100).
    { apply Z.log2_lt_pow2; [lia|]. apply Z.lt_trans with (2 ^ 31); [lia|reflexivity]. }
    destruct (binary_round_finite false p H) as [H1|(m & e & H1)]; rewrite H1; eauto.
  - assert (Z.log2 (Zpos p) < 100).
    { apply Z.log2_lt_pow2; [lia|]. apply Z.le_lt_trans with (2 ^ 31); [lia|reflexivity]. }
    destruct (binary_round_finite true p H) as [H1|(m & e & H1)]; rewrite H1; eauto.
Qed.

Lemma of_int_small v : 0 < v <= 127 -> of_int_exact v = true.
Proof.
  intros Hv.
  assert (H : forallb of_int_exact (map Z.of_nat (seq 1 127)) = true) by (vm_compute; reflexivity).
  rewrite forallb_forall in H. apply H.
  apply in_map_iff. exists (Z.to_nat v). split; [lia|]. apply in_seq. lia.
Qed.

Lemma truncate_val m e : - U <= e ->
  (if 0 <=? e then Zpos m * 2 ^ e else Zpos m / 2 ^ (- e)) = (Zpos m * 2 ^ (e + U)) / 2 ^ U.
Proof.
  intros He. destruct (Z.leb_spec 0 e).
  - rewrite Z.pow_add_r by (unfold U; lia). rewrite Z.mul_assoc, Z.div_mul; [reflexivity|].
    apply Z.pow_nonzero; unfold U; lia.
  - assert (HU : 2 ^ U = 2 ^ (- e) * 2 ^ (e + U)).
    { rewrite <- Z.pow_add_r by lia. f_equal. lia. }
    rewrite HU. rewrite Z.div_mul_cancel_r; [reflexivity| |];
      apply Z.pow_nonzero; lia.
Qed.

Lemma in_unit_inv f : F32.in_unit f ->
  (exists s, f = S754_zero s) \/
  (exists m e, f = S754_finite false m e /\ -149 <= e <= -23 /\ 0 < val f <= 2 ^ U).
Proof.
  intros (Hv & H0 & H1). destruct f as [s|s| |s m e].
  - left; eauto.
  - destruct s; discriminate.
  - discriminate.
  - right. destruct s; [discriminate|]. exists m, e. split; [reflexivity|].
    unfold F32.valid, valid_binary, bounded, canonical_mantissa in Hv.
    apply andb_true_iff in Hv. destruct Hv as [Hc Hb].
    apply Z.eqb_eq in Hc. apply Z.leb_le in Hb. rewrite digits2_log2, fexp32 in Hc.
    pose proof (Z.log2_spec (Zpos m) ltac:(lia)) as Hlog. rewrite <- Z.add_1_r in Hlog.
    pose proof (Z.log2_nonneg (Zpos m)) as Hl0.
    unfold F32.leb, SFleb, F32.one, SFcompare in H1.
    assert (Hm : Zpos m < 2 ^ 24).
    { apply Z.lt_le_trans with (2 ^ (Z.log2 (Zpos m) + 1)); [lia|].
      apply Z.pow_le_mono_r; lia. }
    assert (He : -149 <= e <= -23).
    { split; [lia|]. destruct (e ?= -23) eqn:Hcmp; try discriminate.
      - apply Z.compare_eq in Hcmp. clear - Hcmp. lia.
      - change (e < -23) in Hcmp. clear - Hcmp. lia. }
    split; [exact He|]. unfold val. split.
    + assert (0 < 2 ^ (e + U)) by (apply Z.pow_pos_nonneg; unfold U; lia). nia.
    + destruct (e ?= -23) eqn:Hcmp; try discriminate.
      * apply Z.compare_eq in Hcmp. subst e.
        assert (Hm2 : Zpos m <= 2 ^ 23).
        { change (2 ^ 23) with (Zpos 8388608).
          rewrite Pos.compare_cont_spec in H1. cbn [Pos.switch_Eq] in H1.
          destruct (Pos.compare_spec m 8388608); try discriminate; lia. }
        replace U with (23 + (-23 + U)) at 2 by lia.
        rewrite (Z.pow_add_r 2 23) by (unfold U; lia).
        apply Z.mul_le_mono_nonneg_r; [apply Z.pow_nonneg; lia|lia].
      * change (e < -23) in Hcmp.
        apply Z.le_trans with (2 ^ 24 * 2 ^ (e + U)).
        -- apply Z.mul_le_mono_nonneg_r; [apply Z.pow_nonneg; lia|lia].
        -- rewrite <- Z.pow_add_r by (unfold U; lia). apply Z.pow_le_mono_r; lia.
Qed.

Lemma val_nonneg f : 0 <= val f.
Proof.
  destruct f as [| | |[|] m e]; unfold val; lia.
Qed.

Lemma val_unit f : F32.in_unit f -> 0 <= val f <= 2 ^ U.
Proof.
  intros H. destruct (in_unit_inv f H) as [[s ->]|(m & e & -> & _ & Hv)].
  - unfold val. split; [lia|]. apply Z.pow_nonneg; lia.
  - lia.
Qed.

Lemma index_of_bounds v f : F32.in_unit f -> 0 <= v < 2 ^ 24 -> 0 <= index_of v f <= v.
Proof.
  intros Hf Hv. pose proof (val_unit f Hf) as Hval. unfold index_of.
  assert (HU : 0 < 2 ^ U) by (apply Z.pow_pos_nonneg; unfold U; lia).
  split.
  - apply Z.div_pos; [|lia]. apply RND_nonneg. nia.
  - apply Z.div_le_upper_bound; [lia|].
    rewrite (Z.mul_comm (2 ^ U) v), <- (RND_exact v Hv). apply RND_mono. nia.
Qed.

Lemma index_of_mono v1 v2 f : 0 <= v1 <= v2 -> index_of v1 f <= index_of v2 f.
Proof.
  intros Hv. pose proof (val_nonneg f). unfold index_of.
  apply Z.div_le_mono; [apply Z.pow_pos_nonneg; unfold U; lia|].
  apply RND_mono. nia.
Qed.

Lemma volume_index_sem v f : F32.in_unit f -> 0 <= v <= 127 ->
  volume_index v f = Ok (index_of v f).
Proof.
  intros Hf Hv. unfold volume_index.
  pose proof (index_of_bounds v f Hf ltac:(lia)) as Hb.
  destruct (Z.eq_dec v 0) as [->|Hne].
  { change (F32.of_int 0) with (S754_zero false).
    replace (index_of 0 f) with 0 by (unfold index_of; rewrite Z.mul_0_l; reflexivity).
    destruct (in_unit_inv f Hf) as [[s ->]|(m & e & -> & _)]; reflexivity. }
  pose proof (of_int_small v ltac:(lia)) as Hoi. unfold of_int_exact in Hoi.
  destruct (F32.of_int v) as [| | |[|] mv ev]; try discriminate.
  apply andb_true_iff in Hoi. destruct Hoi as [Hoi Hev2].
  apply andb_true_iff in Hoi. destruct Hoi as [Hmv Hev1].
  apply Z.eqb_eq in Hmv. apply Z.leb_le in Hev1, Hev2.
  destruct (in_unit_inv f Hf) as [[s ->]|(mf & ef & -> & Hef & Hvf)].
  { replace (index_of v (S754_zero s)) with 0
      by (unfold index_of; simpl val; rewrite Z.mul_0_r; reflexivity).
    reflexivity. }
  unfold F32.mul, SFmul. cbn [xorb].
  set (N := Zpos (mv * mf) * 2 ^ (ev + ef + U)).
  assert (HU : 0 < 2 ^ U) by (apply Z.pow_pos_nonneg; unfold U; lia).
  assert (HN : N = v * val (S754_finite false mf ef)).
  { unfold N, val. apply Z.mul_reg_r with (2 ^ U); [lia|].
    rewrite Pos2Z.inj_mul.
    replace (Z.pos mv * Z.pos mf * 2 ^ (ev + ef + U) * 2 ^ U)
      with ((Zpos mv * 2 ^ (ev + U)) * (Zpos mf * 2 ^ (ef + U))).
    - rewrite Hmv. ring.
    - assert (2 ^ (ev + ef + U) * 2 ^ U = 2 ^ (ev + U) * 2 ^ (ef + U)).
      { rewrite <- !Z.pow_add_r by (unfold U; lia). f_equal. lia. }
      rewrite <- !Z.mul_assoc. rewrite H. ring. }
  assert (Hlog : Z.log2 (Zpos (mv * mf)) + 1 + (ev + ef) <= 127).
  { assert (HNlt : N < 2 ^ (7 + U)).
    { rewrite HN, Z.pow_add_r by (unfold U; lia). change (2 ^ 7) with 128. nia. }
    assert (Z.log2 N < 7 + U).
    { apply Z.log2_lt_pow2; [|exact HNlt]. rewrite HN. nia. }
    unfold N in H. rewrite log2_val in H by (unfold U; lia). lia. }
  destruct (bra_spec false (mv * mf) (ev + ef) ltac:(unfold U; lia) Hlog)
    as [[H0 Hr]|(m' & e' & Hr & He' & Hval)]; fold N in H0 || fold N in Hval.
  - rewrite Hr. cbn [F32.truncate]. unfold index_of. rewrite <- HN, H0. reflexivity.
  - rewrite Hr. cbn [F32.truncate]. cbv zeta.
    rewrite truncate_val by (unfold U; lia). rewrite Hval.
    fold N in Hval. rewrite HN. fold (index_of v (S754_finite false mf ef)).
    replace ((INT_MIN <=? _) && (_ <=? INT_MAX)) with true; [reflexivity|].
    symmetry. apply andb_true_iff. split; apply Z.leb_le; unfold INT_MIN, INT_MAX; lia.
Qed.

(* ================================================================== *)
(** * Arrays *)
(* ================================================================== *)

Lemma list_set_length {A} (a : list A) n x : length (list_set a n x) = length a.
Proof.
  revert n; induction a as [|h t IH]; intros [|n]; simpl; auto.
Qed.

Lemma list_set_app {A} (a b : list A) y x :
  list_set (a ++ y :: b) (length a) x = a ++ x :: b.
Proof. induction a as [|h t IH]; simpl; [reflexivity|]. now rewrite IH. Qed.

Lemma list_set_Forall {A} (P : A -> Prop) (a : list A) n x :
  Forall P a -> P x -> Forall P (list_set a n x).
Proof.
  intros Ha Hx. revert n; induction Ha as [|h t Hh Ht IH]; intros [|n]; simpl;
    constructor; auto.
Qed.

Lemma array_get_Ok {A} (a : list A) i x :
  array_get a i = Ok x <-> 0 <= i /\ nth_error a (Z.to_nat i) = Some x.
Proof.
  unfold array_get. destruct (Z.ltb_spec i 0).
  - split; [discriminate|lia].
  - destruct (nth_error a (Z.to_nat i)) as [y|]; split; try discriminate; intros H'.
    + injection H' as ->. auto.
    + destruct H' as [_ [= ->]]. reflexivity.
    + destruct H' as [_ H']. discriminate.
Qed.

Lemma array_get_nth {A} (a : list A) i d :
  0 <= i < Z.of_nat (length a) -> array_get a i = Ok (nth (Z.to_nat i) a d).
Proof.
  intros Hi. apply array_get_Ok. split; [lia|].
  apply nth_error_nth'. lia.
Qed.

Lemma array_set_Ok {A} (a : list A) i x :
  0 <= i < Z.of_nat (length a) -> array_set a i x = Ok (list_set a (Z.to_nat i) x).
Proof.
  intros Hi. unfold array_set.
  destruct (Z.leb_spec 0 i); [|lia]. destruct (Z.ltb_spec i (Z.of_nat (length a))); [|lia].
  reflexivity.
Qed.

Lemma array_set_inv {A} (a : list A) i x a' :
  array_set a i x = Ok a' ->
  0 <= i < Z.of_nat (length a) /\ a' = list_set a (Z.to_nat i) x.
Proof.
  unfold array_set.
  destruct (Z.leb_spec 0 i); [|discriminate].
  destruct (Z.ltb_spec i (Z.of_nat (length a))); [|discriminate].
  intros [= <-]. split; [lia|reflexivity].
Qed.

(* ================================================================== *)
(** * The volume curve *)
(* ================================================================== *)

Lemma MIDIEVENT_CHANNEL_range x : 0 <= MIDIEVENT_CHANNEL x < 16.
Proof.
  unfold MIDIEVENT_CHANNEL. change 0x0000000F with (Z.ones 4).
  rewrite Z.land_ones by lia. apply Z.mod_pos_bound. lia.
Qed.

Lemma MIDIEVENT_VOLUME_range x : 0 <= MIDIEVENT_VOLUME x <= 127.
Proof.
  unfold MIDIEVENT_VOLUME. rewrite Z.shiftr_land.
  change (Z.shiftr 0x007F0000 16) with (Z.ones 7).
  rewrite Z.land_ones by lia.
  pose proof (Z.mod_pos_bound (Z.shiftr x 16) (2 ^ 7) ltac:(lia)).
  change (2 ^ 7) with 128 in *. lia.
Qed.

Lemma table_entries i : 0 <= i <= 127 -> table_entry_ok i = true.
Proof.
  intros Hi.
  assert (H : forallb table_entry_ok (map Z.of_nat (seq 0 128)) = true)
    by (vm_compute; reflexivity).
  rewrite forallb_forall in H. apply H.
  apply in_map_iff. exists (Z.to_nat i). split; [lia|]. apply in_seq. lia.
Qed.

Lemma corrected_volume_ok v f : F32.in_unit f -> 0 <= v <= 127 ->
  exists c, corrected_volume v f = Ok c /\ 0 <= c <= 127 /\
            array_get volume_correction (index_of v f) = Ok c /\
            0 <= index_of v f <= v.
Proof.
  intros Hf Hv. unfold corrected_volume.
  rewrite (volume_index_sem v f Hf Hv). cbn [bind].
  pose proof (index_of_bounds v f Hf ltac:(lia)) as Hb.
  pose proof (table_entries (index_of v f) ltac:(lia)) as Ht.
  unfold table_entry_ok in Ht.
  destruct (array_get volume_correction (index_of v f)) as [c| |]; try discriminate.
  apply andb_true_iff in Ht. destruct Ht as [H1 H2].
  apply Z.leb_le in H1, H2. exists c. repeat split; lia.
Qed.

Lemma substituted_ok f ev : F32.in_unit f -> exists w, substituted f ev = Ok w.
Proof.
  intros Hf. unfold substituted. destruct (is_main_volume (dwEvent ev)); [|eauto].
  destruct (corrected_volume_ok _ f Hf (MIDIEVENT_VOLUME_range (dwEvent ev)))
    as (c & -> & _). cbn [bind]. eauto.
Qed.

Lemma substituted_other f ev :
  is_main_volume (dwEvent ev) = false -> substituted f ev = Ok ev.
Proof. intros H. unfold substituted. now rewrite H. Qed.

(* ================================================================== *)
(** * FillBuffer *)
(* ================================================================== *)

Lemma list_set_twice {A} (a : list A) n x y :
  list_set (list_set a n x) n y = list_set a n y.
Proof. revert n; induction a as [|h t IH]; intros [|n]; simpl; f_equal; auto. Qed.

Lemma list_set_splice {A} (a : list A) n x : (n < length a)%nat ->
  list_set a n x = firstn n a ++ x :: skipn (S n) a.
Proof.
  revert n; induction a as [|h t IH]; intros [|n] Hn; simpl in *; try lia; auto.
  rewrite IH by lia. reflexivity.
Qed.

Lemma FillBuffer_copy_spec i s ev :
  arrays_ok s -> F32.in_unit (volume_factor s) -> 0 <= i < STREAM_MAX_EVENTS ->
  array_get (native_events (song s)) (position (song s)) = Ok ev ->
  exists w, substituted (volume_factor s) ev = Ok w /\
            FillBuffer_copy i s = Ok (copied i ev w s).
Proof.
  intros [Hbuf Hcv] Hf Hi Hget. unfold FillBuffer_copy, substituted, copied, recorded.
  rewrite Hget. cbn [bind].
  rewrite array_set_Ok by lia. cbn [bind].
  destruct (is_main_volume (dwEvent ev)) eqn:Hmv.
  - cbn [channel_volume set_buffer].
    pose proof (MIDIEVENT_CHANNEL_range (dwEvent ev)) as Hch.
    rewrite array_set_Ok by (unfold MIDI_CHANNELS_PER_TRACK in Hcv; lia). cbn [bind].
    cbn [volume_factor set_channel_volume set_buffer].
    destruct (corrected_volume_ok _ _ Hf (MIDIEVENT_VOLUME_range (dwEvent ev)))
      as (c & -> & _). cbn [bind].
    cbn [buffer events set_channel_volume set_buffer].
    rewrite array_set_Ok by (rewrite list_set_length; lia). cbn [bind].
    rewrite list_set_twice. eexists. split; reflexivity.
  - cbn [bind]. eexists. split; reflexivity.
Qed.

Lemma cyclic_length evs p n : length (cyclic evs p n) = n.
Proof. revert p; induction n; intros p; simpl; auto. Qed.

Lemma cyclic_congr evs p q n :
  (p mod length evs = q mod length evs)%nat -> cyclic evs p n = cyclic evs q n.
Proof.
  revert p q; induction n as [|n IH]; intros p q H; simpl; [reflexivity|].
  rewrite H. f_equal. apply IH.
  destruct (Nat.eq_dec (length evs) 0) as [E|E]; [rewrite E in *; simpl in *; congruence|].
  change (S p) with (1 + p)%nat. change (S q) with (1 + q)%nat.
  rewrite (Nat.Div0.add_mod 1 p), (Nat.Div0.add_mod 1 q), H. reflexivity.
Qed.

Lemma cyclic_app evs p n m :
  cyclic evs p (n + m) = cyclic evs p n ++ cyclic evs (p + n) m.
Proof.
  revert p; induction n as [|n IH]; intros p; simpl.
  - now rewrite Nat.add_0_r.
  - rewrite IH. do 3 f_equal. lia.
Qed.

Lemma song_events_length g : song_ok g ->
  length (song_events g) = Z.to_nat (num_events g).
Proof.
  intros [Hp Hn]. unfold song_events. rewrite length_firstn. lia.
Qed.

Lemma song_events_get g p : song_ok g -> 0 <= p < num_events g ->
  array_get (native_events g) p = Ok (nth (Z.to_nat p) (song_events g) zero_event).
Proof.
  intros [Hp Hn] Hlt. rewrite (array_get_nth _ _ zero_event) by lia.
  f_equal. unfold song_events.
  rewrite <- (firstn_skipn (Z.to_nat (num_events g)) (native_events g)) at 1.
  rewrite app_nth1; [reflexivity|]. rewrite length_firstn. lia.
Qed.

Lemma recorded_length cv ev : length (recorded cv ev) = length cv.
Proof. unfold recorded. destruct (is_main_volume _); [apply list_set_length|reflexivity]. Qed.

Lemma recorded_range cv ev :
  Forall (fun v => 0 <= v <= 127) cv -> Forall (fun v => 0 <= v <= 127) (recorded cv ev).
Proof.
  intros H. unfold recorded. destruct (is_main_volume _); [|assumption].
  apply list_set_Forall; [assumption|apply MIDIEVENT_VOLUME_range].
Qed.

Lemma FillBuffer_loop_looping n : forall i s,
  looping (song s) = true -> 1 <= num_events (song s) -> song_ok (song s) ->
  arrays_ok s -> F32.in_unit (volume_factor s) ->
  0 <= i -> i + Z.of_nat n = STREAM_MAX_EVENTS ->
  exists s' ws,
    FillBuffer_loop n i s = Ok s' /\
    buf_num_events (buffer s') = STREAM_MAX_EVENTS /\
    events (buffer s') = firstn (Z.to_nat i) (events (buffer s)) ++ ws /\
    Forall2 (fun src w => substituted (volume_factor s) src = Ok w)
            (cyclic (song_events (song s)) (Z.to_nat (position (song s))) n) ws /\
    song_ok (song s') /\
    (Z.to_nat (position (song s')) mod Z.to_nat (num_events (song s)) =
     (Z.to_nat (position (song s)) + n) mod Z.to_nat (num_events (song s)))%nat /\
    fill_frame s s'.
Proof.
  induction n as [|n IH]; intros i s Hloop HK Hok Harr Hf Hi Hin.
  - exists (set_buf_num_events s i), []. cbn [FillBuffer_loop].
    destruct Harr as [Hb Hc].
    repeat split; cbn; auto; try lia; try apply Hok.
    rewrite app_nil_r, firstn_all2; [reflexivity|].
    unfold STREAM_MAX_EVENTS in *. lia.
  - cbn [FillBuffer_loop].
    set (K := num_events (song s)) in *.
    set (s0 := if K <=? position (song s)
               then set_song s (set_position (song s) 0) else s).
    assert (Hs0 : (if K <=? position (song s)
                   then if looping (song s)
                     then s1 <- FillBuffer_copy i (set_song s (set_position (song s) 0)) ;;
                          FillBuffer_loop n (i + 1) s1
                     else Ok (set_buf_num_events s i)
                   else s1 <- FillBuffer_copy i s ;; FillBuffer_loop n (i + 1) s1) =
                  (s1 <- FillBuffer_copy i s0 ;; FillBuffer_loop n (i + 1) s1)).
    { unfold s0. rewrite Hloop. destruct (K <=? position (song s)); reflexivity. }
    rewrite Hs0. clear Hs0.
    set (p0 := position (song s0)).
    assert (Hp0 : 0 <= p0 < K /\
                  Z.to_nat p0 = (Z.to_nat (position (song s)) mod Z.to_nat K)%nat).
    { unfold p0, s0. destruct Hok as [Hp Hn]. fold K in Hp.
      destruct (Z.leb_spec K (position (song s))).
      - cbn. assert (position (song s) = K) by lia.
        rewrite H0. rewrite Nat.Div0.mod_same. split; [lia|reflexivity].
      - split; [lia|]. rewrite Nat.mod_small by lia. reflexivity. }
    assert (Hs0song : native_events (song s0) = native_events (song s) /\
                      num_events (song s0) = K /\ looping (song s0) = true /\
                      volume_factor s0 = volume_factor s /\
                      channel_volume s0 = channel_volume s /\
                      buffer s0 = buffer s /\ device s0 = device s /\
                      hBufferReturnEvent s0 = hBufferReturnEvent s /\
                      hExitEvent s0 = hExitEvent s /\
                      hPlayerThread s0 = hPlayerThread s).
    { unfold s0. destruct (K <=? position (song s)); cbn; repeat split; auto. }
    destruct Hs0song as (Hne & Hnum & Hl0 & Hvf & Hcv & Hbuf & Hdev & Hr & He & Ht).
    assert (Hok0 : song_ok (song s0)).
    { destruct Hok as [Hp Hn]. split; [fold p0; rewrite Hnum; lia|].
      rewrite Hnum, Hne. exact Hn. }
    assert (Harr0 : arrays_ok s0).
    { unfold arrays_ok. rewrite Hbuf, Hcv. exact Harr. }
    assert (Hevs : song_events (song s0) = song_events (song s)).
    { unfold song_events. rewrite Hne, Hnum. reflexivity. }
    pose proof (song_events_get (song s0) p0 Hok0 ltac:(rewrite Hnum; lia)) as Hget.
    fold p0 in Hget.
    destruct (FillBuffer_copy_spec i s0 _ Harr0 ltac:(rewrite Hvf; exact Hf)
                ltac:(unfold STREAM_MAX_EVENTS in *; lia) Hget) as (w & Hw & Hcopy).
    rewrite Hcopy. cbn [bind].
    set (s1 := copied i _ w s0) in *.
    destruct (IH (i + 1) s1) as (s' & ws & Hrun & Hcnt & Hevents & Hws & Hok' & Hpos & Hfr).
    + cbn. exact Hl0.
    + cbn. rewrite Hnum. exact HK.
    + destruct Hok0 as [Hp Hn]. split; cbn; [fold p0; rewrite Hnum; lia|exact Hn].
    + destruct Harr0 as [Hb Hc]. split; cbn; [rewrite list_set_length; exact Hb|].
      rewrite recorded_length. exact Hc.
    + cbn. rewrite Hvf. exact Hf.
    + lia.
    + lia.
    + exists s', (w :: ws). split; [exact Hrun|]. split; [exact Hcnt|].
      destruct Hfr as (F1 & F2 & F3 & F4 & F5 & F6 & F7 & F8 & F9 & F10).
      assert (Hevs1 : song_events (song s1) = song_events (song s))
        by (rewrite <- Hevs; reflexivity).
      assert (Hvf1 : volume_factor s1 = volume_factor s) by exact Hvf.
      assert (Hpos1 : position (song s1) = p0 + 1) by reflexivity.
      assert (Hnum1 : num_events (song s1) = K) by exact Hnum.
      rewrite Hevs1, Hvf1, Hpos1 in Hws. rewrite Hpos1, Hnum1 in Hpos.
      cbn in F1, F2, F3, F4, F5, F6, F7, F8, Hevents.
      split; [|split; [|split; [exact Hok'|split]]].
      * rewrite Hevents. destruct Harr0 as [Hb _].
        rewrite list_set_splice by (unfold STREAM_MAX_EVENTS in *; lia).
        replace (Z.to_nat (i + 1)) with (Z.to_nat i + 1)%nat by lia.
        rewrite firstn_app, length_firstn.
        replace (Z.to_nat i + 1 - Nat.min (Z.to_nat i) (length (events (buffer s0))))%nat
          with 1%nat by (unfold STREAM_MAX_EVENTS in *; lia).
        rewrite firstn_firstn. replace (Nat.min (Z.to_nat i + 1) (Z.to_nat i)) with (Z.to_nat i) by lia.
        cbn [firstn]. rewrite Hbuf, <- app_assoc. reflexivity.
      * cbn [cyclic]. constructor.
        -- rewrite <- Hvf, <- Hevs.
           destruct Hp0 as [_ Hp0]. rewrite (song_events_length _ Hok0), Hnum, <- Hp0.
           exact Hw.
        -- erewrite cyclic_congr; [exact Hws|].
           rewrite (song_events_length _ Hok). fold K. fold p0.
           destruct Hp0 as [Hp0a Hp0]. 
           replace (Z.to_nat (p0 + 1)) with (1 + Z.to_nat p0)%nat by lia.
           rewrite Hp0, Nat.Div0.add_mod_idemp_r. reflexivity.
      * rewrite Hpos.
        destruct Hp0 as [Hp0a Hp0].
        replace (Z.to_nat (p0 + 1) + n)%nat with (Z.to_nat p0 + S n)%nat by lia.
        rewrite Hp0. rewrite Nat.Div0.add_mod_idemp_l. reflexivity.
      * unfold fill_frame. rewrite F1, F2, F3, F4, F5, F6, F7, F8.
        rewrite Hne, Hnum, Hl0, Hvf, Hr, He, Ht, Hdev. 
        repeat split; auto; try apply F9.
        intros Hrange. apply F10. cbn. apply recorded_range. rewrite Hcv. exact Hrange.
Qed.

Lemma FillBuffer_looping s :
  looping (song s) = true -> 1 <= num_events (song s) -> song_ok (song s) ->
  arrays_ok s -> F32.in_unit (volume_factor s) ->
  exists s',
    FillBuffer s = Ok s' /\
    buf_num_events (buffer s') = STREAM_MAX_EVENTS /\
    Forall2 (fun src w => substituted (volume_factor s) src = Ok w)
            (cyclic (song_events (song s)) (Z.to_nat (position (song s))) 4)
            (window s') /\
    song_ok (song s') /\
    (Z.to_nat (position (song s')) mod Z.to_nat (num_events (song s)) =
     (Z.to_nat (position (song s)) + 4) mod Z.to_nat (num_events (song s)))%nat /\
    fill_frame s s'.
Proof.
  intros Hloop HK Hok Harr Hf.
  destruct (FillBuffer_loop_looping 4 0 s Hloop HK Hok Harr Hf ltac:(lia) eq_refl)
    as (s' & ws & Hrun & Hcnt & Hev & Hws & Hok' & Hpos & Hfr).
  exists s'. split; [exact Hrun|]. split; [exact Hcnt|].
  split; [|split; [exact Hok'|split; [exact Hpos|exact Hfr]]].
  cbn [Z.to_nat firstn app] in Hev.
  unfold window. rewrite Hcnt, Hev.
  pose proof (Forall2_length Hws) as Hlen. rewrite cyclic_length in Hlen.
  rewrite firstn_all2 by (unfold STREAM_MAX_EVENTS; lia). exact Hws.
Qed.

Lemma fills_looping n : forall s,
  looping (song s) = true -> 1 <= num_events (song s) -> song_ok (song s) ->
  arrays_ok s -> F32.in_unit (volume_factor s) ->
  exists ws s',
    fills n s = Ok (ws, s') /\
    Forall2 (fun src w => substituted (volume_factor s) src = Ok w)
            (cyclic (song_events (song s)) (Z.to_nat (position (song s))) (4 * n))
            ws /\
    (n <> O -> buf_num_events (buffer s') = STREAM_MAX_EVENTS).
Proof.
  induction n as [|n IH]; intros s Hloop HK Hok Harr Hf.
  - exists [], s. repeat split; [constructor|congruence].
  - destruct (FillBuffer_looping s Hloop HK Hok Harr Hf)
      as (s1 & Hrun & Hcnt & Hws & Hok1 & Hpos & Hfr).
    destruct Hfr as (F1 & F2 & F3 & F4 & _ & _ & _ & _ & F9 & _).
    destruct (IH s1) as (ws & s' & Hfills & Hws' & Hcnt').
    + congruence.
    + rewrite F2. exact HK.
    + exact Hok1.
    + exact F9.
    + rewrite F4. exact Hf.
    + exists (window s1 ++ ws), s'. cbn [fills]. rewrite Hrun. cbn [bind].
      rewrite Hfills. cbn [bind fst snd]. split; [reflexivity|]. split.
      * replace (4 * S n)%nat with (4 + 4 * n)%nat by lia.
        rewrite cyclic_app. apply Forall2_app; [exact Hws|].
        rewrite F4 in Hws'.
        assert (Hevs : song_events (song s1) = song_events (song s))
          by (unfold song_events; rewrite F1, F2; reflexivity).
        rewrite Hevs in Hws'.
        erewrite cyclic_congr; [exact Hws'|].
        rewrite (song_events_length _ Hok). symmetry. exact Hpos.
      * intros _. destruct n as [|n]; [|apply Hcnt'; discriminate].
        cbn [fills] in Hfills. injection Hfills as _ <-. exact Hcnt.
Qed.

Lemma Forall2_substituted_id f evs ws :
  Forall (fun ev => is_main_volume (dwEvent ev) = false) evs ->
  Forall2 (fun src w => substituted f src = Ok w) evs ws -> ws = evs.
Proof.
  intros Hall H. induction H as [|src w evs ws Hsw H IH]; [reflexivity|].
  inversion Hall as [|? ? Hsrc Hrest]; subst.
  rewrite (substituted_other f src Hsrc) in Hsw. injection Hsw as <-.
  f_equal. apply IH. exact Hrest.
Qed.

Lemma cyclic_In evs p n ev : evs <> [] -> In ev (cyclic evs p n) -> In ev evs.
Proof.
  intros Hne. revert p; induction n as [|n IH]; intros p; simpl; [tauto|].
  intros [<-|H]; [|eauto].
  apply nth_In. apply Nat.mod_upper_bound. destruct evs; [congruence|discriminate].
Qed.

Lemma FillBuffer_ended s :
  looping (song s) = false -> num_events (song s) <= position (song s) ->
  FillBuffer s = Ok (set_buf_num_events s 0).
Proof.
  intros Hloop Hpos. unfold FillBuffer.
  change (Z.to_nat STREAM_MAX_EVENTS) with 4%nat. cbn [FillBuffer_loop].
  destruct (Z.leb_spec (num_events (song s)) (position (song s))); [|lia].
  now rewrite Hloop.
Qed.

Lemma StreamOut_empty mmr s : buf_num_events (buffer s) = 0 -> StreamOut mmr s = s.
Proof. intros H. unfold StreamOut. now rewrite H. Qed.

Lemma cycles_ended n mmr s :
  looping (song s) = false -> num_events (song s) <= position (song s) ->
  cycles (S n) mmr s = Ok (set_buf_num_events s 0).
Proof.
  revert s; induction n as [|n IH]; intros s Hloop Hpos.
  - cbn [cycles]. rewrite (FillBuffer_ended s Hloop Hpos). cbn [bind].
    now rewrite StreamOut_empty.
  - change (cycles (S (S n)) mmr s) with
      (s1 <- FillBuffer s ;; cycles (S n) mmr (StreamOut mmr s1)).
    rewrite (FillBuffer_ended s Hloop Hpos). cbn [bind].
    rewrite StreamOut_empty by reflexivity.
    rewrite IH by assumption. reflexivity.
Qed.

(* ================================================================== *)
(** * The scan for the minimal candidate time *)
(* ================================================================== *)

Lemma find_min_spec tracks : forall i m0 idx0 m idx,
  find_min tracks i m0 idx0 = (m, idx) ->
  (m = m0 /\ idx = idx0 /\
   forall k trk t, nth_error tracks k = Some trk -> candidate trk = Some t -> m0 <= t) \/
  (exists k trk,
     idx = i + Z.of_nat k /\ nth_error tracks k = Some trk /\
     candidate trk = Some m /\ m < m0 /\
     forall k' trk' t, nth_error tracks k' = Some trk' -> candidate trk' = Some t ->
                       m <= t /\ ((k' < k)%nat -> m < t)).
Proof.
  induction tracks as [|trk rest IH]; intros i m0 idx0 m idx H; cbn [find_min] in H.
  - injection H as <- <-. left. repeat split. intros [|k]; discriminate.
  - destruct (iter trk) as [it|] eqn:Hit.
    + set (time := to_int (absolute_time trk + MIDI_GetDeltaTime it)) in *.
      assert (Hc : candidate trk = Some time) by (unfold candidate; now rewrite Hit).
      destruct (Z.ltb_spec time m0) as [Hlt|Hge].
      * destruct (IH _ _ _ _ _ H) as [(-> & -> & Hall)|(k & trk' & -> & Hk & Hck & Hm & Hall)].
        -- right. exists O, trk. split; [lia|]. split; [reflexivity|].
           split; [exact Hc|]. split; [exact Hlt|].
           intros [|k'] trk' t H0 H1; cbn in H0.
           ++ injection H0 as <-. rewrite Hc in H1. injection H1 as <-. lia.
           ++ split; [eapply Hall; eauto|lia].
        -- right. exists (S k), trk'. split; [lia|]. split; [exact Hk|].
           split; [exact Hck|]. split; [lia|].
           intros [|k'] trk'' t H0 H1; cbn in H0.
           ++ injection H0 as <-. rewrite Hc in H1. injection H1 as <-. lia.
           ++ destruct (Hall _ _ _ H0 H1) as [Ha Hb]. split; [exact Ha|]. intros; apply Hb; lia.
      * destruct (IH _ _ _ _ _ H) as [(-> & -> & Hall)|(k & trk' & -> & Hk & Hck & Hm & Hall)].
        -- left. repeat split. intros [|k'] trk' t H0 H1; cbn in H0.
           ++ injection H0 as <-. rewrite Hc in H1. injection H1 as <-. lia.
           ++ eapply Hall; eauto.
        -- right. exists (S k), trk'. split; [lia|]. split; [exact Hk|].
           split; [exact Hck|]. split; [lia|].
           intros [|k'] trk'' t H0 H1; cbn in H0.
           ++ injection H0 as <-. rewrite Hc in H1. injection H1 as <-. lia.
           ++ destruct (Hall _ _ _ H0 H1) as [Ha Hb]. split; [exact Ha|]. intros; apply Hb; lia.
    + assert (Hc : candidate trk = None) by (unfold candidate; now rewrite Hit).
      destruct (IH _ _ _ _ _ H) as [(-> & -> & Hall)|(k & trk' & -> & Hk & Hck & Hm & Hall)].
      * left. repeat split. intros [|k'] trk' t H0 H1; cbn in H0.
        -- injection H0 as <-. congruence.
        -- eapply Hall; eauto.
      * right. exists (S k), trk'. split; [lia|]. split; [exact Hk|].
        split; [exact Hck|]. split; [lia|].
        intros [|k'] trk'' t H0 H1; cbn in H0.
        -- injection H0 as <-. congruence.
        -- destruct (Hall _ _ _ H0 H1) as [Ha Hb]. split; [exact Ha|]. intros; apply Hb; lia.
Qed.

(* ================================================================== *)
(** * The merge loop *)
(* ================================================================== *)

Lemma nth_error_list_set_eq {A} (a : list A) n x :
  (n < length a)%nat -> nth_error (list_set a n x) n = Some x.
Proof.
  revert n; induction a as [|h t IH]; intros [|n] Hn; simpl in *; try lia; auto.
  apply IH. lia.
Qed.

Lemma nth_error_list_set_neq {A} (a : list A) n k x :
  n <> k -> nth_error (list_set a n x) k = nth_error a k.
Proof.
  revert n k; induction a as [|h t IH]; intros [|n] [|k] Hn; simpl; auto; try congruence.
Qed.

Lemma list_sum_list_set {A} (f : A -> nat) (a : list A) n x y :
  nth_error a n = Some y ->
  (list_sum (map f (list_set a n x)) + f y = list_sum (map f a) + f x)%nat.
Proof.
  revert n; induction a as [|h t IH]; intros [|n] H; simpl in *; try discriminate.
  - injection H as ->. lia.
  - specialize (IH n H). lia.
Qed.

Lemma firstn_list_set_snoc {A} (a : list A) n x : (n < length a)%nat ->
  firstn (S n) (list_set a n x) = firstn n a ++ [x].
Proof.
  revert n; induction a as [|h t IH]; intros [|n] Hn; simpl in *; try lia; auto.
  rewrite IH by lia. reflexivity.
Qed.

Lemma MIDItoStream_loop_step fuel tracks ct g g' tr :
  MIDItoStream_loop (S fuel) tracks ct g = Ok (g', tr) ->
  forall m idx, find_min tracks 0 INT_MAX (-1) = (m, idx) ->
  (idx = -1 /\ g' = g /\ tr = []) \/
  (idx <> -1 /\ 0 <= idx /\ exists trk it,
     nth_error tracks (Z.to_nat idx) = Some trk /\ iter trk = Some it /\
     (Z.to_nat idx < length tracks)%nat /\
     match it with
     | [] =>
         MIDItoStream_loop fuel
           (list_set tracks (Z.to_nat idx) {| iter := None; absolute_time := m |})
           ct g = Ok (g', tr)
     | e :: it' =>
         exists tr',
           tr = {| c_track := idx; c_time := m; c_event := e;
                   c_data := event_dword e |} :: tr' /\
           let tracks' := list_set tracks (Z.to_nat idx)
                            {| iter := @Some midi_track_iter_t it';
                               absolute_time := m |} in
           if event_dword e =? 0
           then MIDItoStream_loop fuel tracks' ct g = Ok (g', tr')
           else exists evs,
               array_set (native_events g) (num_events g)
                 {| dwDeltaTime := to_dword (m - ct); dwStreamID := 0;
                    dwEvent := event_dword e |} = Ok evs /\
               MIDItoStream_loop fuel tracks' m
                 (set_events g evs (num_events g + 1)) = Ok (g', tr')
     end).
Proof.
  intros H m idx Hfm. cbn [MIDItoStream_loop] in H. rewrite Hfm in H.
  destruct (Z.eqb_spec idx (-1)) as [Heq|Hne].
  - injection H as <- <-. left. auto.
  - right. split; [exact Hne|].
    destruct (array_get tracks idx) as [trk| |] eqn:Hget; try discriminate.
    apply array_get_Ok in Hget. destruct Hget as [Hidx Hnth].
    split; [exact Hidx|]. cbn [bind] in H.
    destruct (iter trk) as [it|] eqn:Hit; try discriminate.
    exists trk, it. split; [exact Hnth|]. split; [exact Hit|].
    assert (Hlen : (Z.to_nat idx < length tracks)%nat).
    { apply nth_error_Some. congruence. }
    split; [exact Hlen|].
    destruct it as [|e it']; cbn [MIDI_GetNextEvent] in H.
    + rewrite array_set_Ok in H by lia. exact H.
    + rewrite array_set_Ok in H by lia. cbn [bind] in H.
      destruct (event_dword e =? 0) eqn:Hd.
      * destruct (MIDItoStream_loop fuel _ ct g) as [[g1 tr1]| |] eqn:Hrec; try discriminate.
        cbn [bind fst snd] in H. injection H as <- <-.
        exists tr1. split; [reflexivity|]. exact Hrec.
      * destruct (array_set (native_events g) (num_events g) _) as [evs| |] eqn:Hset;
          try discriminate.
        cbn [bind] in H.
        destruct (MIDItoStream_loop fuel _ m _) as [[g1 tr1]| |] eqn:Hrec; try discriminate.
        cbn [bind fst snd] in H. injection H as <- <-.
        exists tr1. split; [reflexivity|].
        exists evs. split; [reflexivity|exact Hrec].
Qed.

Lemma emitted_cons c tr :
  emitted (c :: tr) = if c_data c =? 0 then emitted tr else c :: emitted tr.
Proof. unfold emitted. cbn [filter]. destruct (c_data c =? 0); reflexivity. Qed.

Lemma candidate_open trk t : candidate trk = Some t -> exists it, iter trk = Some it.
Proof. unfold candidate. destruct (iter trk); [eauto|discriminate]. Qed.

Lemma song_events_set g evs x :
  0 <= num_events g < Z.of_nat (length (native_events g)) ->
  evs = list_set (native_events g) (Z.to_nat (num_events g)) x ->
  song_events (set_events g evs (num_events g + 1)) = song_events g ++ [x].
Proof.
  intros Hn ->. unfold song_events. cbn [native_events num_events set_events].
  replace (Z.to_nat (num_events g + 1)) with (S (Z.to_nat (num_events g))) by lia.
  apply firstn_list_set_snoc. lia.
Qed.

(** The loop completes within its fuel and writes inside the array when
    the array has room for the events the tracks still hold. *)
Lemma MIDItoStream_loop_total fuel : forall tracks ct g,
  (remaining tracks + open_tracks tracks < fuel)%nat ->
  0 <= num_events g ->
  num_events g + Z.of_nat (remaining tracks) <= Z.of_nat (length (native_events g)) ->
  exists g' tr,
    MIDItoStream_loop fuel tracks ct g = Ok (g', tr) /\
    (length tr <= remaining tracks)%nat /\
    song_events g' = song_events g ++ encode ct (emitted tr) /\
    num_events g' = num_events g + Z.of_nat (length (emitted tr)) /\
    length (native_events g') = length (native_events g) /\
    position g' = position g /\ looping g' = looping g.
Proof.
  induction fuel as [|fuel IH]; intros tracks ct g Hfuel Hn Hroom; [lia|].
  cbn [MIDItoStream_loop].
  destruct (find_min tracks 0 INT_MAX (-1)) as [m idx] eqn:Hfm.
  destruct (find_min_spec _ _ _ _ _ _ Hfm)
    as [(-> & -> & _)|(k & trk & -> & Hk & Hc & _ & _)].
  - cbn. exists g, []. cbn. rewrite app_nil_r. repeat split; lia.
  - replace (0 + Z.of_nat k =? -1) with false by (symmetry; apply Z.eqb_neq; lia).
    assert (Hlen : (k < length tracks)%nat) by (apply nth_error_Some; congruence).
    assert (Hget : array_get tracks (0 + Z.of_nat k) = Ok trk).
    { apply array_get_Ok. split; [lia|]. now replace (Z.to_nat (0 + Z.of_nat k)) with k by lia. }
    rewrite Hget. cbn [bind].
    destruct (candidate_open _ _ Hc) as [it Hit]. rewrite Hit.
    set (f1 := fun trk : win_midi_track_t =>
                 match iter trk with Some it => length it | None => O end).
    set (f2 := fun trk : win_midi_track_t =>
                 match iter trk with Some _ => 1%nat | None => O end).
    destruct it as [|e it']; cbn [MIDI_GetNextEvent].
    + rewrite array_set_Ok by lia. cbn [bind].
      replace (Z.to_nat (0 + Z.of_nat k)) with k by lia.
      set (trk' := {| iter := None; absolute_time := m |}).
      pose proof (list_sum_list_set f1 tracks k trk' trk Hk) as H1.
      pose proof (list_sum_list_set f2 tracks k trk' trk Hk) as H2.
      unfold f1, f2 in H1, H2. rewrite Hit in H1, H2. cbn in H1, H2.
      fold (remaining (list_set tracks k trk')) in H1.
      fold (open_tracks (list_set tracks k trk')) in H2.
      fold (remaining tracks) in H1. fold (open_tracks tracks) in H2.
      destruct (IH (list_set tracks k trk') ct g) as (g' & tr & Hrun & Hlen' & Hrest);
        try lia.
      exists g', tr. split; [exact Hrun|]. split; [lia|exact Hrest].
    + rewrite array_set_Ok by lia. cbn [bind]. cbv zeta.
      replace (Z.to_nat (0 + Z.of_nat k)) with k by lia.
      set (trk' := {| iter := @Some midi_track_iter_t it'; absolute_time := m |}).
      pose proof (list_sum_list_set f1 tracks k trk' trk Hk) as H1.
      pose proof (list_sum_list_set f2 tracks k trk' trk Hk) as H2.
      unfold f1, f2 in H1, H2. rewrite Hit in H1, H2. cbn in H1, H2.
      fold (remaining (list_set tracks k trk')) in H1.
      fold (open_tracks (list_set tracks k trk')) in H2.
      fold (remaining tracks) in H1. fold (open_tracks tracks) in H2.
      set (c := {| c_track := 0 + Z.of_nat k; c_time := m; c_event := e;
                   c_data := event_dword e |}).
      destruct (event_dword e =? 0) eqn:Hd.
      * destruct (IH (list_set tracks k trk') ct g) as (g' & tr & Hrun & Hlen' & Hrest);
          try lia.
        rewrite Hrun. cbn [bind fst snd]. exists g', (c :: tr).
        split; [reflexivity|]. split; [cbn [length]; lia|].
        rewrite emitted_cons. cbn [c_data c]. rewrite Hd. exact Hrest.
      * rewrite array_set_Ok by lia. cbn [bind].
        set (x := {| dwDeltaTime := to_dword (m - ct); dwStreamID := 0;
                     dwEvent := event_dword e |}).
        set (g1 := set_events g (list_set (native_events g) (Z.to_nat (num_events g)) x)
                     (num_events g + 1)).
        destruct (IH (list_set tracks k trk') m g1)
          as (g' & tr & Hrun & Hlen' & Hev & Hnum & Hlen'' & Hpos & Hloop).
        -- lia.
        -- cbn. lia.
        -- cbn. rewrite list_set_length. lia.
        -- rewrite Hrun. cbn [bind fst snd]. exists g', (c :: tr).
           split; [reflexivity|]. split; [cbn [length]; lia|].
           rewrite emitted_cons. cbn [c_data c]. rewrite Hd.
           cbn [encode length c_time c_data c]. fold x.
           rewrite Hev, Hnum, Hlen'', Hpos, Hloop.
           unfold g1. rewrite (song_events_set g _ x) by (try reflexivity; lia).
           cbn [num_events native_events position looping set_events].
           rewrite list_set_length, <- app_assoc. cbn [app].
           repeat split; lia.
Qed.

(* ================================================================== *)
(** * The order of the merge *)
(* ================================================================== *)

Lemma to_int_id z : INT_MIN <= z <= INT_MAX -> to_int z = z.
Proof.
  unfold to_int, INT_MIN, INT_MAX. intros Hz.
  rewrite Z.mod_small; lia.
Qed.

Lemma to_dword_id z : 0 <= z < 2 ^ 32 -> to_dword z = z.
Proof. intros Hz. unfold to_dword. apply Z.mod_small. exact Hz. Qed.

Lemma track_length_nonneg it :
  Forall (fun e => 0 <= delta_time e) it -> 0 <= track_length it.
Proof.
  induction 1 as [|e it He _ IH]; cbn; [lia|]. unfold track_length in IH. lia.
Qed.

Lemma candidate_fits trk it :
  iter trk = Some it -> track_fits trk ->
  candidate trk = Some (absolute_time trk + MIDI_GetDeltaTime it) /\
  absolute_time trk <= absolute_time trk + MIDI_GetDeltaTime it < INT_MAX /\
  0 <= absolute_time trk.
Proof.
  intros Hit Hfit. unfold track_fits in Hfit. rewrite Hit in Hfit.
  destruct Hfit as (Habs & Hd & Hlen).
  assert (Hb : absolute_time trk <= absolute_time trk + MIDI_GetDeltaTime it < INT_MAX).
  { destruct it as [|e it']; cbn in *; [lia|].
    inversion Hd as [|? ? He Hd']; subst.
    pose proof (track_length_nonneg it' Hd'). unfold track_length in H. lia. }
  split; [|split; [exact Hb|exact Habs]].
  unfold candidate. rewrite Hit. f_equal. apply to_int_id.
  unfold INT_MIN, INT_MAX in *. lia.
Qed.

Lemma lex_le_trans t1 j1 t2 j2 t3 j3 :
  lex_le t1 j1 t2 j2 -> lex_le t2 j2 t3 j3 -> lex_le t1 j1 t3 j3.
Proof. unfold lex_le. lia. Qed.

Lemma of_track_cons k c tr :
  of_track k (c :: tr) =
  if c_track c =? Z.of_nat k then c :: of_track k tr else of_track k tr.
Proof. reflexivity. Qed.

Lemma MIDItoStream_loop_ordered fuel : forall tracks ct g g' tr,
  MIDItoStream_loop fuel tracks ct g = Ok (g', tr) ->
  Forall track_fits tracks ->
  (forall k trk, nth_error tracks k = Some trk ->
     map c_event (of_track k tr) =
     match iter trk with Some it => it | None => [] end) /\
  (forall pending,
     (forall k trk it, nth_error tracks k = Some trk -> iter trk = Some it ->
        nth_error pending k = Some (absolute_times (absolute_time trk) it)) ->
     source_times pending tr = map c_time tr) /\
  (forall bt bj,
     (forall k trk t, nth_error tracks k = Some trk -> candidate trk = Some t ->
        lex_le bt bj t (Z.of_nat k)) ->
     Forall (fun c => lex_le bt bj (c_time c) (c_track c)) tr) /\
  StronglySorted merge_le tr /\
  Forall (fun c => 0 <= c_time c < INT_MAX) tr.
Proof.
  induction fuel as [|fuel IH]; intros tracks ct g g' tr Hrun Hfit; [discriminate|].
  destruct (find_min tracks 0 INT_MAX (-1)) as [m idx] eqn:Hfm.
  pose proof (MIDItoStream_loop_step _ _ _ _ _ _ Hrun m idx Hfm) as Hstep.
  destruct (find_min_spec _ _ _ _ _ _ Hfm)
    as [(-> & -> & Hall)|(k & trk & -> & Hk & Hc & Hm & Hmin)].
  - (* no track is open *)
    destruct Hstep as [(_ & -> & ->)|(Hne & _)]; [|congruence].
    assert (Hclosed : forall k trk, nth_error tracks k = Some trk -> iter trk = None).
    { intros k trk Hk. destruct (iter trk) as [it|] eqn:Hit; [|reflexivity].
      rewrite Forall_forall in Hfit.
      destruct (candidate_fits trk it Hit (Hfit _ (nth_error_In _ _ Hk))) as (Hc & Hb & _).
      specialize (Hall _ _ _ Hk Hc). lia. }
    repeat split; try constructor.
    + intros k trk Hk. rewrite (Hclosed _ _ Hk). reflexivity.
  - destruct Hstep as [(Hneg & _)|(_ & _ & trk0 & it & Hk0 & Hit & Hlen & Hstep)]; [lia|].
    replace (Z.to_nat (0 + Z.of_nat k)) with k in * by lia.
    rewrite Hk in Hk0. injection Hk0 as <-.
    rewrite Forall_forall in Hfit.
    pose proof (Hfit _ (nth_error_In _ _ Hk)) as Hfitk.
    destruct (candidate_fits trk it Hit Hfitk) as (Hc' & Hb & Habs).
    rewrite Hc in Hc'. injection Hc' as Hm_eq.
    destruct it as [|e it'].
    + (* the track is exhausted: it is closed *)
      set (trk' := {| iter := None; absolute_time := m |}) in *.
      assert (Hfit' : Forall track_fits (list_set tracks k trk')).
      { apply list_set_Forall; [apply Forall_forall; exact Hfit|exact I]. }
      destruct (IH _ _ _ _ _ Hstep Hfit') as (Ha & Hb' & Hc' & Hd & He).
      assert (Hsub : forall k' trk'' , nth_error (list_set tracks k trk') k' = Some trk'' ->
                 iter trk'' <> None -> k' <> k /\ nth_error tracks k' = Some trk'').
      { intros k' trk'' Hk' Hopen. destruct (Nat.eq_dec k k') as [<-|Hneq].
        - rewrite nth_error_list_set_eq in Hk' by exact Hlen.
          injection Hk' as <-. cbn in Hopen. congruence.
        - rewrite nth_error_list_set_neq in Hk' by exact Hneq. auto. }
      split; [|split; [|split; [|split; [exact Hd|exact He]]]].
      * intros k' trk'' Hk'. destruct (Nat.eq_dec k k') as [<-|Hneq].
        -- rewrite Hk in Hk'. injection Hk' as <-. rewrite Hit.
           rewrite (Ha k trk') by (apply nth_error_list_set_eq; exact Hlen). reflexivity.
        -- apply Ha. rewrite nth_error_list_set_neq by exact Hneq. exact Hk'.
      * intros pending Hp. apply Hb'. intros k' trk'' it'' Hk' Hit''.
        destruct (Hsub _ _ Hk' ltac:(congruence)) as [_ Hk''].
        eapply Hp; eauto.
      * intros bt bj Hbound. apply Hc'. intros k' trk'' t Hk' Hct.
        destruct (candidate_open _ _ Hct) as [it'' Hit''].
        destruct (Hsub _ _ Hk' ltac:(congruence)) as [_ Hk''].
        eapply Hbound; eauto.
    + (* an event is taken from track k *)
      destruct Hstep as (tr' & -> & Hstep). cbv zeta in Hstep.
      set (trk' := {| iter := @Some midi_track_iter_t it'; absolute_time := m |}) in *.
      cbn [MIDI_GetDeltaTime] in Hm_eq, Hb.
      assert (Hfitk' : track_fits trk').
      { unfold track_fits in Hfitk |- *. rewrite Hit in Hfitk. cbn [iter absolute_time trk'].
        destruct Hfitk as (H1 & H2 & H3). inversion H2 as [|? ? He Hd']; subst.
        cbn in H3. unfold track_length. repeat split; try assumption; lia. }
      assert (Hfit' : Forall track_fits (list_set tracks k trk')).
      { apply list_set_Forall; [apply Forall_forall; exact Hfit|exact Hfitk']. }
      assert (Hrec : exists ct1 g1, MIDItoStream_loop fuel (list_set tracks k trk') ct1 g1
                                    = Ok (g', tr')).
      { destruct (event_dword e =? 0); [eauto|].
        destruct Hstep as (evs & _ & Hstep). eauto. }
      destruct Hrec as (ct1 & g1 & Hrec).
      destruct (IH _ _ _ _ _ Hrec Hfit') as (Ha & Hb' & Hc' & Hd & He).
      destruct (candidate_fits trk' it' eq_refl Hfitk') as (Hck' & Hbk' & _).
      cbn [absolute_time trk'] in Hck', Hbk'.
      assert (Hnew : forall k' trk'' t,
                 nth_error (list_set tracks k trk') k' = Some trk'' ->
                 candidate trk'' = Some t -> lex_le m (Z.of_nat k) t (Z.of_nat k')).
      { intros k' trk'' t Hk' Hct. destruct (Nat.eq_dec k k') as [<-|Hneq].
        - rewrite nth_error_list_set_eq in Hk' by exact Hlen. injection Hk' as <-.
          rewrite Hck' in Hct. injection Hct as <-. unfold lex_le. lia.
        - rewrite nth_error_list_set_neq in Hk' by exact Hneq.
          destruct (Hmin _ _ _ Hk' Hct) as [H1 H2]. unfold lex_le.
          destruct (Nat.lt_ge_cases k' k) as [Hlt|Hge]; [specialize (H2 Hlt); lia|lia]. }
      set (c := {| c_track := 0 + Z.of_nat k; c_time := m; c_event := e;
                   c_data := event_dword e |}).
      split; [|split; [|split; [|split]]].
      * intros k' trk'' Hk'. rewrite of_track_cons. cbn [c_track c].
        destruct (Nat.eq_dec k k') as [<-|Hneq].
        -- replace (0 + Z.of_nat k =? Z.of_nat k) with true by (symmetry; apply Z.eqb_eq; lia).
           rewrite Hk in Hk'. injection Hk' as <-. rewrite Hit. cbn [map c_event c].
           f_equal. rewrite (Ha k trk') by (apply nth_error_list_set_eq; exact Hlen).
           reflexivity.
        -- replace (0 + Z.of_nat k =? Z.of_nat k') with false
             by (symmetry; apply Z.eqb_neq; lia).
           apply Ha. rewrite nth_error_list_set_neq by exact Hneq. exact Hk'.
      * intros pending Hp. cbn [source_times map c_track c_time c].
        replace (Z.to_nat (0 + Z.of_nat k)) with k by lia.
        rewrite (Hp _ _ _ Hk Hit). cbn [absolute_times]. rewrite <- Hm_eq. f_equal.
        apply Hb'. intros k' trk'' it'' Hk' Hit''.
        destruct (Nat.eq_dec k k') as [<-|Hneq].
        -- rewrite nth_error_list_set_eq in Hk' by exact Hlen. injection Hk' as <-.
           cbn in Hit''. injection Hit'' as <-.
           rewrite nth_error_list_set_eq; [reflexivity|].
           apply nth_error_Some. rewrite (Hp _ _ _ Hk Hit). discriminate.
        -- rewrite nth_error_list_set_neq in Hk' by exact Hneq.
           rewrite nth_error_list_set_neq by exact Hneq. eapply Hp; eauto.
      * intros bt bj Hbound. constructor.
        -- cbn [c_time c_track c]. replace (0 + Z.of_nat k) with (Z.of_nat k) by lia.
           eapply Hbound; eauto.
        -- apply Hc'. intros k' trk'' t Hk' Hct.
           eapply lex_le_trans; [|eapply Hnew; eauto].
           eapply Hbound; eauto.
      * constructor; [exact Hd|].
        specialize (Hc' m (Z.of_nat k) Hnew).
        eapply Forall_impl; [|exact Hc']. intros c' Hc''. unfold merge_le.
        cbn [c_time c_track c]. replace (0 + Z.of_nat k) with (Z.of_nat k) by lia.
        exact Hc''.
      * constructor; [|exact He]. cbn [c_time c]. lia.
Qed.

(* ================================================================== *)
(** * MIDItoStream on a file *)
(* ================================================================== *)

Lemma remaining_IterateTrack file :
  remaining (MIDI_IterateTrack file) = MIDI_NumEvents file.
Proof.
  unfold remaining, MIDI_IterateTrack, MIDI_NumEvents. rewrite map_map. reflexivity.
Qed.

Lemma open_tracks_IterateTrack file :
  open_tracks (MIDI_IterateTrack file) = length (file_tracks file).
Proof.
  unfold open_tracks, MIDI_IterateTrack. rewrite map_map.
  induction (file_tracks file) as [|t l IH]; [reflexivity|].
  cbn [length]. rewrite <- IH. reflexivity.
Qed.

Lemma nth_error_IterateTrack file k trk :
  nth_error (MIDI_IterateTrack file) k = Some trk ->
  exists evs, nth_error (file_tracks file) k = Some evs /\
              trk = {| iter := Some evs; absolute_time := 0 |}.
Proof.
  unfold MIDI_IterateTrack. rewrite nth_error_map. unfold option_map.
  destruct (nth_error (file_tracks file) k) as [evs|]; intros H; [|discriminate H].
  exists evs. split; [reflexivity|]. injection H as <-. reflexivity.
Qed.

Lemma times_fit_IterateTrack file :
  times_fit file -> Forall track_fits (MIDI_IterateTrack file).
Proof.
  unfold times_fit, MIDI_IterateTrack. intros H. apply Forall_map.
  eapply Forall_impl; [|exact H]. intros trk [H1 H2]. unfold track_fits. cbn.
  repeat split; [lia|exact H1|lia].
Qed.

Lemma song_events_fresh g n :
  num_events g = 0 -> song_events (set_events g (repeat zero_event n) (num_events g)) = [].
Proof. intros H. unfold song_events. cbn. rewrite H. reflexivity. Qed.

Lemma filter_length_bound {A} (f : A -> bool) l : (length (filter f l) <= length l)%nat.
Proof. induction l as [|a l IH]; cbn; [lia|]. destruct (f a); cbn; lia. Qed.

(** The merge into a song with no events completes, writes inside the
    allocated array and leaves the emitted events in the first slots. *)
Lemma MIDItoStream_traced_total file g :
  num_events g = 0 ->
  exists g' tr,
    MIDItoStream_traced file g = Ok (g', tr) /\
    (length (emitted tr) <= length tr <= MIDI_NumEvents file)%nat /\
    song_events g' = encode 0 (emitted tr) /\
    num_events g' = Z.of_nat (length (emitted tr)) /\
    length (native_events g') = MIDI_NumEvents file /\
    position g' = position g /\ looping g' = looping g.
Proof.
  intros Hn. unfold MIDItoStream_traced.
  set (g0 := set_events g (repeat zero_event (MIDI_NumEvents file)) (num_events g)).
  destruct (MIDItoStream_loop_total (MIDItoStream_fuel file) (MIDI_IterateTrack file) 0 g0)
    as (g' & tr & Hrun & Hlen & Hev & Hnum & Hlen' & Hpos & Hloop).
  - rewrite remaining_IterateTrack, open_tracks_IterateTrack. unfold MIDItoStream_fuel. lia.
  - cbn. lia.
  - cbn. rewrite repeat_length, remaining_IterateTrack. lia.
  - exists g', tr. split; [exact Hrun|].
    rewrite remaining_IterateTrack in Hlen.
    unfold g0 in Hev. rewrite (song_events_fresh g _ Hn) in Hev.
    cbn in Hnum, Hlen', Hpos, Hloop. rewrite repeat_length in Hlen'.
    pose proof (filter_length_bound (fun c => negb (c_data c =? 0)) tr).
    fold (emitted tr) in H.
    repeat split; try assumption; try lia.
Qed.

Lemma StronglySorted_filter {A} (R : A -> A -> Prop) (f : A -> bool) l :
  StronglySorted R l -> StronglySorted R (filter f l).
Proof.
  induction 1 as [|a l Hs IH Hall]; cbn; [constructor|].
  destruct (f a); [|exact IH]. constructor; [exact IH|].
  rewrite Forall_forall in *. intros x Hx. apply filter_In in Hx. apply Hall, Hx.
Qed.

Lemma StronglySorted_map {A B} (R : A -> A -> Prop) (S' : B -> B -> Prop) (h : A -> B) l :
  (forall a b, R a b -> S' (h a) (h b)) ->
  StronglySorted R l -> StronglySorted S' (map h l).
Proof.
  intros Hh. induction 1 as [|a l Hs IH Hall]; cbn; constructor; [exact IH|].
  apply Forall_map. eapply Forall_impl; [|exact Hall]. intros b. apply Hh.
Qed.

Lemma filter_combine_map {A B} (h : A -> B) (f : A -> bool) (l : list A) :
  filter (fun p => f (snd p)) (combine (map h l) l) =
  map (fun a => (h a, a)) (filter f l).
Proof.
  induction l as [|a l IH]; cbn; [reflexivity|].
  destruct (f a); cbn; now rewrite IH.
Qed.

Lemma encode_sums em : forall t0,
  0 <= t0 -> StronglySorted merge_le em ->
  Forall (fun c => t0 <= c_time c < INT_MAX) em ->
  forall k c, nth_error em k = Some c ->
              t0 + delta_sum (S k) (encode t0 em) = c_time c.
Proof.
  induction em as [|c0 em IH]; intros t0 Ht0 Hs Hall k c Hk; [destruct k; discriminate|].
  inversion Hs as [|? ? Hs' Hle]; subst. inversion Hall as [|? ? Hc0 Hall']; subst.
  assert (Hd : to_dword (c_time c0 - t0) = c_time c0 - t0).
  { apply to_dword_id. unfold INT_MAX in *. lia. }
  cbn [encode]. unfold delta_sum. cbn [firstn map fold_right dwDeltaTime]. rewrite Hd.
  destruct k as [|k]; cbn in Hk.
  - injection Hk as <-. cbn. lia.
  - assert (Hall2 : Forall (fun c => c_time c0 <= c_time c < INT_MAX) em).
    { rewrite Forall_forall in *. intros x Hx. specialize (Hle x Hx). specialize (Hall' x Hx).
      unfold merge_le in Hle. lia. }
    specialize (IH (c_time c0) ltac:(lia) Hs' Hall2 k c Hk).
    unfold delta_sum in IH. lia.
Qed.

Lemma encode_dwEvent t0 em : map dwEvent (encode t0 em) = map c_data em.
Proof. revert t0; induction em as [|c em IH]; intros t0; cbn; [reflexivity|]. now rewrite IH. Qed.

(** On a file whose times fit, the merge completes and consumes the
    events of every track in order, each at its absolute time, in
    non-decreasing order of time and, at equal times, of track. *)
Lemma MIDItoStream_traced_ordered file g :
  times_fit file -> num_events g = 0 ->
  exists g' tr,
    MIDItoStream_traced file g = Ok (g', tr) /\
    song_events g' = encode 0 (emitted tr) /\
    (forall k trk, nth_error (file_tracks file) k = Some trk ->
                   map c_event (of_track k tr) = trk) /\
    source_times (map (absolute_times 0) (file_tracks file)) tr = map c_time tr /\
    StronglySorted merge_le tr /\
    Forall (fun c => 0 <= c_time c < INT_MAX) tr.
Proof.
  intros Hfit Hn.
  destruct (MIDItoStream_traced_total file g Hn) as (g' & tr & Hrun & _ & Hev & _).
  exists g', tr. split; [exact Hrun|]. split; [exact Hev|].
  unfold MIDItoStream_traced in Hrun.
  destruct (MIDItoStream_loop_ordered _ _ _ _ _ _ Hrun (times_fit_IterateTrack _ Hfit))
    as (Ha & Hb & _ & Hd & He).
  split; [|split; [|split; [exact Hd|exact He]]].
  - intros k trk Hk. rewrite (Ha k {| iter := Some trk; absolute_time := 0 |}); [reflexivity|].
    unfold MIDI_IterateTrack. rewrite nth_error_map, Hk. reflexivity.
  - apply Hb. intros k trk it Hk Hit.
    destruct (nth_error_IterateTrack _ _ _ Hk) as (evs & Hevs & ->).
    cbn in Hit. injection Hit as <-. cbn [absolute_time].
    rewrite nth_error_map, Hevs. reflexivity.
Qed.

(* ================================================================== *)
(** * What FillBuffer keeps *)
(* ================================================================== *)

Lemma bind_Ok {A B} (r : result A) (k : A -> result B) b :
  bind r k = Ok b -> exists a, r = Ok a /\ k a = Ok b.
Proof. destruct r; cbn; try discriminate. eauto. Qed.

Lemma FillBuffer_copy_inv i s s' :
  FillBuffer_copy i s = Ok s' -> exists ev w, s' = copied i ev w s.
Proof.
  unfold FillBuffer_copy. intros H.
  apply bind_Ok in H. destruct H as (ev & Hget & H).
  apply bind_Ok in H. destruct H as (evs & Hset & H).
  apply array_set_inv in Hset. destruct Hset as [Hi ->].
  apply bind_Ok in H. destruct H as (s1 & H1 & H).
  injection H as <-.
  exists ev. destruct (is_main_volume (dwEvent ev)) eqn:Hmv.
  - apply bind_Ok in H1. destruct H1 as (cv & Hcv & H1).
    apply array_set_inv in Hcv. destruct Hcv as [Hch ->].
    apply bind_Ok in H1. destruct H1 as (c & Hc & H1).
    apply bind_Ok in H1. destruct H1 as (evs2 & Hset2 & H1).
    apply array_set_inv in Hset2. destruct Hset2 as [_ ->].
    injection H1 as <-.
    exists (with_dwEvent ev (Z.lor (Z.land (dwEvent ev) 0xFF00FFFF)
                                   (Z.shiftl (Z.land c 0x7F) 16))).
    unfold copied, recorded. rewrite Hmv.
    cbn [set_song set_buffer set_channel_volume song volume_factor channel_volume buffer
         events buf_num_events hBufferReturnEvent hExitEvent hPlayerThread device].
    rewrite list_set_twice. reflexivity.
  - injection H1 as <-. exists ev. unfold copied, recorded. rewrite Hmv. reflexivity.
Qed.

Lemma copied_keeps i ev w s : fill_keeps s (copied i ev w s).
Proof.
  unfold fill_keeps, copied. cbn. rewrite list_set_length, recorded_length.
  repeat split; auto. apply recorded_range.
Qed.

Lemma fill_keeps_trans s1 s2 s3 : fill_keeps s1 s2 -> fill_keeps s2 s3 -> fill_keeps s1 s3.
Proof.
  unfold fill_keeps. intros (A1 & A2 & A3 & A4 & A5 & A6 & A7 & A8)
                            (B1 & B2 & B3 & B4 & B5 & B6 & B7 & B8).
  repeat split; try congruence. auto.
Qed.

Lemma FillBuffer_loop_keeps n : forall i s s',
  FillBuffer_loop n i s = Ok s' -> fill_keeps s s'.
Proof.
  induction n as [|n IH]; intros i s s' H; cbn [FillBuffer_loop] in H.
  - injection H as <-. unfold fill_keeps. cbn. repeat split; auto.
  - destruct (num_events (song s) <=? position (song s)).
    + destruct (looping (song s)).
      * apply bind_Ok in H. destruct H as (s1 & Hcopy & H).
        apply FillBuffer_copy_inv in Hcopy. destruct Hcopy as (ev & w & ->).
        eapply fill_keeps_trans; [|eapply IH; exact H].
        pose proof (copied_keeps i ev w (set_song s (set_position (song s) 0))) as Hk.
        exact Hk.
      * injection H as <-. unfold fill_keeps. cbn. repeat split; auto.
    + apply bind_Ok in H. destruct H as (s1 & Hcopy & H).
      apply FillBuffer_copy_inv in Hcopy. destruct Hcopy as (ev & w & ->).
      eapply fill_keeps_trans; [apply copied_keeps|eapply IH; exact H].
Qed.

Lemma FillBuffer_keeps s s' : FillBuffer s = Ok s' -> fill_keeps s s'.
Proof. apply FillBuffer_loop_keeps. Qed.

Lemma StreamOut_keeps mmr s :
  song (StreamOut mmr s) = song s /\
  volume_factor (StreamOut mmr s) = volume_factor s /\
  channel_volume (StreamOut mmr s) = channel_volume s /\
  buffer (StreamOut mmr s) = buffer s /\
  hBufferReturnEvent (StreamOut mmr s) = hBufferReturnEvent s /\
  hExitEvent (StreamOut mmr s) = hExitEvent s /\
  hPlayerThread (StreamOut mmr s) = hPlayerThread s.
Proof.
  unfold StreamOut. destruct (buf_num_events (buffer s) =? 0); [repeat split; reflexivity|].
  destruct (mmr =? MMSYSERR_NOERROR); cbn; repeat split; reflexivity.
Qed.

(* ================================================================== *)
(** * The volume *)
(* ================================================================== *)

Lemma volume_index_mute v : INT_MIN <= v <= INT_MAX -> volume_index v F32.zero = Ok 0.
Proof.
  intros Hv. unfold volume_index.
  destruct (of_int_finite v ltac:(unfold INT_MIN, INT_MAX in Hv; lia))
    as [[s ->]|(s & m & e & ->)]; reflexivity.
Qed.

Lemma corrected_volume_mute v : INT_MIN <= v <= INT_MAX -> corrected_volume v F32.zero = Ok 0.
Proof. intros Hv. unfold corrected_volume. rewrite volume_index_mute by exact Hv. reflexivity. Qed.

Lemma volume_messages_mute n : forall i cv,
  0 <= i -> i + Z.of_nat n <= Z.of_nat (length cv) ->
  Forall (fun v => INT_MIN <= v <= INT_MAX) cv ->
  volume_messages n i cv F32.zero = Ok (map (fun k => mute_message (Z.of_nat k))
                                            (seq (Z.to_nat i) n)).
Proof.
  induction n as [|n IH]; intros i cv Hi Hlen Hall; cbn [volume_messages seq map];
    [reflexivity|].
  rewrite (array_get_nth cv i 0) by lia. cbn [bind].
  rewrite corrected_volume_mute.
  - cbn [bind]. rewrite IH by (try assumption; lia). cbn [bind].
    replace (Z.to_nat (i + 1)) with (S (Z.to_nat i)) by lia.
    unfold mute_message. rewrite Z2Nat.id by lia. reflexivity.
  - rewrite Forall_forall in Hall. apply Hall. apply nth_In. lia.
Qed.

Lemma volume_messages_ok n f : forall i cv,
  F32.in_unit f -> 0 <= i -> i + Z.of_nat n <= Z.of_nat (length cv) ->
  Forall (fun v => 0 <= v <= 127) cv ->
  exists msgs, volume_messages n i cv f = Ok msgs.
Proof.
  induction n as [|n IH]; intros i cv Hf Hi Hlen Hall; cbn [volume_messages]; [eauto|].
  rewrite (array_get_nth cv i 0) by lia. cbn [bind].
  assert (Hv : 0 <= nth (Z.to_nat i) cv 0 <= 127).
  { rewrite Forall_forall in Hall. apply Hall. apply nth_In. lia. }
  destruct (corrected_volume_ok _ f Hf Hv) as (c & -> & _). cbn [bind].
  destruct (IH (i + 1) cv Hf ltac:(lia) ltac:(lia) Hall) as (msgs & ->). cbn [bind]. eauto.
Qed.

Lemma fold_call_device msgs : forall s,
  let s' := fold_left (fun s msg => call_device s (midiOutShortMsg msg)) msgs s in
  song s' = song s /\ volume_factor s' = volume_factor s /\
  channel_volume s' = channel_volume s /\ buffer s' = buffer s /\
  hBufferReturnEvent s' = hBufferReturnEvent s /\ hExitEvent s' = hExitEvent s /\
  hPlayerThread s' = hPlayerThread s /\
  device s' = device s ++ map midiOutShortMsg msgs.
Proof.
  induction msgs as [|msg msgs IH]; intros s; cbn [fold_left map].
  - rewrite app_nil_r. repeat split; reflexivity.
  - destruct (IH (call_device s (midiOutShortMsg msg))) as (A1 & A2 & A3 & A4 & A5 & A6 & A7 & A8).
    cbv zeta. rewrite A1, A2, A3, A4, A5, A6, A7, A8. cbn. rewrite <- app_assoc.
    repeat split; reflexivity.
Qed.

Lemma table_monotone i j : (i <= j < 128)%nat ->
  nth i volume_correction 0 <= nth j volume_correction 0.
Proof.
  intros Hij.
  assert (H : table_sorted = true) by (vm_compute; reflexivity).
  unfold table_sorted in H. rewrite forallb_forall in H.
  specialize (H i ltac:(apply in_seq; lia)). rewrite forallb_forall in H.
  specialize (H (j - i)%nat ltac:(apply in_seq; lia)).
  unfold table_pair_ok in H. replace (i + (j - i))%nat with j in H by lia.
  apply Z.leb_le. exact H.
Qed.

Lemma factors_ok_all M : 2 <= M <= 255 -> factors_ok M = true.
Proof.
  intros HM.
  assert (H : forallb (fun n => factors_ok (Z.of_nat n)) (seq 2 254) = true)
    by (vm_compute; reflexivity).
  rewrite forallb_forall in H. specialize (H (Z.to_nat M) ltac:(apply in_seq; lia)).
  rewrite Z2Nat.id in H by lia. exact H.
Qed.

Lemma volume_factor_of_range M volume : 2 <= M <= 255 -> 0 <= volume <= M ->
  F32.in_unit (volume_factor_of M volume) /\ factor_in_range (volume_factor_of M volume).
Proof.
  intros HM Hv. destruct (Z.eq_dec volume 0) as [->|Hne].
  { split; [repeat split|right; left]; reflexivity. }
  pose proof (factors_ok_all M HM) as H. unfold factors_ok in H.
  rewrite forallb_forall in H. specialize (H (Z.to_nat volume) ltac:(apply in_seq; lia)).
  rewrite Z2Nat.id in H by lia. unfold factor_ok in H. cbv zeta in H.
  repeat (apply andb_true_iff in H; destruct H as [H ?]).
  split; [repeat split; assumption|right; right; split; assumption].
Qed.

(* ================================================================== *)
(** * Registration and the player thread *)
(* ================================================================== *)

Lemma I_WIN_RegisterSong_cases load bytes m1 m2 m3 s b s' :
  I_WIN_RegisterSong load bytes m1 m2 m3 s = Ok (b, s') ->
  (load bytes = None /\ b = false /\ s' = s) \/
  (exists file, load bytes = Some file /\
     let s1 := call_device
                 (set_channel_volume s (repeat 100 (Z.to_nat MIDI_CHANNELS_PER_TRACK)))
                 (midiStreamProperty_TIMEDIV (MIDI_GetFileTimeDivision file)) in
     let s2 := call_device s1 (midiStreamProperty_TEMPO 500000) in
     (m1 <> MMSYSERR_NOERROR /\ b = false /\
      s' = call_device s1 (MidiErrorMessageBox m1)) \/
     (m1 = MMSYSERR_NOERROR /\ m2 <> MMSYSERR_NOERROR /\ b = false /\
      s' = call_device s2 (MidiErrorMessageBox m2)) \/
     (m1 = MMSYSERR_NOERROR /\ m2 = MMSYSERR_NOERROR /\ b = true /\
      exists s4 s6, MIDItoStream file s2 = Ok s4 /\
                    FillBuffer (set_signals s4 false false) = Ok s6 /\
                    s' = StreamOut m3 s6)).
Proof.
  unfold I_WIN_RegisterSong. intros H.
  destruct (load bytes) as [file|]; [right|left].
  - exists file. split; [reflexivity|]. cbv zeta.
    destruct (Z.eqb_spec m1 MMSYSERR_NOERROR) as [E1|E1]; cbn [negb] in H.
    + destruct (Z.eqb_spec m2 MMSYSERR_NOERROR) as [E2|E2]; cbn [negb] in H.
      * right. right. apply bind_Ok in H. destruct H as (s4 & H4 & H).
        apply bind_Ok in H. destruct H as (s6 & H6 & H). injection H as <- <-.
        repeat split; auto. eauto.
      * right. left. injection H as <- <-. auto.
    + left. injection H as <- <-. auto.
  - injection H as <- <-. auto.
Qed.

Lemma MIDItoStream_keeps file s s' :
  MIDItoStream file s = Ok s' ->
  volume_factor s' = volume_factor s /\ channel_volume s' = channel_volume s /\
  buffer s' = buffer s /\ device s' = device s /\
  hBufferReturnEvent s' = hBufferReturnEvent s /\ hExitEvent s' = hExitEvent s /\
  hPlayerThread s' = hPlayerThread s.
Proof.
  unfold MIDItoStream. intros H. apply bind_Ok in H. destruct H as (r & _ & H).
  injection H as <-. cbn. repeat split; reflexivity.
Qed.

Lemma PlayerProc_turn_cases mmr s st :
  PlayerProc_turn mmr s = Ok st ->
  (hBufferReturnEvent s = false /\ hExitEvent s = false /\ st = Blocked) \/
  (hBufferReturnEvent s = true /\
   exists s1, FillBuffer (set_signals s false (hExitEvent s)) = Ok s1 /\
              st = Continues (StreamOut mmr s1)) \/
  (hBufferReturnEvent s = false /\ hExitEvent s = true /\
   st = Returns (set_signals s false false)).
Proof.
  unfold PlayerProc_turn, WaitForMultipleObjects. intros H.
  destruct (hBufferReturnEvent s) eqn:Hr.
  - right. left. split; [reflexivity|]. cbn in H. apply bind_Ok in H.
    destruct H as (s1 & H1 & H). injection H as <-. eauto.
  - destruct (hExitEvent s) eqn:He.
    + right. right. cbn in H. injection H as <-. auto.
    + left. injection H as <-. auto.
Qed.

(* ================================================================== *)
(** * The volume state of the reachable states *)
(* ================================================================== *)

Lemma volume_ok_same s s' :
  volume_factor s' = volume_factor s -> channel_volume s' = channel_volume s ->
  length (events (buffer s')) = length (events (buffer s)) ->
  volume_ok s /\ factor_in_range (volume_factor s) ->
  volume_ok s' /\ factor_in_range (volume_factor s').
Proof.
  unfold volume_ok, arrays_ok. intros -> -> ->. auto.
Qed.

Lemma volume_ok_fill s s' :
  fill_keeps s s' ->
  volume_ok s /\ factor_in_range (volume_factor s) ->
  volume_ok s' /\ factor_in_range (volume_factor s').
Proof.
  unfold volume_ok, arrays_ok, fill_keeps.
  intros (-> & _ & _ & _ & _ & -> & -> & Hr) (((H1 & H2) & H3 & H4) & H5). auto.
Qed.

Lemma reachable_volume_ok M load s :
  2 <= M <= 255 -> reachable M load s ->
  volume_ok s /\ factor_in_range (volume_factor s).
Proof.
  intros HM Hreach. induction Hreach as
    [ | s volume s' Hs IH Hv Hset | s bytes m1 m2 m3 b s' Hs IH Hreg | s Hs IH
    | s l mmr Hs IH | s uMsg Hs IH | s Hs IH | s mmr s' Hs IH Hturn | s mmr s' Hs IH Hturn ].
  - split; [split; [split; reflexivity|split]|left; reflexivity].
    + repeat split; reflexivity.
    + apply Forall_forall. intros x Hx. apply repeat_spec in Hx. subst x. lia.
  - unfold I_WIN_SetMusicVolume in Hset. apply bind_Ok in Hset.
    destruct Hset as (msgs & _ & Hset). injection Hset as <-.
    destruct (fold_call_device msgs (set_volume_factor s (volume_factor_of M volume)))
      as (_ & A2 & A3 & A4 & _).
    cbv zeta in A2, A3, A4. destruct IH as ((Harr & _ & Hcv) & _).
    destruct (volume_factor_of_range M volume HM Hv) as [Hu Hr].
    unfold volume_ok, arrays_ok. rewrite A2, A3, A4. cbn. auto.
  - apply I_WIN_RegisterSong_cases in Hreg.
    destruct Hreg as [(_ & _ & ->)|(file & _ & Hreg)]; [exact IH|]. cbv zeta in Hreg.
    assert (Hreset : volume_ok (set_channel_volume s (repeat 100 (Z.to_nat MIDI_CHANNELS_PER_TRACK)))
                     /\ factor_in_range (volume_factor s)).
    { destruct IH as (((Hb & _) & Hu & _) & Hr).
      split; [split; [split; [exact Hb|reflexivity]|split; [exact Hu|]]|exact Hr].
      apply Forall_forall. intros x Hx. apply repeat_spec in Hx. subst x. lia. }
    destruct Hreg as [(_ & _ & ->)|[(_ & _ & _ & ->)|(_ & _ & _ & s4 & s6 & H4 & H6 & ->)]].
    + eapply volume_ok_same; [| | |exact Hreset]; reflexivity.
    + eapply volume_ok_same; [| | |exact Hreset]; reflexivity.
    + destruct (MIDItoStream_keeps _ _ _ H4) as (B1 & B2 & B3 & _).
      destruct (StreamOut_keeps m3 s6) as (_ & C2 & C3 & C4 & _).
      eapply volume_ok_same; [exact C2|exact C3|now rewrite C4|].
      eapply volume_ok_fill; [apply FillBuffer_keeps; exact H6|].
      eapply volume_ok_same; [| | |exact Hreset]; cbn; try assumption.
      now rewrite B3.
  - eapply volume_ok_same; [| | |exact IH]; reflexivity.
  - unfold I_WIN_PlaySong. destruct (mmr =? MMSYSERR_NOERROR);
      (eapply volume_ok_same; [| | |exact IH]; reflexivity).
  - unfold MidiStreamProc. destruct (uMsg =? MOM_DONE); [|exact IH].
    eapply volume_ok_same; [| | |exact IH]; reflexivity.
  - eapply volume_ok_same; [| | |exact IH]; reflexivity.
  - apply PlayerProc_turn_cases in Hturn.
    destruct Hturn as [(_ & _ & [=])|[(_ & s1 & H1 & [= ->])|(_ & _ & [=])]].
    destruct (StreamOut_keeps mmr s1) as (_ & C2 & C3 & C4 & _).
    eapply volume_ok_same; [exact C2|exact C3|now rewrite C4|].
    eapply volume_ok_fill; [apply FillBuffer_keeps; exact H1|].
    eapply volume_ok_same; [| | |exact IH]; reflexivity.
  - apply PlayerProc_turn_cases in Hturn.
    destruct Hturn as [(_ & _ & [=])|[(_ & s1 & _ & [=])|(_ & _ & [= ->])]].
    eapply volume_ok_same; [| | |exact IH]; reflexivity.
Qed.
(* ================================================================== *)
(** * FillBuffer on any song *)
(* ================================================================== *)

Lemma fill_safe_done s i : fill_safe s -> fill_safe (set_buf_num_events s i).
Proof. intros H. exact H. Qed.

Lemma fill_frame_done s i : arrays_ok s -> fill_frame s (set_buf_num_events s i).
Proof.
  intros H. unfold fill_frame. cbn.
  split; [reflexivity|]. split; [reflexivity|]. split; [reflexivity|].
  split; [reflexivity|]. split; [reflexivity|]. split; [reflexivity|].
  split; [reflexivity|]. split; [reflexivity|]. split; [exact H|auto].
Qed.

Lemma fill_safe_copied i ev w s p :
  fill_safe s -> 0 <= p ->
  fill_safe (copied i ev w (set_song s (set_position (song s) p))).
Proof.
  intros ([Hb Hc] & Hf & Hp & HK & Hl) Hp0.
  split; [split; cbn; [rewrite list_set_length; exact Hb|rewrite recorded_length; exact Hc]|].
  split; [exact Hf|]. split; [cbn; lia|]. split; [exact HK|exact Hl].
Qed.

Lemma fill_frame_copied i ev w s p s' :
  fill_frame (copied i ev w (set_song s (set_position (song s) p))) s' ->
  fill_frame s s'.
Proof.
  intros (F1 & F2 & F3 & F4 & F5 & F6 & F7 & F8 & F9 & F10).
  cbn in F1, F2, F3, F4, F5, F6, F7, F8.
  unfold fill_frame. rewrite F1, F2, F3, F4, F5, F6, F7, F8.
  split; [reflexivity|]. split; [reflexivity|]. split; [reflexivity|].
  split; [reflexivity|]. split; [reflexivity|]. split; [reflexivity|].
  split; [reflexivity|]. split; [reflexivity|]. split; [exact F9|].
  intros Hrange. apply F10. cbn. apply recorded_range. exact Hrange.
Qed.

Lemma set_position_same s : set_song s (set_position (song s) (position (song s))) = s.
Proof. destruct s as [[ne k p l] vf cv b r e t d]. reflexivity. Qed.

Lemma FillBuffer_loop_taken n : forall i s,
  fill_safe s -> 0 <= i -> i + Z.of_nat n = STREAM_MAX_EVENTS ->
  exists s' ws,
    FillBuffer_loop n i s = Ok s' /\
    window s' = firstn (Z.to_nat i) (events (buffer s)) ++ ws /\
    buf_num_events (buffer s') = i + Z.of_nat (length ws) /\
    Forall2 (fun src w => substituted (volume_factor s) src = Ok w)
            (taken (looping (song s)) (num_events (song s)) (native_events (song s))
                   (position (song s)) n) ws /\
    channel_volume s' =
      fold_left recorded
        (taken (looping (song s)) (num_events (song s)) (native_events (song s))
               (position (song s)) n) (channel_volume s) /\
    position (song s') =
      cursor_after (looping (song s)) (num_events (song s)) (position (song s)) n /\
    fill_safe s' /\ fill_frame s s'.
Proof.
  induction n as [|n IH]; intros i s Hsafe Hi Hin.
  - exists (set_buf_num_events s i), []. cbn [FillBuffer_loop taken cursor_after fold_left].
    split; [reflexivity|]. split; [unfold window; cbn; now rewrite app_nil_r|].
    split; [cbn; lia|]. split; [constructor|]. split; [reflexivity|].
    split; [reflexivity|]. split; [apply fill_safe_done; exact Hsafe|].
    apply fill_frame_done. apply Hsafe.
  - pose proof Hsafe as (Harr & Hf & Hp & HK & Hl).
    cbn [FillBuffer_loop taken cursor_after].
    set (K := num_events (song s)) in *. set (p := position (song s)) in *.
    assert (Hstep : forall p0 src,
              0 <= p0 ->
              array_get (native_events (song s)) p0 = Ok src ->
              exists s' ws,
                (s1 <- FillBuffer_copy i (set_song s (set_position (song s) p0)) ;;
                 FillBuffer_loop n (i + 1) s1) = Ok s' /\
                window s' = firstn (Z.to_nat i) (events (buffer s)) ++ ws /\
                buf_num_events (buffer s') = i + Z.of_nat (length ws) /\
                Forall2 (fun src w => substituted (volume_factor s) src = Ok w)
                  (src :: taken (looping (song s)) K (native_events (song s)) (p0 + 1) n) ws /\
                channel_volume s' =
                  fold_left recorded
                    (src :: taken (looping (song s)) K (native_events (song s)) (p0 + 1) n)
                    (channel_volume s) /\
                position (song s') = cursor_after (looping (song s)) K (p0 + 1) n /\
                fill_safe s' /\ fill_frame s s').
    { intros p0 src Hp0 Hget.
      set (s0 := set_song s (set_position (song s) p0)).
      destruct (FillBuffer_copy_spec i s0 src Harr Hf
                  ltac:(unfold STREAM_MAX_EVENTS in *; lia) Hget) as (w & Hw & Hcopy).
      rewrite Hcopy. cbn [bind].
      destruct (IH (i + 1) (copied i src w s0))
        as (s' & ws & Hrun & Hwin & Hcnt & Hws & Hcv & Hpos & Hsafe' & Hfr).
      { apply fill_safe_copied; assumption. }
      { lia. }
      { lia. }
      exists s', (w :: ws). split; [exact Hrun|].
      cbn in Hws, Hcv, Hpos. fold K in Hws, Hcv, Hpos.
      split; [|split; [|split; [|split; [|split; [|split]]]]].
      - rewrite Hwin. cbn [events buffer copied]. destruct Harr as [Hb _].
        replace (Z.to_nat (i + 1)) with (S (Z.to_nat i)) by lia.
        rewrite firstn_list_set_snoc by (unfold STREAM_MAX_EVENTS in *; cbn; lia).
        rewrite <- app_assoc. reflexivity.
      - rewrite Hcnt. cbn [length]. lia.
      - constructor; [exact Hw|exact Hws].
      - cbn [fold_left]. exact Hcv.
      - exact Hpos.
      - exact Hsafe'.
      - eapply fill_frame_copied. exact Hfr. }
    destruct (Z.leb_spec K p) as [Hend|Hmid].
    + destruct (looping (song s)) eqn:Hloop.
      * (* wrap to slot 0 *)
        assert (Hne : native_events (song s) <> []) by (apply Hl; reflexivity).
        apply (Hstep 0); [lia|].
        rewrite (array_get_nth _ 0 zero_event); [reflexivity|].
        destruct (native_events (song s)); [congruence|cbn; lia].
      * (* the song has ended *)
        exists (set_buf_num_events s i), []. cbn [fold_left].
        split; [reflexivity|]. split; [unfold window; cbn; now rewrite app_nil_r|].
        split; [cbn; lia|]. split; [constructor|]. split; [reflexivity|].
        split; [reflexivity|]. split; [apply fill_safe_done; exact Hsafe|].
        apply fill_frame_done. exact Harr.
    + (* copy the event at the cursor *)
      pose proof (Hstep p _ ltac:(lia) (array_get_nth (native_events (song s)) p zero_event ltac:(lia))) as H.
      unfold p in H at 1. rewrite set_position_same in H. exact H.
Qed.

Lemma skipn_cons_nth {A} (l : list A) p d : (p < length l)%nat ->
  skipn p l = nth p l d :: skipn (S p) l.
Proof.
  revert p; induction l as [|h t IH]; intros [|p] Hp; simpl in *; try lia; auto.
  apply IH. lia.
Qed.

Lemma nth_firstn {A} (l : list A) p k d : (p < k)%nat -> nth p (firstn k l) d = nth p l d.
Proof.
  revert p k; induction l as [|h t IH]; intros p k Hp.
  - rewrite firstn_nil. reflexivity.
  - destruct k as [|k]; [lia|]. destruct p as [|p]; [reflexivity|].
    cbn [firstn nth]. apply IH. lia.
Qed.

Lemma taken_once K alloc n : forall p,
  0 <= p -> K <= Z.of_nat (length alloc) ->
  taken false K alloc p n =
  firstn n (skipn (Z.to_nat p) (firstn (Z.to_nat K) alloc)).
Proof.
  induction n as [|n IH]; intros p Hp HK; cbn [taken]; [reflexivity|].
  destruct (Z.leb_spec K p) as [Hend|Hmid].
  - rewrite skipn_all2; [reflexivity|]. rewrite length_firstn. lia.
  - rewrite (skipn_cons_nth _ _ zero_event) by (rewrite length_firstn; lia).
    cbn [firstn]. rewrite nth_firstn by lia. f_equal.
    rewrite IH by lia. replace (Z.to_nat (p + 1)) with (S (Z.to_nat p)) by lia.
    reflexivity.
Qed.

Lemma cursor_after_once K n : forall p,
  cursor_after false K p n = if K <=? p then p else Z.min (p + Z.of_nat n) K.
Proof.
  induction n as [|n IH]; intros p; cbn [cursor_after].
  - destruct (Z.leb_spec K p); lia.
  - destruct (Z.leb_spec K p) as [Hend|Hmid]; [reflexivity|].
    rewrite IH. destruct (Z.leb_spec K (p + 1)); lia.
Qed.

Lemma taken_looping K alloc n : forall p,
  1 <= K <= Z.of_nat (length alloc) -> 0 <= p <= K ->
  taken true K alloc p n = cyclic (firstn (Z.to_nat K) alloc) (Z.to_nat p) n.
Proof.
  assert (Hlen : 1 <= K <= Z.of_nat (length alloc) ->
                 length (firstn (Z.to_nat K) alloc) = Z.to_nat K).
  { intros HK. rewrite length_firstn. lia. }
  induction n as [|n IH]; intros p HK Hp; cbn [taken cyclic]; [reflexivity|].
  rewrite (Hlen HK).
  destruct (Z.leb_spec K p) as [Hend|Hmid].
  - assert (p = K) by lia. subst p. rewrite Nat.Div0.mod_same.
    rewrite nth_firstn by lia. f_equal.
    rewrite IH by lia. apply cyclic_congr. rewrite (Hlen HK).
    change (S (Z.to_nat K)) with (1 + Z.to_nat K)%nat.
    rewrite Nat.Div0.add_mod, Nat.Div0.mod_same, Nat.add_0_r, Nat.Div0.mod_mod.
    reflexivity.
  - rewrite Nat.mod_small by lia. rewrite nth_firstn by lia. f_equal.
    rewrite IH by lia. replace (Z.to_nat (p + 1)) with (S (Z.to_nat p)) by lia.
    reflexivity.
Qed.

Lemma taken_empty_song K alloc n : forall p,
  K <= 0 -> 0 <= p ->
  taken true K alloc p n = repeat (nth 0 alloc zero_event) n /\
  (n <> O -> cursor_after true K p n = 1).
Proof.
  induction n as [|n IH]; intros p HK Hp; cbn [taken cursor_after repeat].
  - split; [reflexivity|congruence].
  - destruct (Z.leb_spec K p); [|lia].
    destruct (IH 1 HK ltac:(lia)) as [-> Hc]. split; [reflexivity|].
    intros _. destruct n as [|n]; [reflexivity|]. apply Hc. discriminate.
Qed.

Lemma song_ok_fill_safe s :
  song_ok (song s) -> arrays_ok s -> F32.in_unit (volume_factor s) ->
  (looping (song s) = true -> 1 <= num_events (song s)) -> fill_safe s.
Proof.
  intros [Hp HK] Harr Hf Hl. split; [exact Harr|]. split; [exact Hf|].
  split; [lia|]. split; [exact HK|].
  intros Hloop Hnil. specialize (Hl Hloop). rewrite Hnil in HK. cbn in HK. lia.
Qed.

Lemma taken_fill_sources s :
  song_ok (song s) -> (looping (song s) = true -> 1 <= num_events (song s)) ->
  taken (looping (song s)) (num_events (song s)) (native_events (song s))
        (position (song s)) (Z.to_nat STREAM_MAX_EVENTS) = fill_sources s.
Proof.
  intros [Hp HK] Hl. unfold fill_sources, song_events.
  destruct (looping (song s)).
  - apply taken_looping; [specialize (Hl eq_refl); lia|lia].
  - apply taken_once; lia.
Qed.

Lemma taken_length l K alloc n : forall p, (length (taken l K alloc p n) <= n)%nat.
Proof.
  induction n as [|n IH]; intros p; cbn [taken]; [cbn; lia|].
  destruct (K <=? p); [destruct l|]; cbn [length]; try lia.
  - specialize (IH 1). lia.
  - specialize (IH (p + 1)). lia.
Qed.

Lemma FillBuffer_taken s :
  fill_safe s ->
  exists s',
    FillBuffer s = Ok s' /\
    Forall2 (fun src w => substituted (volume_factor s) src = Ok w)
            (taken (looping (song s)) (num_events (song s)) (native_events (song s))
                   (position (song s)) (Z.to_nat STREAM_MAX_EVENTS)) (window s') /\
    buf_num_events (buffer s') = Z.of_nat (length (window s')) /\
    channel_volume s' =
      fold_left recorded
        (taken (looping (song s)) (num_events (song s)) (native_events (song s))
               (position (song s)) (Z.to_nat STREAM_MAX_EVENTS)) (channel_volume s) /\
    position (song s') =
      cursor_after (looping (song s)) (num_events (song s)) (position (song s))
                   (Z.to_nat STREAM_MAX_EVENTS) /\
    fill_safe s' /\ fill_frame s s'.
Proof.
  intros Hsafe.
  destruct (FillBuffer_loop_taken (Z.to_nat STREAM_MAX_EVENTS) 0 s Hsafe ltac:(lia) eq_refl)
    as (s' & ws & Hrun & Hwin & Hcnt & Hws & Hcv & Hpos & Hsafe' & Hfr).
  cbn [Z.to_nat firstn app] in Hwin. rewrite <- Hwin in Hws, Hcnt.
  exists s'. split; [exact Hrun|]. split; [exact Hws|]. split; [lia|].
  split; [exact Hcv|]. split; [exact Hpos|]. split; [exact Hsafe'|exact Hfr].
Qed.

Lemma fills_safe n : forall s,
  fill_safe s ->
  exists ws s', fills n s = Ok (ws, s') /\ fill_safe s' /\ (length ws <= 4 * n)%nat.
Proof.
  induction n as [|n IH]; intros s Hsafe.
  - exists [], s. split; [reflexivity|]. split; [exact Hsafe|cbn; lia].
  - destruct (FillBuffer_taken s Hsafe) as (s1 & Hrun & Hws & _ & _ & _ & Hsafe1 & _).
    destruct (IH s1 Hsafe1) as (ws & s' & Hfills & Hsafe' & Hlen).
    exists (window s1 ++ ws), s'. cbn [fills]. rewrite Hrun. cbn [bind].
    rewrite Hfills. cbn [bind fst snd]. split; [reflexivity|]. split; [exact Hsafe'|].
    rewrite length_app. apply Forall2_length in Hws. rewrite <- Hws.
    pose proof (taken_length (looping (song s)) (num_events (song s))
                  (native_events (song s)) (Z.to_nat STREAM_MAX_EVENTS) (position (song s))) as Hl.
    change (Z.to_nat STREAM_MAX_EVENTS) with 4%nat in *. lia.
Qed.

(** X1.  FillBuffer stays inside its arrays on every state whose buffer
    and channel volumes have their slots, whose scale factor lies in
    [0,1], whose cursor is not negative, whose event count does not
    exceed the array of the song and whose array has a slot 0 when the
    song loops.  It then fills 0 to 4 slots, keeps these conditions, so
    any number of fills in a row complete, and leaves the event array,
    the event count, the looping flag, the scale factor, the two
    signals, the thread handle and the device untouched. *)
Theorem FillBuffer_stays_in_bounds s :
  fill_safe s ->
  (exists s',
     FillBuffer s = Ok s' /\ fill_safe s' /\
     0 <= buf_num_events (buffer s') <= STREAM_MAX_EVENTS /\
     Z.of_nat (length (window s')) = buf_num_events (buffer s') /\
     native_events (song s') = native_events (song s) /\
     num_events (song s') = num_events (song s) /\
     looping (song s') = looping (song s) /\
     volume_factor s' = volume_factor s /\
     hBufferReturnEvent s' = hBufferReturnEvent s /\
     hExitEvent s' = hExitEvent s /\
     hPlayerThread s' = hPlayerThread s /\
     device s' = device s) /\
  (forall n, exists ws s', fills n s = Ok (ws, s') /\ fill_safe s' /\
                           (length ws <= 4 * n)%nat).
Proof.
  intros Hsafe. split; [|intros n; apply fills_safe; exact Hsafe].
  destruct (FillBuffer_taken s Hsafe) as (s' & Hrun & Hws & Hcnt & _ & _ & Hsafe' & Hfr).
  destruct Hfr as (F1 & F2 & F3 & F4 & F5 & F6 & F7 & F8 & _).
  exists s'. split; [exact Hrun|]. split; [exact Hsafe'|].
  apply Forall2_length in Hws.
  pose proof (taken_length (looping (song s)) (num_events (song s))
                (native_events (song s)) (Z.to_nat STREAM_MAX_EVENTS) (position (song s))) as Hl.
  change (Z.to_nat STREAM_MAX_EVENTS) with 4%nat in *.
  split; [unfold STREAM_MAX_EVENTS; lia|]. split; [lia|].
  auto 12.
Qed.

Lemma FillBuffer_stays_in_bounds_witness :
  fill_safe (set_song initial_state volume_song) /\
  exists s', FillBuffer (set_song initial_state volume_song) = Ok s' /\ fill_safe s'.
Proof.
  assert (H : fill_safe (set_song initial_state volume_song)).
  { split; [split; reflexivity|]. split; [repeat split; reflexivity|].
    split; [cbn; lia|]. split; [cbn; lia|]. intros _. discriminate. }
  split; [exact H|].
  destruct (proj1 (FillBuffer_stays_in_bounds _ H)) as (s' & H1 & H2 & _).
  exists s'. split; [exact H1|exact H2].
Defined.

Lemma firstn_add_skipn {A} (l : list A) a b :
  firstn (a + b) l = firstn a l ++ firstn b (skipn a l).
Proof.
  revert l; induction a as [|a IH]; intros l; [reflexivity|].
  destruct l as [|h t]; [now rewrite !firstn_nil|].
  cbn [Nat.add firstn skipn app]. now rewrite IH.
Qed.

Lemma fold_left_recorded_length evs : forall cv,
  length (fold_left recorded evs cv) = length cv.
Proof.
  induction evs as [|ev evs IH]; intros cv; cbn [fold_left]; [reflexivity|].
  rewrite IH. apply recorded_length.
Qed.

Lemma fills_once n : forall s,
  looping (song s) = false -> fill_safe s ->
  exists ws s',
    fills n s = Ok (ws, s') /\
    Forall2 (fun src w => substituted (volume_factor s) src = Ok w)
            (firstn (4 * n) (skipn (Z.to_nat (position (song s))) (song_events (song s))))
            ws /\
    position (song s') =
      (if num_events (song s) <=? position (song s) then position (song s)
       else Z.min (position (song s) + 4 * Z.of_nat n) (num_events (song s))) /\
    channel_volume s' =
      fold_left recorded
        (firstn (4 * n) (skipn (Z.to_nat (position (song s))) (song_events (song s))))
        (channel_volume s) /\
    song_events (song s') = song_events (song s) /\
    volume_factor s' = volume_factor s.
Proof.
  induction n as [|n IH]; intros s Hloop Hsafe.
  - exists [], s. split; [reflexivity|]. split; [constructor|].
    split; [destruct (Z.leb_spec (num_events (song s)) (position (song s))); lia|].
    split; [reflexivity|]. split; reflexivity.
  - destruct (FillBuffer_taken s Hsafe) as (s1 & Hrun & Hws & _ & Hcv & Hpos & Hsafe1 & Hfr).
    pose proof Hsafe as (_ & _ & Hp & HK & _).
    rewrite Hloop in Hws, Hcv, Hpos.
    rewrite taken_once in Hws, Hcv by assumption. rewrite cursor_after_once in Hpos.
    fold (song_events (song s)) in Hws, Hcv.
    destruct Hfr as (F1 & F2 & F3 & F4 & _).
    assert (Hevs : song_events (song s1) = song_events (song s))
      by (unfold song_events; rewrite F1, F2; reflexivity).
    destruct (IH s1 ltac:(congruence) Hsafe1) as (ws & s' & Hfills & Hws' & Hpos' & Hcv' & He' & Hf').
    exists (window s1 ++ ws), s'. cbn [fills]. rewrite Hrun. cbn [bind].
    rewrite Hfills. cbn [bind fst snd]. split; [reflexivity|].
    rewrite Hevs, F2, F4 in *.
    set (K := num_events (song s)) in *. set (p := position (song s)) in *.
    set (evs := song_events (song s)) in *.
    assert (Hlen : length evs = Z.to_nat K).
    { unfold evs, song_events. rewrite length_firstn. fold K. lia. }
    assert (Hskip : skipn (Z.to_nat (position (song s1))) evs =
                    skipn 4 (skipn (Z.to_nat p) evs)).
    { rewrite skipn_skipn, Hpos. change (Z.to_nat STREAM_MAX_EVENTS) with 4%nat.
      destruct (Z.leb_spec K p).
      - rewrite !skipn_all2 by lia. reflexivity.
      - destruct (Z.le_gt_cases (p + 4) K).
        + f_equal. lia.
        + rewrite !skipn_all2 by lia. reflexivity. }
    rewrite Hskip in Hws', Hcv'.
    change (Z.to_nat STREAM_MAX_EVENTS) with 4%nat in *.
    replace (4 * S n)%nat with (4 + 4 * n)%nat by lia.
    rewrite firstn_add_skipn.
    split; [apply Forall2_app; assumption|].
    split; [|split; [|split; [congruence|congruence]]].
    + rewrite Hpos', Hpos. change (Z.of_nat 4) with 4.
      repeat match goal with
             | |- context [if ?a <=? ?b then _ else _] => destruct (Z.leb_spec a b)
             end; lia.
    + rewrite fold_left_app, <- Hcv. exact Hcv'.
Qed.

Lemma In_firstn_skipn {A} (l : list A) n p x : In x (firstn n (skipn p l)) -> In x l.
Proof.
  intros H. rewrite <- (firstn_skipn p l). apply in_or_app. right.
  rewrite <- (firstn_skipn n (skipn p l)). apply in_or_app. left. exact H.
Qed.

(** X2.  A song that does not loop is streamed once: on a state on which
    FillBuffer stays inside its arrays, n fills in a row put into their
    windows, one after the other, the next 4n events of the song from
    the cursor (fewer when the song ends before), each event once and in
    order, an event whose word passes the volume test of FillBuffer
    (type bits 0xB0 and second byte 7) with its volume field replaced
    by the corrected volume; the cursor stops at the event count. *)
Theorem fills_play_once n s :
  looping (song s) = false -> fill_safe s ->
  exists ws s',
    fills n s = Ok (ws, s') /\
    Forall2 (fun src w => substituted (volume_factor s) src = Ok w)
            (firstn (4 * n) (skipn (Z.to_nat (position (song s))) (song_events (song s))))
            ws /\
    position (song s') =
      (if num_events (song s) <=? position (song s) then position (song s)
       else Z.min (position (song s) + 4 * Z.of_nat n) (num_events (song s))) /\
    (Forall (fun ev => is_main_volume (dwEvent ev) = false) (song_events (song s)) ->
     ws = firstn (4 * n) (skipn (Z.to_nat (position (song s))) (song_events (song s)))).
Proof.
  intros Hloop Hsafe.
  destruct (fills_once n s Hloop Hsafe) as (ws & s' & Hrun & Hws & Hpos & _).
  exists ws, s'. split; [exact Hrun|]. split; [exact Hws|]. split; [exact Hpos|].
  intros Hall. eapply Forall2_substituted_id; [|exact Hws].
  rewrite Forall_forall in *. intros ev Hev. apply Hall.
  eapply In_firstn_skipn. exact Hev.
Qed.

Lemma fill_safe_note_song : fill_safe (set_song initial_state note_song).
Proof.
  split; [split; reflexivity|]. split; [repeat split; reflexivity|].
  split; [cbn; lia|]. split; [cbn; lia|]. intros H. discriminate H.
Qed.

Lemma fills_play_once_witness :
  exists ws s',
    fills 2 (set_song initial_state note_song) = Ok (ws, s') /\
    ws = song_events note_song /\ position (song s') = 1.
Proof.
  destruct (fills_play_once 2 (set_song initial_state note_song) eq_refl fill_safe_note_song)
    as (ws & s' & H1 & _ & H3 & H4).
  exists ws, s'. split; [exact H1|]. split; [|exact H3].
  apply H4. repeat constructor.
Defined.

(** X3.  One fill records the volumes it meets: on a song whose cursor
    lies within its events (and which has an event when it loops), the
    window holds the events the fill took, the next four of the cyclic
    stream of a looping song or the next four at most of a song played
    once, and the recorded channel volumes are the former ones updated,
    in the order of the events, by every event taken whose word passes
    the volume test of FillBuffer (type bits 0xB0 and second byte 7):
    the entry of its channel becomes the volume field of the event as
    the song has it, not the corrected volume the window gets. *)
Theorem FillBuffer_records_volumes s :
  song_ok (song s) -> arrays_ok s -> F32.in_unit (volume_factor s) ->
  (looping (song s) = true -> 1 <= num_events (song s)) ->
  exists s',
    FillBuffer s = Ok s' /\
    Forall2 (fun src w => substituted (volume_factor s) src = Ok w)
            (fill_sources s) (window s') /\
    buf_num_events (buffer s') = Z.of_nat (length (fill_sources s)) /\
    channel_volume s' = fold_left recorded (fill_sources s) (channel_volume s).
Proof.
  intros Hok Harr Hf Hl.
  destruct (FillBuffer_taken s (song_ok_fill_safe s Hok Harr Hf Hl))
    as (s' & Hrun & Hws & Hcnt & Hcv & _).
  rewrite (taken_fill_sources s Hok Hl) in Hws, Hcv.
  exists s'. split; [exact Hrun|]. split; [exact Hws|]. split; [|exact Hcv].
  rewrite Hcnt. apply Forall2_length in Hws. congruence.
Qed.

Lemma FillBuffer_records_volumes_witness :
  exists s',
    FillBuffer (set_song initial_state volume_song) = Ok s' /\
    channel_volume s' = list_set (repeat 0 16) 0 100.
Proof.
  destruct (FillBuffer_records_volumes (set_song initial_state volume_song))
    as (s' & H1 & _ & _ & H4).
  - unfold song_ok. cbn. lia.
  - split; reflexivity.
  - repeat split; reflexivity.
  - intros _. cbn. lia.
  - exists s'. split; [exact H1|]. rewrite H4. reflexivity.
Defined.

(** X4.  After I_WIN_UnRegisterSong the song has no event array.  A
    fill then reads slot 0 of the missing array when the looping flag
    is still set, which is outside every array; when the flag is clear
    the fill fills no slot and StreamOut submits nothing. *)
Theorem FillBuffer_after_UnRegisterSong mmr s :
  FillBuffer (I_WIN_UnRegisterSong s) =
    (if looping (song s) then Undefined
     else Ok (set_buf_num_events (I_WIN_UnRegisterSong s) 0)) /\
  StreamOut mmr (set_buf_num_events (I_WIN_UnRegisterSong s) 0) =
    set_buf_num_events (I_WIN_UnRegisterSong s) 0.
Proof.
  split; [|apply StreamOut_empty; reflexivity].
  unfold FillBuffer. change (Z.to_nat STREAM_MAX_EVENTS) with 4%nat.
  cbn [FillBuffer_loop]. cbn [I_WIN_UnRegisterSong song set_song num_events position looping].
  change (0 <=? 0) with true. cbv iota.
  destruct (looping (song s)); reflexivity.
Qed.

(** X5.  A looping song with no event still fills the whole window: on
    a state on which FillBuffer stays inside its arrays, with the
    looping flag set and an event count of 0, every turn of the loop
    wraps the cursor to 0 and copies slot 0 of the array, so the window
    holds four copies of that slot although the song has no event, and
    the cursor ends at 1, past the event count. *)
Theorem FillBuffer_loops_empty_song s :
  fill_safe s -> looping (song s) = true -> num_events (song s) <= 0 ->
  exists s' w,
    FillBuffer s = Ok s' /\
    substituted (volume_factor s) (nth 0 (native_events (song s)) zero_event) = Ok w /\
    window s' = [w; w; w; w] /\
    buf_num_events (buffer s') = STREAM_MAX_EVENTS /\
    position (song s') = 1.
Proof.
  intros Hsafe Hloop HK.
  destruct (FillBuffer_taken s Hsafe) as (s' & Hrun & Hws & Hcnt & _ & Hpos & _).
  pose proof Hsafe as (_ & _ & Hp & _).
  rewrite Hloop in Hws, Hpos.
  destruct (taken_empty_song (num_events (song s)) (native_events (song s))
              (Z.to_nat STREAM_MAX_EVENTS) (position (song s)) HK Hp) as [Ht Hc].
  rewrite Ht in Hws. rewrite Hc in Hpos by discriminate.
  change (Z.to_nat STREAM_MAX_EVENTS) with 4%nat in Hws. cbn [repeat] in Hws.
  inversion Hws as [|x1 w1 l1 r1 E1 T1]; subst.
  inversion T1 as [|x2 w2 l2 r2 E2 T2]; subst.
  inversion T2 as [|x3 w3 l3 r3 E3 T3]; subst.
  inversion T3 as [|x4 w4 l4 r4 E4 T4]; subst.
  inversion T4; subst.
  exists s', w1. split; [exact Hrun|]. split; [exact E1|].
  assert (w2 = w1) by congruence. assert (w3 = w1) by congruence.
  assert (w4 = w1) by congruence. subst.
  match goal with H : _ = window s' |- _ => rename H into Hwin end.
  split; [symmetry; exact Hwin|]. split; [|exact Hpos].
  rewrite Hcnt, <- Hwin. reflexivity.
Qed.

Lemma FillBuffer_loops_empty_song_witness :
  exists s',
    FillBuffer (set_song initial_state
                  {| native_events := [zero_event]; num_events := 0;
                     position := 0; looping := true |}) = Ok s' /\
    window s' = [zero_event; zero_event; zero_event; zero_event].
Proof.
  destruct (FillBuffer_loops_empty_song
              (set_song initial_state
                 {| native_events := [zero_event]; num_events := 0;
                    position := 0; looping := true |}))
    as (s' & w & H1 & H2 & H3 & _).
  - split; [split; reflexivity|]. split; [repeat split; reflexivity|].
    split; [cbn; lia|]. split; [cbn; lia|]. intros _. discriminate.
  - reflexivity.
  - cbn. lia.
  - exists s'. split; [exact H1|]. rewrite H3.
    cbn in H2. injection H2 as <-. reflexivity.
Defined.

(* ================================================================== *)
(** * The fields of an event word *)
(* ================================================================== *)

Lemma land_small c k : 0 <= k -> 0 <= c < 2 ^ k -> Z.land c (Z.ones k) = c.
Proof. intros Hk Hc. rewrite Z.land_ones by exact Hk. apply Z.mod_small. exact Hc. Qed.

(** The word FillBuffer writes for an event [x] that passes its volume
    test and a corrected volume [c]. *)
Lemma substituted_word x c :
  let y := Z.lor (Z.land x 0xFF00FFFF) (Z.shiftl (Z.land c 0x7F) 16) in
  MIDIEVENT_TYPE y = MIDIEVENT_TYPE x /\
  MIDIEVENT_CHANNEL y = MIDIEVENT_CHANNEL x /\
  MIDIEVENT_DATA1 y = MIDIEVENT_DATA1 x /\
  MIDIEVENT_VOLUME y = Z.land c 0x7F /\
  Z.land y 0xFF00FFFF = Z.land x 0xFF00FFFF /\
  Z.shiftr y 24 = Z.land (Z.shiftr x 24) 0xFF.
Proof.
  cbv zeta. unfold MIDIEVENT_TYPE, MIDIEVENT_CHANNEL, MIDIEVENT_DATA1, MIDIEVENT_VOLUME.
  change 0xFF00FFFF with (Z.lor (Z.ones 16) (Z.shiftl (Z.ones 8) 24)).
  change 0x7F with (Z.ones 7). change 0xF0 with (Z.shiftl (Z.ones 4) 4).
  change 0xF with (Z.ones 4). change 0xFF00 with (Z.shiftl (Z.ones 8) 8).
  change 0x7F0000 with (Z.shiftl (Z.ones 7) 16). change 0xFF with (Z.ones 8).
  repeat split.
  - bits i.
  - bits i.
  - bits i.
  - bits i.
  - bits i.
  - bits i.
Qed.

Lemma substituted_fields f ev w :
  F32.in_unit f -> substituted f ev = Ok w ->
  dwDeltaTime w = dwDeltaTime ev /\ dwStreamID w = dwStreamID ev /\
  MIDIEVENT_TYPE (dwEvent w) = MIDIEVENT_TYPE (dwEvent ev) /\
  MIDIEVENT_CHANNEL (dwEvent w) = MIDIEVENT_CHANNEL (dwEvent ev) /\
  MIDIEVENT_DATA1 (dwEvent w) = MIDIEVENT_DATA1 (dwEvent ev) /\
  Z.land (dwEvent w) 0xFF00FFFF = Z.land (dwEvent ev) 0xFF00FFFF /\
  (is_main_volume (dwEvent ev) = false -> w = ev) /\
  (is_main_volume (dwEvent ev) = true ->
   corrected_volume (MIDIEVENT_VOLUME (dwEvent ev)) f =
     Ok (MIDIEVENT_VOLUME (dwEvent w))).
Proof.
  intros Hf H. unfold substituted in H.
  destruct (is_main_volume (dwEvent ev)) eqn:Hmv.
  - destruct (corrected_volume_ok _ f Hf (MIDIEVENT_VOLUME_range (dwEvent ev)))
      as (c & Hc & Hr & _).
    rewrite Hc in H. cbv beta iota delta [bind] in H.
    remember (Z.lor (Z.land (dwEvent ev) 4278255615) (Z.shiftl (Z.land c 127) 16))
      as X eqn:HX in H.
    injection H as <-. cbn [with_dwEvent dwEvent dwDeltaTime dwStreamID]. subst X.
    destruct (substituted_word (dwEvent ev) c) as (A1 & A2 & A3 & A4 & A5 & _).
    cbv zeta in A1, A2, A3, A4, A5.
    split; [reflexivity|]. split; [reflexivity|]. split; [exact A1|].
    split; [exact A2|]. split; [exact A3|]. split; [exact A5|].
    split; [discriminate|]. intros _. rewrite Hc, A4. f_equal.
    change 127 with (Z.ones 7). rewrite land_small by lia. reflexivity.
  - injection H as <-. repeat split; auto. discriminate.
Qed.

(** X6.  A fill changes nothing of an event but its volume: on a song
    whose cursor lies within its events, every event of the window has
    the delta time, the stream id, the type, the channel, the
    controller number and all bits of the word outside bits 16 to 23
    of the event of the song it was taken from; an event whose word
    does not pass the volume test of FillBuffer (type bits 0xB0 and
    second byte 7) is copied as it is, and an event whose word passes
    it gets as volume field the entry of the correction table at the
    index computed from its own volume field and the scale factor. *)
Theorem FillBuffer_changes_volume_only s :
  song_ok (song s) -> arrays_ok s -> F32.in_unit (volume_factor s) ->
  (looping (song s) = true -> 1 <= num_events (song s)) ->
  exists s',
    FillBuffer s = Ok s' /\
    Forall2 (fun src w =>
               dwDeltaTime w = dwDeltaTime src /\ dwStreamID w = dwStreamID src /\
               MIDIEVENT_TYPE (dwEvent w) = MIDIEVENT_TYPE (dwEvent src) /\
               MIDIEVENT_CHANNEL (dwEvent w) = MIDIEVENT_CHANNEL (dwEvent src) /\
               MIDIEVENT_DATA1 (dwEvent w) = MIDIEVENT_DATA1 (dwEvent src) /\
               Z.land (dwEvent w) 0xFF00FFFF = Z.land (dwEvent src) 0xFF00FFFF /\
               (is_main_volume (dwEvent src) = false -> w = src) /\
               (is_main_volume (dwEvent src) = true ->
                corrected_volume (MIDIEVENT_VOLUME (dwEvent src)) (volume_factor s) =
                  Ok (MIDIEVENT_VOLUME (dwEvent w))))
            (fill_sources s) (window s').
Proof.
  intros Hok Harr Hf Hl.
  destruct (FillBuffer_taken s (song_ok_fill_safe s Hok Harr Hf Hl))
    as (s' & Hrun & Hws & _).
  rewrite (taken_fill_sources s Hok Hl) in Hws.
  exists s'. split; [exact Hrun|].
  eapply Forall2_impl; [|exact Hws].
  intros src w H. apply (substituted_fields _ _ _ Hf H).
Qed.

Lemma FillBuffer_changes_volume_only_witness :
  exists s',
    FillBuffer (set_song initial_state volume_song) = Ok s' /\
    length (window s') = 4%nat.
Proof.
  destruct (FillBuffer_changes_volume_only (set_song initial_state volume_song))
    as (s' & H1 & H2).
  - unfold song_ok. cbn. lia.
  - split; reflexivity.
  - repeat split; reflexivity.
  - intros _. cbn. lia.
  - exists s'. split; [exact H1|]. apply Forall2_length in H2. rewrite <- H2. reflexivity.
Defined.

(* ================================================================== *)
(** * The event words MIDItoStream packs *)
(* ================================================================== *)

Lemma packed_channel_word t c a b :
  let v := Z.lor (Z.lor (Z.lor (Z.lor (Z.land t 0xF0) (Z.land c 0xF))
                               (Z.shiftl (Z.land a 0x7F) 8))
                        (Z.shiftl (Z.land b 0x7F) 16))
                 (Z.shiftl MEVT_SHORTMSG 24) in
  MIDIEVENT_TYPE v = Z.land t 0xF0 /\
  MIDIEVENT_CHANNEL v = Z.land c 0xF /\
  MIDIEVENT_DATA1 v = Z.land a 0x7F /\
  MIDIEVENT_VOLUME v = Z.land b 0x7F /\
  Z.shiftr v 24 = 0 /\
  Z.land v (Z.ones 24) = v.
Proof.
  cbv zeta. unfold MIDIEVENT_TYPE, MIDIEVENT_CHANNEL, MIDIEVENT_DATA1, MIDIEVENT_VOLUME,
    MEVT_SHORTMSG.
  change 0x7F with (Z.ones 7). change 0xF0 with (Z.shiftl (Z.ones 4) 4).
  change 0xF with (Z.ones 4). change 0xFF00 with (Z.shiftl (Z.ones 8) 8).
  change 0x7F0000 with (Z.shiftl (Z.ones 7) 16).
  repeat split.
  - bits i.
  - bits i.
  - bits i.
  - bits i.
  - bits i.
  - bits i.
Qed.

Lemma channel_word_fields ty ch p1 p2 :
  ty = Z.land ty 0xF0 -> 0 <= ch < 16 -> 0 <= p1 < 128 -> 0 <= p2 < 128 ->
  let d := to_dword (Z.lor (Z.lor (Z.lor (Z.lor ty ch) (Z.shiftl p1 8))
                                  (Z.shiftl p2 16))
                           (Z.shiftl MEVT_SHORTMSG 24)) in
  MIDIEVENT_TYPE d = ty /\ MIDIEVENT_CHANNEL d = ch /\ MIDIEVENT_DATA1 d = p1 /\
  MIDIEVENT_VOLUME d = p2 /\ Z.shiftr d 24 = 0.
Proof.
  intros Ht Hch Hp1 Hp2. cbv zeta.
  pose proof (packed_channel_word ty ch p1 p2) as H. cbv zeta in H.
  change 0xF with (Z.ones 4) in H. change 0x7F with (Z.ones 7) in H.
  rewrite (land_small ch 4), (land_small p1 7), (land_small p2 7), <- Ht in H
    by (try lia; change (2 ^ 7) with 128; change (2 ^ 4) with 16; lia).
  destruct H as (A1 & A2 & A3 & A4 & A5 & A6).
  rewrite to_dword_id.
  - auto.
  - rewrite <- A6, Z.land_ones by lia.
    pose proof (Z.mod_pos_bound
                  (Z.lor (Z.lor (Z.lor (Z.lor ty ch) (Z.shiftl p1 8)) (Z.shiftl p2 16))
                         (Z.shiftl MEVT_SHORTMSG 24)) (2 ^ 24) ltac:(lia)).
    change (2 ^ 24) with 16777216 in *. change (2 ^ 32) with 4294967296. lia.
Qed.

Lemma event_dword_two_bytes e :
  In (event_type e) [MIDI_EVENT_NOTE_OFF; MIDI_EVENT_NOTE_ON; MIDI_EVENT_AFTERTOUCH;
                     MIDI_EVENT_CONTROLLER; MIDI_EVENT_PITCH_BEND] ->
  event_dword e =
  to_dword (Z.lor (Z.lor (Z.lor (Z.lor (event_type e) (data_channel e))
                                (Z.shiftl (data_param1 e) 8))
                         (Z.shiftl (data_param2 e) 16))
                  (Z.shiftl MEVT_SHORTMSG 24)).
Proof.
  intros H. unfold event_dword. cbv zeta. cbn [In] in H.
  destruct H as [E|[E|[E|[E|[E|[]]]]]]; rewrite <- E; reflexivity.
Qed.

Lemma event_dword_one_byte e :
  In (event_type e) [MIDI_EVENT_PROGRAM_CHANGE; MIDI_EVENT_CHAN_AFTERTOUCH] ->
  event_dword e =
  to_dword (Z.lor (Z.lor (Z.lor (Z.lor (event_type e) (data_channel e))
                                (Z.shiftl (data_param1 e) 8))
                         (Z.shiftl 0 16))
                  (Z.shiftl MEVT_SHORTMSG 24)).
Proof.
  intros H. unfold event_dword. cbv zeta. cbn [In] in H.
  destruct H as [E|[E|[]]]; rewrite <- E; reflexivity.
Qed.

(** X7.  The word MIDItoStream packs for a channel event holds its
    fields where the fill looks for them: for an event of one of the
    seven channel kinds with a channel in 0..15 and data bytes in
    0..127, the type, channel and first data byte of the word are those
    of the event, the volume field is the second data byte (0 for a
    program change or a channel aftertouch, whose second byte is left
    out), the top byte is MEVT_SHORTMSG, and FillBuffer takes the word
    for a main volume controller event exactly when the event is a
    controller event with controller number 7. *)
Theorem event_dword_channel e ch p1 p2 :
  data e = channel_data ch p1 p2 ->
  In (event_type e) [MIDI_EVENT_NOTE_OFF; MIDI_EVENT_NOTE_ON; MIDI_EVENT_AFTERTOUCH;
                     MIDI_EVENT_CONTROLLER; MIDI_EVENT_PROGRAM_CHANGE;
                     MIDI_EVENT_CHAN_AFTERTOUCH; MIDI_EVENT_PITCH_BEND] ->
  0 <= ch < 16 -> 0 <= p1 < 128 -> 0 <= p2 < 128 ->
  MIDIEVENT_TYPE (event_dword e) = event_type e /\
  MIDIEVENT_CHANNEL (event_dword e) = ch /\
  MIDIEVENT_DATA1 (event_dword e) = p1 /\
  MIDIEVENT_VOLUME (event_dword e) =
    (if (event_type e =? MIDI_EVENT_PROGRAM_CHANGE) ||
        (event_type e =? MIDI_EVENT_CHAN_AFTERTOUCH) then 0 else p2) /\
  Z.shiftr (event_dword e) 24 = MEVT_SHORTMSG /\
  is_main_volume (event_dword e) =
    (event_type e =? MIDI_EVENT_CONTROLLER) && (p1 =? MIDI_CONTROLLER_MAIN_VOLUME).
Proof.
  intros Hdata Hty Hch Hp1 Hp2.
  assert (Hmv : forall d,
            MIDIEVENT_TYPE d = event_type e -> MIDIEVENT_DATA1 d = p1 ->
            is_main_volume d =
            (event_type e =? MIDI_EVENT_CONTROLLER) && (p1 =? MIDI_CONTROLLER_MAIN_VOLUME)).
  { intros d H1 H2. unfold is_main_volume. now rewrite H1, H2. }
  assert (Hc : data_channel e = ch) by (unfold data_channel; now rewrite Hdata).
  assert (H1 : data_param1 e = p1) by (unfold data_param1; now rewrite Hdata).
  assert (H2 : data_param2 e = p2) by (unfold data_param2; now rewrite Hdata).
  assert (Hmask : event_type e = Z.land (event_type e) 0xF0).
  { cbn [In] in Hty.
    destruct Hty as [E|[E|[E|[E|[E|[E|[E|[]]]]]]]]; rewrite <- E; reflexivity. }
  assert (Hkind : In (event_type e)
                    [MIDI_EVENT_NOTE_OFF; MIDI_EVENT_NOTE_ON; MIDI_EVENT_AFTERTOUCH;
                     MIDI_EVENT_CONTROLLER; MIDI_EVENT_PITCH_BEND] /\
                  (event_type e =? MIDI_EVENT_PROGRAM_CHANGE) ||
                  (event_type e =? MIDI_EVENT_CHAN_AFTERTOUCH) = false \/
                  In (event_type e)
                    [MIDI_EVENT_PROGRAM_CHANGE; MIDI_EVENT_CHAN_AFTERTOUCH] /\
                  (event_type e =? MIDI_EVENT_PROGRAM_CHANGE) ||
                  (event_type e =? MIDI_EVENT_CHAN_AFTERTOUCH) = true).
  { cbn [In] in Hty. cbn [In].
    destruct Hty as [E|[E|[E|[E|[E|[E|[E|[]]]]]]]]; rewrite <- E;
      first [left; split; [tauto|reflexivity]|right; split; [tauto|reflexivity]]. }
  destruct Hkind as [[Hk ->]|[Hk ->]].
  - rewrite (event_dword_two_bytes e Hk), Hc, H1, H2.
    destruct (channel_word_fields (event_type e) ch p1 p2 Hmask Hch Hp1 Hp2)
      as (A1 & A2 & A3 & A4 & A5).
    cbv zeta in A1, A2, A3, A4, A5. auto 8.
  - rewrite (event_dword_one_byte e Hk), Hc, H1.
    destruct (channel_word_fields (event_type e) ch p1 0 Hmask Hch Hp1 ltac:(lia))
      as (A1 & A2 & A3 & A4 & A5).
    cbv zeta in A1, A2, A3, A4, A5. auto 8.
Qed.

Lemma event_dword_channel_witness :
  is_main_volume
    (event_dword {| event_type := MIDI_EVENT_CONTROLLER; delta_time := 0;
                    data := channel_data 3 7 100 |}) = true /\
  MIDIEVENT_VOLUME
    (event_dword {| event_type := MIDI_EVENT_CONTROLLER; delta_time := 0;
                    data := channel_data 3 7 100 |}) = 100.
Proof.
  destruct (event_dword_channel
              {| event_type := MIDI_EVENT_CONTROLLER; delta_time := 0;
                 data := channel_data 3 7 100 |} 3 7 100 eq_refl)
    as (_ & _ & _ & H4 & _ & H6).
  - cbn. tauto.
  - lia.
  - lia.
  - lia.
  - split; [exact H6|exact H4].
Defined.

Lemma lor_shiftl_add a b n :
  0 <= n -> 0 <= a < 2 ^ n -> Z.lor a (Z.shiftl b n) = a + b * 2 ^ n.
Proof.
  intros Hn Ha. rewrite <- Z.shiftl_mul_pow2 by exact Hn.
  rewrite <- Z.add_lor_land.
  assert (H : Z.land a (Z.shiftl b n) = 0).
  { rewrite <- (land_small a n Hn Ha). bits i. }
  rewrite H. lia.
Qed.

(** X8.  A set-tempo meta event becomes a tempo event of the stream: for
    a meta event of type MIDI_META_SET_TEMPO whose data starts with the
    three bytes b0, b1, b2, the packed word is MEVT_TEMPO in the top
    byte and the 24-bit tempo b0 b1 b2, most significant byte first, in
    the low three bytes. *)
Theorem event_dword_tempo e b0 b1 b2 rest :
  event_type e = MIDI_EVENT_META ->
  data e = meta_data MIDI_META_SET_TEMPO (b0 :: b1 :: b2 :: rest) ->
  0 <= b0 < 256 -> 0 <= b1 < 256 -> 0 <= b2 < 256 ->
  event_dword e = MEVT_TEMPO * 2 ^ 24 + (b0 * 2 ^ 16 + b1 * 2 ^ 8 + b2) /\
  Z.shiftr (event_dword e) 24 = MEVT_TEMPO /\
  Z.land (event_dword e) 0xFFFFFF = b0 * 2 ^ 16 + b1 * 2 ^ 8 + b2.
Proof.
  intros Hty Hdata H0 H1 H2.
  assert (Hword : event_dword e = MEVT_TEMPO * 2 ^ 24 + (b0 * 2 ^ 16 + b1 * 2 ^ 8 + b2)).
  { unfold event_dword, data_meta_type, data_meta_byte. rewrite Hty, Hdata. cbv zeta.
    change (MIDI_EVENT_META =? MIDI_EVENT_META) with true.
    change (MIDI_META_SET_TEMPO =? MIDI_META_SET_TEMPO) with true. cbv iota.
    cbn [nth].
    rewrite (lor_shiftl_add b2 b1 8) by lia.
    rewrite (lor_shiftl_add (b2 + b1 * 2 ^ 8) b0 16) by lia.
    rewrite (lor_shiftl_add (b2 + b1 * 2 ^ 8 + b0 * 2 ^ 16) MEVT_TEMPO 24) by lia.
    rewrite to_dword_id; [lia|]. unfold MEVT_TEMPO. lia. }
  split; [exact Hword|]. rewrite Hword. unfold MEVT_TEMPO. split.
  - rewrite Z.shiftr_div_pow2 by lia.
    rewrite Z.add_comm, Z.div_add by lia. rewrite Z.div_small by lia. reflexivity.
  - change 0xFFFFFF with (Z.ones 24). rewrite Z.land_ones by lia.
    rewrite Z.add_comm, Z.mod_add by lia. apply Z.mod_small. lia.
Qed.

Lemma event_dword_tempo_witness :
  event_dword {| event_type := MIDI_EVENT_META; delta_time := 0;
                 data := meta_data MIDI_META_SET_TEMPO [0x07; 0xA1; 0x20] |} =
  MEVT_TEMPO * 2 ^ 24 + 500000.
Proof.
  destruct (event_dword_tempo
              {| event_type := MIDI_EVENT_META; delta_time := 0;
                 data := meta_data MIDI_META_SET_TEMPO [0x07; 0xA1; 0x20] |}
              0x07 0xA1 0x20 [] eq_refl eq_refl ltac:(lia) ltac:(lia) ltac:(lia))
    as (H & _).
  exact H.
Defined.

Lemma testbit_nonzero z i : Z.testbit z i = true -> z <> 0.
Proof. intros H ->. rewrite Z.bits_0 in H. discriminate. Qed.

(** X9.  MIDItoStream drops an event exactly when it is neither a
    channel event of the seven kinds nor a set-tempo meta event: the
    packed word of such an event is 0, and the packed word of a channel
    event or of a set-tempo meta event is never 0, whatever its fields
    hold. *)
Theorem event_dword_zero_iff e :
  event_dword e = 0 <->
  ~ In (event_type e) [MIDI_EVENT_NOTE_OFF; MIDI_EVENT_NOTE_ON; MIDI_EVENT_AFTERTOUCH;
                       MIDI_EVENT_CONTROLLER; MIDI_EVENT_PROGRAM_CHANGE;
                       MIDI_EVENT_CHAN_AFTERTOUCH; MIDI_EVENT_PITCH_BEND] /\
  ~ (event_type e = MIDI_EVENT_META /\ data_meta_type e = MIDI_META_SET_TEMPO).
Proof.
  assert (Hbit7 : forall ty x, Z.testbit ty 7 = true ->
            to_dword (Z.lor (Z.lor (Z.lor (Z.lor ty (data_channel e))
                                          (Z.shiftl (data_param1 e) 8))
                                   (Z.shiftl x 16))
                            (Z.shiftl MEVT_SHORTMSG 24)) <> 0).
  { intros ty x Hty. apply (testbit_nonzero _ 7). unfold to_dword.
    rewrite Z.mod_pow2_bits_low by lia. rewrite !Z.lor_spec, Hty. reflexivity. }
  assert (Hbit24 : forall x,
            to_dword (Z.lor x (Z.shiftl MEVT_TEMPO 24)) <> 0).
  { intros x. apply (testbit_nonzero _ 24). unfold to_dword.
    rewrite Z.mod_pow2_bits_low by lia. rewrite Z.lor_spec, Z.shiftl_spec by lia.
    apply orb_true_r. }
  split.
  - intros H. split.
    + intros Hin.
      assert (Hk : In (event_type e)
                     [MIDI_EVENT_NOTE_OFF; MIDI_EVENT_NOTE_ON; MIDI_EVENT_AFTERTOUCH;
                      MIDI_EVENT_CONTROLLER; MIDI_EVENT_PITCH_BEND] \/
                   In (event_type e)
                     [MIDI_EVENT_PROGRAM_CHANGE; MIDI_EVENT_CHAN_AFTERTOUCH])
        by (cbn [In] in *; tauto).
      assert (Hb : Z.testbit (event_type e) 7 = true).
      { cbn [In] in Hin.
        destruct Hin as [E|[E|[E|[E|[E|[E|[E|[]]]]]]]]; rewrite <- E; reflexivity. }
      destruct Hk as [Hk|Hk].
      * rewrite (event_dword_two_bytes e Hk) in H. exact (Hbit7 _ _ Hb H).
      * rewrite (event_dword_one_byte e Hk) in H. exact (Hbit7 _ _ Hb H).
    + intros [Hty Hmeta]. unfold event_dword in H. cbv zeta in H.
      rewrite Hty, Hmeta in H.
      change (MIDI_EVENT_META =? MIDI_EVENT_META) with true in H.
      change (MIDI_META_SET_TEMPO =? MIDI_META_SET_TEMPO) with true in H.
      cbv iota in H. exact (Hbit24 _ H).
  - intros [Hin Hmeta]. unfold event_dword. cbv zeta. cbn [In] in Hin.
    destruct (Z.eqb_spec (event_type e) MIDI_EVENT_META) as [E|E].
    + destruct (Z.eqb_spec (data_meta_type e) MIDI_META_SET_TEMPO) as [E'|E']; tauto.
    + repeat match goal with
             | |- context [?a =? ?b] =>
                 destruct (Z.eqb_spec a b); [exfalso; intuition congruence|]
             end.
      reflexivity.
Qed.

(** X18.  The volume test of FillBuffer looks at the low 16 bits of the
    word and not at its top byte.  The word of a set-tempo event with
    the data bytes b0, b1, b2 passes the test exactly when b1 is 7 and
    the high half of b2 is 0xB; FillBuffer then takes the low half of
    b2 for the channel and the low seven bits of b0 for the volume. *)
Theorem tempo_event_passes_volume_test e b0 b1 b2 rest :
  event_type e = MIDI_EVENT_META ->
  data e = meta_data MIDI_META_SET_TEMPO (b0 :: b1 :: b2 :: rest) ->
  0 <= b0 < 256 -> 0 <= b1 < 256 -> 0 <= b2 < 256 ->
  Z.shiftr (event_dword e) 24 = MEVT_TEMPO /\
  is_main_volume (event_dword e) =
    (Z.land b2 0xF0 =? MIDI_EVENT_CONTROLLER) && (b1 =? MIDI_CONTROLLER_MAIN_VOLUME) /\
  MIDIEVENT_CHANNEL (event_dword e) = Z.land b2 0xF /\
  MIDIEVENT_VOLUME (event_dword e) = Z.land b0 0x7F.
Proof.
  intros Hty Hdata H0 H1 H2.
  destruct (event_dword_tempo e b0 b1 b2 rest Hty Hdata H0 H1 H2) as (Hword & Htop & _).
  split; [exact Htop|].
  assert (Hlow : Z.land (event_dword e) 0xFF = b2).
  { rewrite Hword. change 0xFF with (Z.ones 8). rewrite Z.land_ones by lia.
    unfold MEVT_TEMPO. change (2 ^ 8) with 256. change (2 ^ 16) with 65536.
    change (2 ^ 24) with 16777216. Z.div_mod_to_equations. lia. }
  assert (Hmid : MIDIEVENT_DATA1 (event_dword e) = b1).
  { unfold MIDIEVENT_DATA1. rewrite Z.shiftr_land.
    change (Z.shiftr 0xFF00 8) with (Z.ones 8).
    rewrite Z.land_ones, Z.shiftr_div_pow2 by lia. rewrite Hword.
    unfold MEVT_TEMPO. change (2 ^ 8) with 256. change (2 ^ 16) with 65536.
    change (2 ^ 24) with 16777216. Z.div_mod_to_equations. lia. }
  assert (Htype : MIDIEVENT_TYPE (event_dword e) = Z.land b2 0xF0).
  { unfold MIDIEVENT_TYPE. rewrite <- Hlow, <- Z.land_assoc. reflexivity. }
  split; [unfold is_main_volume; rewrite Htype, Hmid; reflexivity|]. split.
  - unfold MIDIEVENT_CHANNEL. rewrite <- Hlow, <- Z.land_assoc. reflexivity.
  - unfold MIDIEVENT_VOLUME. rewrite Z.shiftr_land.
    change (Z.shiftr 0x7F0000 16) with (Z.ones 7). change 0x7F with (Z.ones 7).
    rewrite !Z.land_ones, Z.shiftr_div_pow2 by lia. rewrite Hword.
    unfold MEVT_TEMPO. change (2 ^ 7) with 128. change (2 ^ 8) with 256.
    change (2 ^ 16) with 65536. change (2 ^ 24) with 16777216.
    Z.div_mod_to_equations. lia.
Qed.

(** The tempo 0x0707B0 is such a tempo: a fill of a song of this one
    event, at the scale factor 1.0, writes the tempo 0x1207B0 into the
    window and records the volume 7 for channel 0. *)
Lemma tempo_event_passes_volume_test_witness :
  is_main_volume
    (event_dword {| event_type := MIDI_EVENT_META; delta_time := 0;
                    data := meta_data MIDI_META_SET_TEMPO [0x07; 0x07; 0xB0] |}) = true /\
  match FillBuffer
          (set_song initial_state
             {| native_events := [ {| dwDeltaTime := 0; dwStreamID := 0;
                                      dwEvent := 0x010707B0 |} ];
                num_events := 1; position := 0; looping := false |}) with
  | Ok s' => (map dwEvent (window s'), nth 0 (channel_volume s') 0)
  | _ => ([], 0)
  end = ([0x011207B0], 7).
Proof.
  split; [|vm_compute; reflexivity].
  destruct (tempo_event_passes_volume_test
              {| event_type := MIDI_EVENT_META; delta_time := 0;
                 data := meta_data MIDI_META_SET_TEMPO [0x07; 0x07; 0xB0] |}
              0x07 0x07 0xB0 [] eq_refl eq_refl ltac:(lia) ltac:(lia) ltac:(lia))
    as (_ & H & _).
  rewrite H. reflexivity.
Defined.

(* ================================================================== *)
(** * What the merge consumes and what it writes *)
(* ================================================================== *)

Lemma MIDItoStream_loop_trace fuel : forall tracks ct g g' tr,
  MIDItoStream_loop fuel tracks ct g = Ok (g', tr) ->
  Forall (trace_entry_ok (length tracks)) tr /\
  num_events g' = num_events g + Z.of_nat (length (emitted tr)) /\
  length (native_events g') = length (native_events g) /\
  (emitted tr <> [] ->
   0 <= num_events g /\ num_events g' <= Z.of_nat (length (native_events g))) /\
  (emitted tr = [] -> g' = g).
Proof.
  induction fuel as [|fuel IH]; intros tracks ct g g' tr Hrun; [discriminate|].
  destruct (find_min tracks 0 INT_MAX (-1)) as [m idx] eqn:Hfm.
  destruct (MIDItoStream_loop_step _ _ _ _ _ _ Hrun m idx Hfm)
    as [(_ & -> & ->)|(Hne & Hidx & trk & it & Hk & Hit & Hlen & Hstep)].
  - split; [constructor|]. cbn. split; [lia|]. split; [reflexivity|].
    split; [congruence|reflexivity].
  - destruct it as [|e it'].
    + destruct (IH _ _ _ _ _ Hstep) as (Ha & Hb). rewrite list_set_length in Ha.
      split; [exact Ha|exact Hb].
    + destruct Hstep as (tr' & -> & Hstep). cbv zeta in Hstep.
      assert (Hc : trace_entry_ok (length tracks)
                     {| c_track := idx; c_time := m; c_event := e;
                        c_data := event_dword e |}).
      { split; cbn; [lia|reflexivity]. }
      rewrite emitted_cons. cbn [c_data].
      destruct (event_dword e =? 0) eqn:Hd.
      * destruct (IH _ _ _ _ _ Hstep) as (Ha & Hb). rewrite list_set_length in Ha.
        split; [constructor; assumption|exact Hb].
      * destruct Hstep as (evs & Hset & Hstep).
        apply array_set_inv in Hset. destruct Hset as [Hbound ->].
        destruct (IH _ _ _ _ _ Hstep) as (Ha & Hnum & Hl & Hroom & _).
        rewrite list_set_length in Ha. cbn in Hnum, Hl, Hroom.
        rewrite list_set_length in Hl, Hroom.
        split; [constructor; assumption|]. cbn [length].
        split; [lia|]. split; [exact Hl|]. split; [|discriminate].
        intros _. split; [lia|].
        destruct (emitted tr') as [|c0 em] eqn:Hem.
        -- cbn in Hnum. lia.
        -- apply Hroom. discriminate.
Qed.

Lemma MIDItoStream_loop_fuel fuel : forall tracks ct g,
  (remaining tracks + open_tracks tracks < fuel)%nat ->
  MIDItoStream_loop fuel tracks ct g <> OutOfFuel.
Proof.
  induction fuel as [|fuel IH]; intros tracks ct g Hfuel; [lia|].
  cbn [MIDItoStream_loop].
  destruct (find_min tracks 0 INT_MAX (-1)) as [m idx] eqn:Hfm.
  destruct (find_min_spec _ _ _ _ _ _ Hfm)
    as [(-> & -> & _)|(k & trk & -> & Hk & Hc & _ & _)].
  - cbn. discriminate.
  - replace (0 + Z.of_nat k =? -1) with false by (symmetry; apply Z.eqb_neq; lia).
    assert (Hlen : (k < length tracks)%nat) by (apply nth_error_Some; congruence).
    assert (Hget : array_get tracks (0 + Z.of_nat k) = Ok trk).
    { apply array_get_Ok. split; [lia|]. now replace (Z.to_nat (0 + Z.of_nat k)) with k by lia. }
    rewrite Hget. cbn [bind].
    destruct (candidate_open _ _ Hc) as [it Hit]. rewrite Hit.
    set (f1 := fun trk : win_midi_track_t =>
                 match iter trk with Some it => length it | None => O end).
    set (f2 := fun trk : win_midi_track_t =>
                 match iter trk with Some _ => 1%nat | None => O end).
    destruct it as [|e it']; cbn [MIDI_GetNextEvent].
    + rewrite array_set_Ok by lia. cbn [bind].
      replace (Z.to_nat (0 + Z.of_nat k)) with k by lia.
      set (trk' := {| iter := None; absolute_time := m |}).
      pose proof (list_sum_list_set f1 tracks k trk' trk Hk) as H1.
      pose proof (list_sum_list_set f2 tracks k trk' trk Hk) as H2.
      unfold f1, f2 in H1, H2. rewrite Hit in H1, H2. cbn in H1, H2.
      fold (remaining (list_set tracks k trk')) in H1.
      fold (open_tracks (list_set tracks k trk')) in H2.
      fold (remaining tracks) in H1. fold (open_tracks tracks) in H2.
      apply IH. lia.
    + rewrite array_set_Ok by lia. cbn [bind]. cbv zeta.
      replace (Z.to_nat (0 + Z.of_nat k)) with k by lia.
      set (trk' := {| iter := @Some midi_track_iter_t it'; absolute_time := m |}).
      pose proof (list_sum_list_set f1 tracks k trk' trk Hk) as H1.
      pose proof (list_sum_list_set f2 tracks k trk' trk Hk) as H2.
      unfold f1, f2 in H1, H2. rewrite Hit in H1, H2. cbn in H1, H2.
      fold (remaining (list_set tracks k trk')) in H1.
      fold (open_tracks (list_set tracks k trk')) in H2.
      fold (remaining tracks) in H1. fold (open_tracks tracks) in H2.
      assert (Hrec : forall ct1 g1,
                MIDItoStream_loop fuel (list_set tracks k trk') ct1 g1 <> OutOfFuel)
        by (intros; apply IH; lia).
      destruct (event_dword e =? 0).
      * specialize (Hrec ct g).
        destruct (MIDItoStream_loop fuel (list_set tracks k trk') ct g);
          cbn [bind]; congruence.
      * unfold array_set at 1.
        destruct ((0 <=? num_events g) &&
                  (num_events g <? Z.of_nat (length (native_events g))));
          cbn [bind]; [|discriminate].
        match goal with
        | |- context [set_events g ?evs _] =>
            specialize (Hrec m (set_events g evs (num_events g + 1)))
        end.
        destruct (MIDItoStream_loop fuel (list_set tracks k trk') m _);
          cbn [bind]; congruence.
Qed.

Lemma list_sum_map_add {A} (g h : A -> nat) l :
  list_sum (map (fun k => (g k + h k)%nat) l) =
  (list_sum (map g l) + list_sum (map h l))%nat.
Proof.
  unfold list_sum. induction l as [|x l IH]; cbn [map fold_right]; [reflexivity|].
  rewrite IH. lia.
Qed.

Lemma list_sum_indicator j d n : forall a,
  list_sum (map (fun k => if Nat.eqb k j then d else O) (seq a n)) =
  if ((a <=? j) && (j <? a + n))%nat then d else O.
Proof.
  unfold list_sum. induction n as [|n IH]; intros a; cbn [seq map fold_right].
  - destruct (Nat.leb_spec a j); destruct (Nat.ltb_spec j (a + 0)); cbn; lia.
  - rewrite IH.
    destruct (Nat.eqb_spec a j); destruct (Nat.leb_spec a j);
      destruct (Nat.leb_spec (S a) j); destruct (Nat.ltb_spec j (S a + n));
      destruct (Nat.ltb_spec j (a + S n)); cbn; lia.
Qed.

Lemma list_sum_map_ext {A} (g h : A -> nat) l :
  (forall x, In x l -> g x = h x) -> list_sum (map g l) = list_sum (map h l).
Proof.
  unfold list_sum. induction l as [|x l IH]; intros H; cbn [map fold_right]; [reflexivity|].
  rewrite (H x) by (left; reflexivity). rewrite IH; [reflexivity|].
  intros y Hy. apply H. right. exact Hy.
Qed.

(** The entries of a trace, counted track by track. *)
Lemma of_track_count (f : consumed_t -> bool) n tr :
  Forall (trace_entry_ok n) tr ->
  length (filter f tr) =
  list_sum (map (fun k => length (filter f (of_track k tr))) (seq 0 n)).
Proof.
  induction 1 as [|c tr [Hc _] Htr IH].
  - cbn [filter length]. unfold list_sum.
    induction (seq 0 n) as [|k l IHl]; cbn [map fold_right]; [reflexivity|].
    rewrite <- IHl. reflexivity.
  - set (j := Z.to_nat (c_track c)).
    set (d := if f c then 1%nat else O).
    rewrite (list_sum_map_ext _
               (fun k => (length (filter f (of_track k tr)) +
                          (if Nat.eqb k j then d else O))%nat)).
    + rewrite list_sum_map_add, list_sum_indicator, <- IH.
      destruct (Nat.leb_spec 0 j); [|lia].
      destruct (Nat.ltb_spec j (0 + n)); [|lia].
      cbn [andb filter]. unfold d. destruct (f c); cbn [length]; lia.
    + intros k _. rewrite of_track_cons.
      destruct (Z.eqb_spec (c_track c) (Z.of_nat k)) as [E|E];
        destruct (Nat.eqb_spec k j) as [E'|E']; try lia.
      cbn [filter]. unfold d. destruct (f c); cbn [length]; lia.
Qed.

Lemma list_sum_seq_nth {A} (F : nat -> nat) (G : A -> nat) (l : list A) : forall a,
  (forall k x, nth_error l k = Some x -> F (a + k)%nat = G x) ->
  list_sum (map F (seq a (length l))) = list_sum (map G l).
Proof.
  unfold list_sum.
  induction l as [|x l IH]; intros a H; cbn [length seq map fold_right]; [reflexivity|].
  rewrite (IH (S a)).
  - specialize (H O x eq_refl). rewrite Nat.add_0_r in H. rewrite H. reflexivity.
  - intros k y Hk. specialize (H (S k) y Hk).
    replace (S a + k)%nat with (a + S k)%nat by lia. exact H.
Qed.

Lemma filter_all {A} (l : list A) : filter (fun _ => true) l = l.
Proof. induction l as [|x l IH]; cbn; [reflexivity|]. now rewrite IH. Qed.

Lemma emitted_supported l :
  Forall (fun c => c_data c = event_dword (c_event c)) l ->
  map c_event (filter (fun c => negb (c_data c =? 0)) l) =
  filter supported (map c_event l).
Proof.
  induction 1 as [|c l Hc Hl IH]; cbn [filter map]; [reflexivity|].
  unfold supported at 1. rewrite <- Hc.
  destruct (negb (c_data c =? 0)); cbn [map]; now rewrite IH.
Qed.

Lemma length_IterateTrack file :
  length (MIDI_IterateTrack file) = length (file_tracks file).
Proof. unfold MIDI_IterateTrack. apply length_map. Qed.

Lemma MIDItoStream_traced_complete file g g' tr :
  times_fit file -> MIDItoStream_traced file g = Ok (g', tr) ->
  length tr = MIDI_NumEvents file /\
  length (emitted tr) = MIDI_NumSupported file /\
  (forall k trk, nth_error (file_tracks file) k = Some trk ->
                 map c_event (of_track k tr) = trk) /\
  Forall (trace_entry_ok (length (file_tracks file))) tr.
Proof.
  intros Hfit Hrun. unfold MIDItoStream_traced in Hrun.
  destruct (MIDItoStream_loop_ordered _ _ _ _ _ _ Hrun (times_fit_IterateTrack _ Hfit))
    as (Ha & _).
  destruct (MIDItoStream_loop_trace _ _ _ _ _ _ Hrun) as (Htr & _).
  rewrite length_IterateTrack in Htr.
  assert (Htracks : forall k trk, nth_error (file_tracks file) k = Some trk ->
                                  map c_event (of_track k tr) = trk).
  { intros k trk Hk.
    rewrite (Ha k {| iter := Some trk; absolute_time := 0 |}); [reflexivity|].
    unfold MIDI_IterateTrack. rewrite nth_error_map, Hk. reflexivity. }
  assert (Hdata : forall k, Forall (fun c => c_data c = event_dword (c_event c))
                                   (of_track k tr)).
  { intros k. apply Forall_forall. intros c Hc. unfold of_track in Hc.
    apply filter_In in Hc. destruct Hc as [Hc _].
    rewrite Forall_forall in Htr. apply (Htr c Hc). }
  split; [|split; [|split; [exact Htracks|exact Htr]]].
  - rewrite <- (filter_all tr) at 1.
    rewrite (of_track_count _ _ _ Htr).
    unfold MIDI_NumEvents. apply list_sum_seq_nth.
    intros k trk Hk. cbn [Nat.add]. rewrite filter_all.
    rewrite <- (Htracks k trk Hk). now rewrite length_map.
  - unfold emitted. rewrite (of_track_count _ _ _ Htr).
    unfold MIDI_NumSupported. apply list_sum_seq_nth.
    intros k trk Hk. cbn [Nat.add].
    rewrite <- (length_map c_event), (emitted_supported _ (Hdata k)).
    now rewrite (Htracks k trk Hk).
Qed.

Lemma times_fit_two_track : times_fit two_track_file.
Proof.
  unfold times_fit, two_track_file, file_tracks, INT_MAX.
  repeat constructor; cbn; lia.
Qed.

(** X10.  On a file whose absolute times stay below INT_MAX, merged into
    a song with no events, MIDItoStream consumes every event of the
    file exactly once, the events of each track in the order of the
    track, and it writes exactly one output event for every event of a
    kind it keeps and none for the others: the event count of the song
    is the number of kept events of the file. *)
Theorem merge_consumes_every_event file g :
  times_fit file -> num_events g = 0 ->
  exists g' tr,
    MIDItoStream_traced file g = Ok (g', tr) /\
    length tr = MIDI_NumEvents file /\
    (forall k trk, nth_error (file_tracks file) k = Some trk ->
                   map c_event (of_track k tr) = trk) /\
    Forall (fun c => 0 <= c_track c < MIDI_NumTracks file /\
                     c_data c = event_dword (c_event c)) tr /\
    num_events g' = Z.of_nat (MIDI_NumSupported file) /\
    length (song_events g') = MIDI_NumSupported file /\
    map dwEvent (song_events g') =
      map (fun c => event_dword (c_event c)) (emitted tr).
Proof.
  intros Hfit Hn.
  destruct (MIDItoStream_traced_total file g Hn)
    as (g' & tr & Hrun & _ & Hev & Hnum & _).
  destruct (MIDItoStream_traced_complete file g g' tr Hfit Hrun) as (H1 & H2 & H3 & H4).
  exists g', tr. split; [exact Hrun|]. split; [exact H1|]. split; [exact H3|].
  split; [exact H4|]. split; [congruence|].
  assert (Hd : map dwEvent (song_events g') = map c_data (emitted tr)).
  { rewrite Hev. apply encode_dwEvent. }
  split.
  - apply (f_equal (@length Z)) in Hd. rewrite !length_map in Hd. congruence.
  - rewrite Hd. apply map_ext_in. intros c Hc. unfold emitted in Hc.
    apply filter_In in Hc. destruct Hc as [Hc _].
    rewrite Forall_forall in H4. apply (H4 c Hc).
Qed.

Lemma merge_consumes_every_event_witness :
  exists g' tr,
    MIDItoStream_traced two_track_file fresh_song = Ok (g', tr) /\
    length tr = 5%nat /\ num_events g' = 5.
Proof.
  destruct (merge_consumes_every_event two_track_file fresh_song
              times_fit_two_track eq_refl)
    as (g' & tr & H1 & H2 & _ & _ & H5 & _).
  exists g', tr. split; [exact H1|]. split; [exact H2|exact H5].
Defined.

(** X11.  MIDItoStream does not reset the event count: it writes the
    first output event at the index the count has when it starts, into
    an array sized for the new file alone.  On a file whose absolute
    times stay below INT_MAX and which has an event of a kind the
    merge keeps, a count left over from an earlier song that, added to
    the number of kept events, exceeds the number of events of the
    file makes the merge write past the end of the array. *)
Theorem merge_overruns_with_stale_count file g :
  times_fit file -> (1 <= MIDI_NumSupported file)%nat ->
  Z.of_nat (MIDI_NumEvents file) < num_events g + Z.of_nat (MIDI_NumSupported file) ->
  MIDItoStream_traced file g = Undefined.
Proof.
  intros Hfit Hsup Hover.
  destruct (MIDItoStream_traced file g) as [[g' tr]| |] eqn:Hrun; [exfalso| reflexivity |exfalso].
  - destruct (MIDItoStream_traced_complete file g g' tr Hfit Hrun) as (_ & H2 & _).
    unfold MIDItoStream_traced in Hrun.
    destruct (MIDItoStream_loop_trace _ _ _ _ _ _ Hrun) as (_ & Hnum & _ & Hroom & _).
    cbn [num_events native_events set_events] in Hnum, Hroom.
    rewrite repeat_length in Hroom.
    destruct Hroom as [_ Hroom]; [|lia].
    intros Hnil. rewrite Hnil in H2. cbn in H2. lia.
  - unfold MIDItoStream_traced in Hrun. revert Hrun. apply MIDItoStream_loop_fuel.
    rewrite remaining_IterateTrack, open_tracks_IterateTrack.
    unfold MIDItoStream_fuel. lia.
Qed.

Lemma merge_overruns_with_stale_count_witness :
  MIDItoStream_traced two_track_file note_song = Undefined.
Proof.
  apply (merge_overruns_with_stale_count two_track_file note_song times_fit_two_track).
  - vm_compute. lia.
  - vm_compute. reflexivity.
Defined.

(** X12.  The scan for the next event only takes a candidate time below
    INT_MAX.  When the next event of every open track falls at the
    absolute time INT_MAX exactly, the scan finds no track, and the
    loop ends as it does when every track is closed: the song is left
    as it is and the events still in the tracks are never consumed. *)
Theorem merge_stops_at_INT_MAX fuel tracks ct g :
  Forall (fun trk => candidate trk = None \/ candidate trk = Some INT_MAX) tracks ->
  find_min tracks 0 INT_MAX (-1) = (INT_MAX, -1) /\
  MIDItoStream_loop (S fuel) tracks ct g = Ok (g, []).
Proof.
  intros Hall.
  assert (Hfm : find_min tracks 0 INT_MAX (-1) = (INT_MAX, -1)).
  { destruct (find_min tracks 0 INT_MAX (-1)) as [m idx] eqn:Hfm.
    destruct (find_min_spec _ _ _ _ _ _ Hfm)
      as [(-> & -> & _)|(k & trk & _ & Hk & Hc & Hlt & _)]; [reflexivity|].
    rewrite Forall_forall in Hall.
    destruct (Hall trk (nth_error_In _ _ Hk)) as [H|H]; rewrite H in Hc; [discriminate|].
    injection Hc as <-. lia. }
  split; [exact Hfm|]. cbn [MIDItoStream_loop]. rewrite Hfm. reflexivity.
Qed.

Lemma merge_stops_at_INT_MAX_witness :
  MIDItoStream_loop 1
    [ {| iter := Some [note_on 7 1]; absolute_time := 0x7FFFFFF8 |} ] 0 fresh_song =
  Ok (fresh_song, []).
Proof.
  apply (merge_stops_at_INT_MAX 0
           [ {| iter := Some [note_on 7 1]; absolute_time := 0x7FFFFFF8 |} ] 0 fresh_song).
  constructor; [right; reflexivity|constructor].
Defined.

(* ================================================================== *)
(** * The volume the slider sets *)
(* ================================================================== *)

Lemma volume_message_fields i c :
  0 <= i < 16 -> 0 <= c <= 127 -> volume_message_ok i c = true.
Proof.
  intros Hi Hc.
  assert (H : forallb (fun i => forallb (fun c => volume_message_ok (Z.of_nat i) (Z.of_nat c))
                                        (seq 0 128)) (seq 0 16) = true)
    by (vm_compute; reflexivity).
  rewrite forallb_forall in H. specialize (H (Z.to_nat i) ltac:(apply in_seq; lia)).
  rewrite forallb_forall in H. specialize (H (Z.to_nat c) ltac:(apply in_seq; lia)).
  rewrite !Z2Nat.id in H by lia. exact H.
Qed.

Lemma corrected_Ok v f : F32.in_unit f -> 0 <= v <= 127 ->
  corrected_volume v f = Ok (corrected v f) /\ 0 <= corrected v f <= 127 /\
  corrected v f = nth (Z.to_nat (index_of v f)) volume_correction 0 /\
  0 <= index_of v f <= v.
Proof.
  intros Hf Hv. destruct (corrected_volume_ok v f Hf Hv) as (c & Hc & Hr & Ht & Hb).
  unfold corrected. rewrite Hc. split; [reflexivity|]. split; [exact Hr|].
  split; [|exact Hb].
  rewrite (array_get_nth _ _ 0) in Ht by (change (length volume_correction) with 128%nat; lia).
  congruence.
Qed.

Lemma volume_messages_sem n f : forall i cv,
  F32.in_unit f -> 0 <= i -> i + Z.of_nat n <= Z.of_nat (length cv) ->
  Forall (fun v => 0 <= v <= 127) cv ->
  volume_messages n i cv f =
    Ok (map (fun k => volume_message (Z.of_nat k) (corrected (nth k cv 0) f))
            (seq (Z.to_nat i) n)).
Proof.
  induction n as [|n IH]; intros i cv Hf Hi Hlen Hall; cbn [volume_messages seq map];
    [reflexivity|].
  rewrite (array_get_nth cv i 0) by lia. cbn [bind].
  assert (Hv : 0 <= nth (Z.to_nat i) cv 0 <= 127).
  { rewrite Forall_forall in Hall. apply Hall. apply nth_In. lia. }
  destruct (corrected_Ok _ f Hf Hv) as (-> & _). cbn [bind].
  rewrite IH by (try assumption; lia). cbn [bind].
  replace (Z.to_nat (i + 1)) with (S (Z.to_nat i)) by lia.
  unfold volume_message. rewrite Z2Nat.id by lia. reflexivity.
Qed.

(** X13.  For a slider of 2 to 255 levels and a level of the slider,
    I_WIN_SetMusicVolume on a state with 16 recorded channel volumes in
    0..127 sets the scale factor of the level and sends exactly 16
    messages, one for each channel in channel order; the message of
    channel k is a main volume controller message for channel k whose
    volume field is the corrected volume of the volume recorded for
    channel k, a number in 0..127.  The song, the buffer, the recorded
    volumes, the signals and the thread handle are not changed. *)
Theorem SetMusicVolume_messages M volume s :
  2 <= M <= 255 -> 0 <= volume <= M ->
  Z.of_nat (length (channel_volume s)) = MIDI_CHANNELS_PER_TRACK ->
  Forall (fun v => 0 <= v <= 127) (channel_volume s) ->
  exists s',
    I_WIN_SetMusicVolume M volume s = Ok s' /\
    volume_factor s' = volume_factor_of M volume /\
    song s' = song s /\ buffer s' = buffer s /\
    channel_volume s' = channel_volume s /\
    hBufferReturnEvent s' = hBufferReturnEvent s /\ hExitEvent s' = hExitEvent s /\
    hPlayerThread s' = hPlayerThread s /\
    device s' =
      device s ++
      map (fun k => midiOutShortMsg
                      (volume_message (Z.of_nat k)
                         (corrected (nth k (channel_volume s) 0)
                                    (volume_factor_of M volume))))
          (seq 0 16) /\
    forall k, (k < 16)%nat ->
      let c := corrected (nth k (channel_volume s) 0) (volume_factor_of M volume) in
      let m := volume_message (Z.of_nat k) c in
      corrected_volume (nth k (channel_volume s) 0) (volume_factor_of M volume) = Ok c /\
      0 <= c <= 127 /\
      MIDIEVENT_TYPE m = MIDI_EVENT_CONTROLLER /\
      MIDIEVENT_CHANNEL m = Z.of_nat k /\
      MIDIEVENT_DATA1 m = MIDI_CONTROLLER_MAIN_VOLUME /\
      MIDIEVENT_VOLUME m = c.
Proof.
  intros HM Hvol Hlen Hcv.
  destruct (volume_factor_of_range M volume HM Hvol) as [Hu _].
  unfold I_WIN_SetMusicVolume. cbv zeta.
  change (volume_factor (set_volume_factor s (volume_factor_of M volume)))
    with (volume_factor_of M volume).
  change (channel_volume (set_volume_factor s (volume_factor_of M volume)))
    with (channel_volume s).
  rewrite (volume_messages_sem _ _ 0 (channel_volume s) Hu ltac:(lia))
    by (try exact Hcv; unfold MIDI_CHANNELS_PER_TRACK in *; cbn; lia).
  cbn [bind]. eexists. split; [reflexivity|].
  match goal with
  | |- context [fold_left _ ?msgs ?s0] =>
      destruct (fold_call_device msgs s0) as (A1 & A2 & A3 & A4 & A5 & A6 & A7 & A8)
  end.
  cbv zeta in A1, A2, A3, A4, A5, A6, A7, A8.
  split; [exact A2|]. split; [exact A1|]. split; [exact A4|]. split; [exact A3|].
  split; [exact A5|]. split; [exact A6|]. split; [exact A7|]. split.
  - rewrite A8, map_map. reflexivity.
  - intros k Hk. cbv zeta.
    assert (Hv : 0 <= nth k (channel_volume s) 0 <= 127).
    { rewrite Forall_forall in Hcv. apply Hcv. apply nth_In.
      unfold MIDI_CHANNELS_PER_TRACK in Hlen. lia. }
    destruct (corrected_Ok _ _ Hu Hv) as (Hc & Hr & _).
    split; [exact Hc|]. split; [exact Hr|].
    pose proof (volume_message_fields (Z.of_nat k) _ ltac:(lia) Hr) as H.
    unfold volume_message_ok in H. cbv zeta in H.
    repeat (apply andb_true_iff in H; destruct H as [H ?]).
    repeat split; apply Z.eqb_eq; assumption.
Qed.

Lemma SetMusicVolume_messages_witness :
  exists s',
    I_WIN_SetMusicVolume 15 8 (set_channel_volume initial_state (repeat 100 16)) = Ok s' /\
    length (device s') = 16%nat.
Proof.
  destruct (SetMusicVolume_messages 15 8
              (set_channel_volume initial_state (repeat 100 16)))
    as (s' & H1 & _ & _ & _ & _ & _ & _ & _ & H9 & _).
  - lia.
  - lia.
  - reflexivity.
  - apply Forall_forall. intros x Hx. apply repeat_spec in Hx. subst x. lia.
  - exists s'. split; [exact H1|]. rewrite H9, length_app, length_map, length_seq.
    reflexivity.
Defined.

Lemma factor_list_nth M k : (k <= Z.to_nat M)%nat ->
  nth k (factor_list M) F32.zero = volume_factor_of M (Z.of_nat k).
Proof.
  intros Hk. unfold factor_list. cbv zeta. destruct k as [|n]; [reflexivity|].
  cbn [nth].
  rewrite (nth_indep _ F32.zero
             (F32.add MIDI_MINVOL
                (F32.mul (MIDI_INCREMENT M) (F32.of_int (Z.of_nat 0)))))
    by (rewrite length_map, length_seq; lia).
  rewrite (map_nth (fun n => F32.add MIDI_MINVOL
                               (F32.mul (MIDI_INCREMENT M) (F32.of_int (Z.of_nat n))))).
  rewrite seq_nth by lia. unfold volume_factor_of.
  replace (Z.of_nat (S n) =? 0) with false by (symmetry; apply Z.eqb_neq; lia).
  replace (Z.of_nat (S n) - 1) with (Z.of_nat (0 + n)) by lia. reflexivity.
Qed.

Lemma factor_steps_all M : 2 <= M <= 255 -> factor_steps_ok M = true.
Proof.
  intros HM.
  assert (H : forallb (fun n => factor_steps_ok (Z.of_nat n)) (seq 2 254) = true)
    by (vm_compute; reflexivity).
  rewrite forallb_forall in H. specialize (H (Z.to_nat M) ltac:(apply in_seq; lia)).
  rewrite Z2Nat.id in H by lia. exact H.
Qed.

Lemma same_float_eq a b : same_float a b = true -> a = b.
Proof.
  destruct a as [| | |s m e]; destruct b as [| | |s' m' e']; cbn; try discriminate.
  intros H. apply andb_true_iff in H. destruct H as [H He].
  apply andb_true_iff in H. destruct H as [Hs Hm].
  apply Bool.eqb_prop in Hs. apply Pos.eqb_eq in Hm. apply Z.eqb_eq in He.
  congruence.
Qed.

Lemma val_scaled f : F32.in_unit f -> val f = scaled f * 2 ^ (U - 149).
Proof.
  intros H. destruct (in_unit_inv f H) as [[s ->]|(m & e & -> & He & _)]; [reflexivity|].
  unfold val, scaled. rewrite Z.shiftl_mul_pow2 by lia.
  rewrite <- Z.mul_assoc, <- Z.pow_add_r by (unfold U; lia).
  do 2 f_equal. lia.
Qed.

Lemma volume_factor_of_steps M : 2 <= M <= 255 ->
  (forall a b, 0 <= a -> a <= b -> b <= M ->
     val (volume_factor_of M a) <= val (volume_factor_of M b)) /\
  volume_factor_of M 1 = MIDI_MINVOL /\ volume_factor_of M M = MIDI_MAXVOL.
Proof.
  intros HM. pose proof (factor_steps_all M HM) as H.
  unfold factor_steps_ok in H. cbv zeta in H.
  apply andb_true_iff in H. destruct H as [H Hmax].
  apply andb_true_iff in H. destruct H as [Hstep Hmin].
  apply same_float_eq in Hmin, Hmax.
  rewrite factor_list_nth in Hmin, Hmax by lia.
  rewrite Z2Nat.id in Hmax by lia. change (Z.of_nat 1) with 1 in Hmin.
  split; [|split; assumption].
  rewrite forallb_forall in Hstep.
  assert (Hone : forall n, (n < Z.to_nat M)%nat ->
            val (volume_factor_of M (Z.of_nat n)) <=
            val (volume_factor_of M (Z.of_nat (S n)))).
  { intros n Hn. specialize (Hstep n ltac:(apply in_seq; lia)).
    apply Z.leb_le in Hstep.
    assert (E : forall k, nth k (map scaled (factor_list M)) 0 =
                          scaled (nth k (factor_list M) F32.zero))
      by (intros k; exact (map_nth scaled (factor_list M) F32.zero k)).
    rewrite !E, !factor_list_nth in Hstep by lia.
    rewrite !val_scaled by (apply volume_factor_of_range; lia).
    apply Z.mul_le_mono_nonneg_r; [apply Z.pow_nonneg; lia|exact Hstep]. }
  assert (Hnat : forall d a, (a + d <= Z.to_nat M)%nat ->
            val (volume_factor_of M (Z.of_nat a)) <=
            val (volume_factor_of M (Z.of_nat (a + d)))).
  { induction d as [|d IH]; intros a Ha.
    - rewrite Nat.add_0_r. lia.
    - specialize (IH a ltac:(lia)). specialize (Hone (a + d)%nat ltac:(lia)).
      replace (a + S d)%nat with (S (a + d)) by lia. lia. }
  intros a b Ha Hab Hb.
  specialize (Hnat (Z.to_nat (b - a)) (Z.to_nat a) ltac:(lia)).
  replace (Z.to_nat a + Z.to_nat (b - a))%nat with (Z.to_nat b) in Hnat by lia.
  rewrite !Z2Nat.id in Hnat by lia. exact Hnat.
Qed.

Lemma index_of_mono_factor v f1 f2 :
  0 <= v -> val f1 <= val f2 -> index_of v f1 <= index_of v f2.
Proof.
  intros Hv Hf. pose proof (val_nonneg f1). unfold index_of.
  apply Z.div_le_mono; [apply Z.pow_pos_nonneg; unfold U; lia|].
  apply RND_mono. nia.
Qed.

(** X14.  For a slider of 2 to 255 levels: level 0 gives the scale
    factor 0.0, level 1 gives exactly MIDI_MINVOL (0.20f), the top
    level gives exactly MIDI_MAXVOL (0.75f), and raising the level
    never lowers what is sent to the device: for every volume 0..127
    and levels a <= b of the slider, the corrected volume at level a is
    at most the corrected volume at level b. *)
Theorem slider_is_monotone M a b v :
  2 <= M <= 255 -> 0 <= a -> a <= b -> b <= M -> 0 <= v <= 127 ->
  volume_factor_of M 0 = F32.zero /\
  volume_factor_of M 1 = MIDI_MINVOL /\
  volume_factor_of M M = MIDI_MAXVOL /\
  exists ca cb,
    corrected_volume v (volume_factor_of M a) = Ok ca /\
    corrected_volume v (volume_factor_of M b) = Ok cb /\ ca <= cb.
Proof.
  intros HM Ha Hab Hb Hv.
  destruct (volume_factor_of_steps M HM) as (Hsteps & Hmin & Hmax).
  split; [reflexivity|]. split; [exact Hmin|]. split; [exact Hmax|].
  destruct (volume_factor_of_range M a HM ltac:(lia)) as [Hua _].
  destruct (volume_factor_of_range M b HM ltac:(lia)) as [Hub _].
  destruct (corrected_Ok v _ Hua Hv) as (Hca & _ & Hta & Hba).
  destruct (corrected_Ok v _ Hub Hv) as (Hcb & _ & Htb & Hbb).
  exists (corrected v (volume_factor_of M a)), (corrected v (volume_factor_of M b)).
  split; [exact Hca|]. split; [exact Hcb|].
  rewrite Hta, Htb. apply table_monotone.
  pose proof (index_of_mono_factor v _ _ ltac:(lia) (Hsteps a b Ha Hab Hb)). lia.
Qed.

Lemma slider_is_monotone_witness :
  exists ca cb,
    corrected_volume 100 (volume_factor_of 15 3) = Ok ca /\
    corrected_volume 100 (volume_factor_of 15 12) = Ok cb /\ ca <= cb.
Proof.
  apply (slider_is_monotone 15 3 12 100); lia.
Defined.

Lemma volume_index_one v : 0 <= v <= 127 -> volume_index v F32.one = Ok v.
Proof.
  intros Hv.
  assert (H : forallb (fun n => match volume_index (Z.of_nat n) F32.one with
                                | Ok i => i =? Z.of_nat n
                                | _ => false
                                end) (seq 0 128) = true)
    by (vm_compute; reflexivity).
  rewrite forallb_forall in H. specialize (H (Z.to_nat v) ltac:(apply in_seq; lia)).
  rewrite Z2Nat.id in H by lia.
  destruct (volume_index v F32.one) as [i| |]; try discriminate.
  apply Z.eqb_eq in H. congruence.
Qed.

(** X15.  The scale factor never amplifies: at scale factor 1.0, the
    value of a start without any call of I_WIN_SetMusicVolume, the
    index into the correction table is the volume itself, so the
    corrected volume of v is table[v]; at any scale factor in [0,1] the
    index is at most v and the corrected volume is at most table[v];
    at scale factor 0.0 it is 0. *)
Theorem corrected_volume_at_most_table f v :
  F32.in_unit f -> 0 <= v <= 127 ->
  exists c i,
    volume_index v f = Ok i /\ 0 <= i <= v /\
    corrected_volume v f = Ok c /\
    corrected_volume v F32.one = Ok (nth (Z.to_nat v) volume_correction 0) /\
    corrected_volume v F32.zero = Ok 0 /\
    0 <= c <= nth (Z.to_nat v) volume_correction 0.
Proof.
  intros Hf Hv.
  destruct (corrected_Ok v f Hf Hv) as (Hc & Hr & Ht & Hb).
  exists (corrected v f), (index_of v f).
  split; [apply volume_index_sem; assumption|]. split; [exact Hb|].
  split; [exact Hc|]. split; [|split].
  - unfold corrected_volume. rewrite volume_index_one by exact Hv. cbn [bind].
    apply array_get_nth. change (length volume_correction) with 128%nat. lia.
  - apply corrected_volume_mute. unfold INT_MIN, INT_MAX. lia.
  - split; [lia|]. rewrite Ht. apply table_monotone. lia.
Qed.

Lemma corrected_volume_at_most_table_witness :
  exists c i,
    volume_index 100 MIDI_MAXVOL = Ok i /\ 0 <= i <= 100 /\
    corrected_volume 100 MIDI_MAXVOL = Ok c /\ 0 <= c <= 86.
Proof.
  destruct (corrected_volume_at_most_table MIDI_MAXVOL 100) as (c & i & H1 & H2 & H3 & _ & _ & H6).
  - repeat split; reflexivity.
  - lia.
  - exists c, i. split; [exact H1|]. split; [exact H2|]. split; [exact H3|exact H6].
Defined.

Lemma SetMusicVolume_mute_state M s :
  Z.of_nat (length (channel_volume s)) = MIDI_CHANNELS_PER_TRACK ->
  Forall (fun v => INT_MIN <= v <= INT_MAX) (channel_volume s) ->
  exists s',
    I_WIN_SetMusicVolume M 0 s = Ok s' /\
    volume_factor s' = F32.zero /\ song s' = song s /\ buffer s' = buffer s /\
    channel_volume s' = channel_volume s.
Proof.
  intros Hlen Hall. unfold I_WIN_SetMusicVolume. cbv zeta.
  change (volume_factor_of M 0) with F32.zero.
  change (volume_factor (set_volume_factor s F32.zero)) with F32.zero.
  change (channel_volume (set_volume_factor s F32.zero)) with (channel_volume s).
  rewrite volume_messages_mute; [|lia| |exact Hall].
  2:{ change (Z.to_nat MIDI_CHANNELS_PER_TRACK) with 16%nat.
      unfold MIDI_CHANNELS_PER_TRACK in Hlen. lia. }
  cbn [bind]. eexists. split; [reflexivity|].
  match goal with
  | |- context [fold_left _ ?msgs ?s0] =>
      destruct (fold_call_device msgs s0) as (A1 & A2 & A3 & A4 & _)
  end.
  cbv zeta in A1, A2, A3, A4. auto.
Qed.

(** X16.  Muting reaches the events streamed afterwards: after
    I_WIN_SetMusicVolume with level 0, a fill gives every event it
    takes whose word passes its volume test (type bits 0xB0 and second
    byte 7) the volume field 0 in the window and copies every other
    event as it is, and it still records the volume field the event
    has in the song, so that a later call with another level sends the
    volumes of the song again. *)
Theorem muted_fill M s :
  song_ok (song s) -> arrays_ok s ->
  (looping (song s) = true -> 1 <= num_events (song s)) ->
  Forall (fun v => INT_MIN <= v <= INT_MAX) (channel_volume s) ->
  exists s1 s2,
    I_WIN_SetMusicVolume M 0 s = Ok s1 /\ FillBuffer s1 = Ok s2 /\
    Forall2 (fun src w =>
               if is_main_volume (dwEvent src)
               then is_main_volume (dwEvent w) = true /\
                    MIDIEVENT_CHANNEL (dwEvent w) = MIDIEVENT_CHANNEL (dwEvent src) /\
                    MIDIEVENT_VOLUME (dwEvent w) = 0
               else w = src)
            (fill_sources s) (window s2) /\
    channel_volume s2 = fold_left recorded (fill_sources s) (channel_volume s).
Proof.
  intros Hok Harr Hl Hcv.
  destruct (SetMusicVolume_mute_state M s (proj2 Harr) Hcv)
    as (s1 & Hset & Hf & Hsong & Hbuf & Hcv1).
  assert (Hu : F32.in_unit (volume_factor s1)) by (rewrite Hf; repeat split; reflexivity).
  assert (Harr1 : arrays_ok s1) by (unfold arrays_ok; rewrite Hbuf, Hcv1; exact Harr).
  assert (Hsrc : fill_sources s1 = fill_sources s)
    by (unfold fill_sources; rewrite Hsong; reflexivity).
  destruct (FillBuffer_taken s1 (song_ok_fill_safe s1 ltac:(rewrite Hsong; exact Hok)
                                   Harr1 Hu ltac:(rewrite Hsong; exact Hl)))
    as (s2 & Hrun & Hws & _ & Hrec & _).
  rewrite (taken_fill_sources s1) in Hws, Hrec by (rewrite Hsong; assumption).
  rewrite Hsrc, Hcv1 in *.
  exists s1, s2. split; [exact Hset|]. split; [exact Hrun|]. split; [|exact Hrec].
  eapply Forall2_impl; [|exact Hws].
  intros src w H.
  destruct (substituted_fields _ _ _ Hu H) as (_ & _ & A3 & A4 & A5 & _ & A7 & A8).
  destruct (is_main_volume (dwEvent src)) eqn:Hmv; [|apply A7; reflexivity].
  specialize (A8 eq_refl). rewrite Hf in A8.
  rewrite corrected_volume_mute in A8
    by (pose proof (MIDIEVENT_VOLUME_range (dwEvent src)); unfold INT_MIN, INT_MAX; lia).
  injection A8 as A8.
  split; [|split; [exact A4|symmetry; exact A8]].
  unfold is_main_volume in *. rewrite A3, A5. exact Hmv.
Qed.

Lemma muted_fill_witness :
  exists s1 s2,
    I_WIN_SetMusicVolume 15 0 (set_song initial_state volume_song) = Ok s1 /\
    FillBuffer s1 = Ok s2 /\
    channel_volume s2 = list_set (repeat 0 16) 0 100.
Proof.
  destruct (muted_fill 15 (set_song initial_state volume_song))
    as (s1 & s2 & H1 & H2 & _ & H4).
  - unfold song_ok. cbn. lia.
  - split; reflexivity.
  - intros _. cbn. lia.
  - apply Forall_forall. intros x Hx. apply repeat_spec in Hx. subst x.
    unfold INT_MIN, INT_MAX. lia.
  - exists s1, s2. split; [exact H1|]. split; [exact H2|]. rewrite H4. reflexivity.
Defined.

(* ================================================================== *)
(** * Registering and stopping a song *)
(* ================================================================== *)

Lemma StreamOut_device mmr s :
  buf_num_events (buffer s) = Z.of_nat (length (window s)) ->
  device (StreamOut mmr s) = device s ++ StreamOut_calls mmr (window s) /\
  window (StreamOut mmr s) = window s.
Proof.
  intros Hn. destruct (StreamOut_keeps mmr s) as (_ & _ & _ & Hb & _).
  split; [|unfold window; rewrite Hb; reflexivity].
  unfold StreamOut, StreamOut_calls.
  destruct (Z.eqb_spec (buf_num_events (buffer s)) 0) as [E|E].
  - destruct (window s); [now rewrite app_nil_r|]. rewrite E in Hn. cbn in Hn. lia.
  - destruct (window s) as [|w ws] eqn:Hw; [cbn in Hn; lia|].
    cbv zeta. destruct (mmr =? MMSYSERR_NOERROR); cbn [device call_device].
    + reflexivity.
    + rewrite <- app_assoc. reflexivity.
Qed.

(** X17.  When the bytes load as a MIDI file and the two
    midiStreamProperty calls succeed, I_WIN_RegisterSong on a state
    with no song (event count 0, cursor not negative, a buffer of four
    slots, a scale factor in [0,1], and a file with an event when the
    looping flag is set) returns true, whatever midiStreamOut answers.
    It then has set the time division of the file and the tempo 500000
    on the stream, in this order, merged the file into an array of as
    many slots as the file has events, reset both signals, filled the
    buffer once and submitted the window unless it is empty. *)
Theorem RegisterSong_success load bytes file m3 s :
  load bytes = Some file ->
  num_events (song s) = 0 -> 0 <= position (song s) ->
  Z.of_nat (length (events (buffer s))) = STREAM_MAX_EVENTS ->
  F32.in_unit (volume_factor s) ->
  (looping (song s) = true -> (1 <= MIDI_NumEvents file)%nat) ->
  exists s',
    I_WIN_RegisterSong load bytes MMSYSERR_NOERROR MMSYSERR_NOERROR m3 s = Ok (true, s') /\
    hBufferReturnEvent s' = false /\ hExitEvent s' = false /\
    hPlayerThread s' = hPlayerThread s /\
    volume_factor s' = volume_factor s /\
    looping (song s') = looping (song s) /\
    length (native_events (song s')) = MIDI_NumEvents file /\
    0 <= num_events (song s') <= Z.of_nat (MIDI_NumEvents file) /\
    (times_fit file -> num_events (song s') = Z.of_nat (MIDI_NumSupported file)) /\
    device s' =
      device s ++
      midiStreamProperty_TIMEDIV (MIDI_GetFileTimeDivision file) ::
      midiStreamProperty_TEMPO 500000 :: StreamOut_calls m3 (window s').
Proof.
  intros Hload Hn Hp Hbuf Hf Hl.
  unfold I_WIN_RegisterSong. rewrite Hload.
  change (negb (MMSYSERR_NOERROR =? MMSYSERR_NOERROR)) with false. cbv iota zeta.
  set (s2 := call_device
               (call_device
                  (set_channel_volume s (repeat 100 (Z.to_nat MIDI_CHANNELS_PER_TRACK)))
                  (midiStreamProperty_TIMEDIV (MIDI_GetFileTimeDivision file)))
               (midiStreamProperty_TEMPO 500000)).
  destruct (MIDItoStream_traced_total file (song s) Hn)
    as (g' & tr & Hrun & [Hl1 Hl2] & _ & Hnum & Hlen & Hpos & Hloop).
  unfold MIDItoStream. change (song s2) with (song s). rewrite Hrun. cbn [bind fst].
  set (s5 := set_signals (set_song s2 g') false false).
  assert (Hsafe : fill_safe s5).
  { split; [split; [exact Hbuf|reflexivity]|]. split; [exact Hf|].
    cbn [s5 song set_signals set_song]. split; [lia|]. split; [lia|].
    intros Hlo Hnil. rewrite Hloop in Hlo. specialize (Hl Hlo).
    rewrite Hnil in Hlen. cbn in Hlen. lia. }
  destruct (FillBuffer_taken s5 Hsafe) as (s6 & Hfill & _ & Hcnt & _ & _ & _ & Hfr).
  rewrite Hfill. cbn [bind]. eexists. split; [reflexivity|].
  destruct Hfr as (F1 & F2 & F3 & F4 & F5 & F6 & F7 & F8 & _).
  destruct (StreamOut_keeps m3 s6) as (K1 & K2 & _ & _ & K5 & K6 & K7).
  destruct (StreamOut_device m3 s6 Hcnt) as [D1 D2].
  rewrite K1, K2, K5, K6, K7, D1, D2, F1, F2, F3, F4, F5, F6, F7, F8.
  cbn [s5 song set_signals set_song volume_factor hBufferReturnEvent hExitEvent
       hPlayerThread device s2 call_device set_channel_volume].
  split; [reflexivity|]. split; [reflexivity|]. split; [reflexivity|].
  split; [reflexivity|]. split; [exact Hloop|]. split; [exact Hlen|].
  split; [lia|]. split.
  - intros Hfit.
    destruct (MIDItoStream_traced_complete file (song s) g' tr Hfit Hrun) as (_ & H2 & _).
    rewrite Hnum, H2. reflexivity.
  - rewrite <- !app_assoc. reflexivity.
Qed.

Lemma RegisterSong_success_witness :
  exists s',
    I_WIN_RegisterSong load_two_track [] MMSYSERR_NOERROR MMSYSERR_NOERROR 0
      initial_state = Ok (true, s') /\
    num_events (song s') = 5 /\ hBufferReturnEvent s' = false.
Proof.
  destruct (RegisterSong_success load_two_track [] two_track_file 0 initial_state eq_refl)
    as (s' & H1 & H2 & _ & _ & _ & _ & _ & _ & H9 & _).
  - reflexivity.
  - cbn. lia.
  - reflexivity.
  - repeat split; reflexivity.
  - intros H. discriminate H.
  - exists s'. split; [exact H1|]. split; [exact (H9 times_fit_two_track)|exact H2].
Defined.

(* ================================================================== *)
(** * The properties of the specification *)
(* ================================================================== *)

Lemma StronglySorted_nth {A} (R : A -> A -> Prop) l :
  StronglySorted R l ->
  forall i j a b, (i < j)%nat -> nth_error l i = Some a -> nth_error l j = Some b -> R a b.
Proof.
  induction 1 as [|x l Hs IH Hall]; intros i j a b Hij Hi Hj.
  - destruct i; discriminate.
  - destruct j as [|j]; [lia|]. cbn in Hj. destruct i as [|i]; cbn in Hi.
    + injection Hi as <-. rewrite Forall_forall in Hall. apply Hall.
      eapply nth_error_In; eauto.
    + apply (IH i j a b); [lia|exact Hi|exact Hj].
Qed.

Lemma encode_deltas em : forall t0,
  0 <= t0 -> StronglySorted merge_le em ->
  Forall (fun c => t0 <= c_time c < INT_MAX) em ->
  map dwDeltaTime (encode t0 em) = differences t0 (map c_time em).
Proof.
  induction em as [|c0 em IH]; intros t0 Ht0 Hs Hall; [reflexivity|].
  inversion Hs as [|? ? Hs' Hle]; subst. inversion Hall as [|? ? Hc0 Hall']; subst.
  cbn [encode map differences dwDeltaTime]. f_equal.
  - apply to_dword_id. unfold INT_MAX in *. lia.
  - apply IH; [lia|exact Hs'|].
    rewrite Forall_forall in *. intros x Hx. specialize (Hle x Hx). specialize (Hall' x Hx).
    unfold merge_le in Hle. lia.
Qed.

Lemma timed_emitted_times file tr :
  source_times (map (absolute_times 0) (file_tracks file)) tr = map c_time tr ->
  timed_emitted file tr = map (fun c => (c_time c, c)) (emitted tr).
Proof.
  intros H. unfold timed_emitted, timed. rewrite H.
  apply (filter_combine_map c_time (fun c => negb (c_data c =? 0))).
Qed.

Lemma trace_words fuel tracks ct g g' tr :
  MIDItoStream_loop fuel tracks ct g = Ok (g', tr) ->
  Forall (fun c => c_data c = event_dword (c_event c)) tr /\
  map c_data (emitted tr) = map (fun c => event_dword (c_event c)) (emitted tr).
Proof.
  intros Hrun. destruct (MIDItoStream_loop_trace _ _ _ _ _ _ Hrun) as (Htr & _).
  assert (H : Forall (fun c => c_data c = event_dword (c_event c)) tr).
  { eapply Forall_impl; [|exact Htr]. intros c [_ Hc]. exact Hc. }
  split; [exact H|]. apply map_ext_in. intros c Hc. unfold emitted in Hc.
  apply filter_In in Hc. destruct Hc as [Hc _].
  rewrite Forall_forall in H. apply (H c Hc).
Qed.

Lemma times_fit_dropping : times_fit dropping_file.
Proof.
  unfold times_fit, dropping_file, file_tracks, INT_MAX.
  repeat constructor; cbn; lia.
Qed.

(** C1 (amended).  For every multi-track file whose delta times are not
    negative and whose tracks stay below [INT_MAX] in absolute time,
    merged into a song whose event count is 0 when the merge starts:
    the merge completes, the output array holds the words of the
    emitted events in the order they were taken, the emitted events
    come in non-decreasing absolute time, among events of the same
    absolute time the one of the lower-indexed track comes first, and
    the events of one track keep their order.  For the two-track file
    with track A at the absolute times 0, 100, 100 and track B at 50,
    100 the merged order is A@0, B@50, A@100, A@100, B@100, and the
    output array holds these five notes with the delta times 0, 50,
    50, 0, 0. *)
Theorem merge_emits_in_time_order file g :
  times_fit file -> num_events g = 0 ->
  merged_in_time_order file g /\
  merge_gives two_track_file g
    [ (0, 0, note_on 0 1); (1, 50, note_on 50 4); (0, 100, note_on 100 2);
      (0, 100, note_on 0 3); (1, 100, note_on 50 5) ]
    [ (0, 0x400190); (50, 0x400490); (50, 0x400290); (0, 0x400390); (0, 0x400590) ].
Proof.
  intros Hfit Hn. split.
  - destruct (MIDItoStream_traced_ordered file g Hfit Hn)
      as (g' & tr & Hrun & Hev & Htracks & Htimes & Hsorted & _).
    destruct (trace_words _ _ _ _ _ _ Hrun) as [Hdata Hwords].
    exists g', tr. split; [exact Hrun|]. split; [exact Hdata|].
    split; [|split; [exact Htracks|]].
    + rewrite Hev, encode_dwEvent. exact Hwords.
    + rewrite (timed_emitted_times file tr Htimes).
      apply StronglySorted_map with (R := merge_le); [intros a b H; exact H|].
      apply StronglySorted_filter. exact Hsorted.
  - destruct g as [evs k p l]. cbn in Hn. subst k.
    unfold merge_gives. do 2 eexists. split; [vm_compute; reflexivity|].
    split; reflexivity.
Qed.

Lemma merge_emits_in_time_order_witness :
  times_fit dropping_file /\ num_events fresh_song = 0 /\
  merged_in_time_order dropping_file fresh_song.
Proof.
  split; [exact times_fit_dropping|]. split; [reflexivity|].
  exact (proj1 (merge_emits_in_time_order dropping_file fresh_song
                  times_fit_dropping eq_refl)).
Defined.

(** C1 as stated fails, for two reasons.  [long_file] has two tracks of
    events 0x0FFFFFFF ticks apart, nine on track A and eight on track
    B.  The absolute time of the ninth event of A is 9 * 0x0FFFFFFF,
    more than [INT_MAX]; the [int] candidate time wraps to a negative
    number, so the scan takes that event before the eighth event of B,
    whose absolute time 8 * 0x0FFFFFFF is smaller.  And MIDItoStream
    does not reset the event count: merged into [stale_song], whose
    count is 1, [dropping_file], whose times are small, gives an output
    array of four events, an empty slot and the three notes. *)
Lemma merge_order_fails :
  ~ merged_in_time_order long_file fresh_song /\
  times_fit dropping_file /\ ~ merged_in_time_order dropping_file stale_song.
Proof.
  split; [|split; [exact times_fit_dropping|]].
  - intros (g' & tr & Hrun & _ & _ & _ & Hsorted).
    vm_compute in Hrun. injection Hrun as <- <-.
    apply (StronglySorted_map timed_le (fun a b => lex_le (fst a) (snd a) (fst b) (snd b))
             (fun p => (fst p, c_track (snd p)))) in Hsorted; [|intros a b H; exact H].
    pose proof (StronglySorted_nth _ _ Hsorted 15 16 (2415919095, 0) (2147483640, 1)
                  ltac:(lia) eq_refl eq_refl) as H.
    unfold lex_le in H. cbn in H. lia.
  - intros (g' & tr & Hrun & _ & Hev & _).
    vm_compute in Hrun. injection Hrun as <- <-.
    vm_compute in Hev. discriminate Hev.
Qed.

(** C2 (amended).  For every multi-track file whose delta times are not
    negative and whose tracks stay below [INT_MAX] in absolute time,
    merged into a song whose event count is 0 when the merge starts:
    the output holds one event for each emitted event and none for a
    dropped one (an event whose packed word is 0: a meta event other
    than set-tempo, or another kind the switch leaves out), the delta
    time of each output event is the distance from the absolute time of
    the previous emitted event (from 0 for the first), whatever was
    dropped in between, and the delta times of the first k output
    events add up to the absolute time of the k-th emitted event. *)
Theorem merge_deltas_sum_to_times file g :
  times_fit file -> num_events g = 0 -> deltas_sum_to_times file g.
Proof.
  intros Hfit Hn.
  destruct (MIDItoStream_traced_ordered file g Hfit Hn)
    as (g' & tr & Hrun & Hev & _ & Htimes & Hsorted & Hrange).
  destruct (trace_words _ _ _ _ _ _ Hrun) as [Hdata Hwords].
  assert (Hs : StronglySorted merge_le (emitted tr)) by (apply StronglySorted_filter; exact Hsorted).
  assert (Hr : Forall (fun c => 0 <= c_time c < INT_MAX) (emitted tr)).
  { rewrite Forall_forall in *. intros c Hc. apply Hrange.
    unfold emitted in Hc. apply filter_In in Hc. apply Hc. }
  exists g', tr. split; [exact Hrun|]. split; [exact Hdata|].
  rewrite (timed_emitted_times file tr Htimes), Hev.
  split; [rewrite encode_dwEvent; exact Hwords|]. split.
  - rewrite map_map. cbn [fst]. apply encode_deltas; [lia|exact Hs|exact Hr].
  - intros k p Hk. rewrite nth_error_map in Hk.
    destruct (nth_error (emitted tr) k) as [c|] eqn:Hc; [|discriminate].
    cbn in Hk. injection Hk as <-. cbn [fst].
    pose proof (encode_sums (emitted tr) 0 ltac:(lia) Hs Hr k c Hc). lia.
Qed.

(** On [dropping_file] the merge takes the text of track B at 5, the
    note of A at 10, the text of A at 30, the note of B at 45 and the
    note of A at 60; the output holds the three notes with the delta
    times 10, 35 and 15. *)
Lemma merge_deltas_sum_to_times_witness :
  times_fit dropping_file /\ num_events fresh_song = 0 /\
  deltas_sum_to_times dropping_file fresh_song /\
  merge_gives dropping_file fresh_song
    [ (1, 5, meta_text 5); (0, 10, note_on 10 1); (0, 30, meta_text 20);
      (1, 45, note_on 40 3); (0, 60, note_on 30 2) ]
    [ (10, 0x400190); (35, 0x400390); (15, 0x400290) ].
Proof.
  split; [exact times_fit_dropping|]. split; [reflexivity|].
  split; [exact (merge_deltas_sum_to_times dropping_file fresh_song
                   times_fit_dropping eq_refl)|].
  unfold merge_gives. do 2 eexists. split; [vm_compute; reflexivity|].
  split; reflexivity.
Defined.

(** C2 as stated fails, for two reasons.  On [long_file] the eighth
    event of track B is the 17th output event; its absolute time is
    8 * 0x0FFFFFFF = 2147483640, and the delta times of the first 17
    output events add up to 6442450936, because the event before it
    was emitted at a wrapped, negative time.  And merged into
    [stale_song], whose event count is 1, [dropping_file] gives an
    output array that starts with an empty slot of delta time 0, while
    the first emitted event has the absolute time 10. *)
Lemma merge_deltas_fail :
  ~ deltas_sum_to_times long_file fresh_song /\
  times_fit dropping_file /\ ~ deltas_sum_to_times dropping_file stale_song.
Proof.
  split; [|split; [exact times_fit_dropping|]].
  - intros (g' & tr & Hrun & _ & _ & _ & Hsum).
    vm_compute in Hrun. injection Hrun as <- <-.
    specialize (Hsum 16%nat _ eq_refl). vm_compute in Hsum. discriminate Hsum.
  - intros (g' & tr & Hrun & _ & _ & _ & Hsum).
    vm_compute in Hrun. injection Hrun as <- <-.
    specialize (Hsum 0%nat _ eq_refl). vm_compute in Hsum. discriminate Hsum.
Qed.

(** C3 (amended).  Whenever I_WIN_RegisterSong returns failure, the
    song (event array, event count, play cursor), the stream buffer and
    the scale factor are unchanged.  When the bytes fail to parse the
    whole state is unchanged; when a device call fails, every channel
    volume has been reset to 100 before the call. *)
Theorem RegisterSong_failure_keeps_song load bytes m1 m2 m3 s s' :
  I_WIN_RegisterSong load bytes m1 m2 m3 s = Ok (false, s') ->
  song s' = song s /\ buffer s' = buffer s /\ volume_factor s' = volume_factor s /\
  (load bytes = None -> s' = s) /\
  (load bytes <> None ->
   (m1 <> MMSYSERR_NOERROR \/ m2 <> MMSYSERR_NOERROR) /\
   channel_volume s' = repeat 100 (Z.to_nat MIDI_CHANNELS_PER_TRACK)).
Proof.
  intros H. apply I_WIN_RegisterSong_cases in H.
  destruct H as [(Hl & _ & ->)|(file & Hl & H)].
  - repeat split; auto. congruence.
  - cbv zeta in H.
    destruct H as [(E1 & _ & ->)|[(E1 & E2 & _ & ->)|(_ & _ & [=] & _)]];
      cbn; repeat split; auto; congruence.
Qed.

Lemma RegisterSong_failure_keeps_song_witness :
  exists s',
    I_WIN_RegisterSong load_two_track [] 1 0 0 initial_state = Ok (false, s') /\
    song s' = song initial_state /\ buffer s' = buffer initial_state /\
    volume_factor s' = volume_factor initial_state.
Proof.
  eexists. split; [reflexivity|].
  destruct (RegisterSong_failure_keeps_song load_two_track [] 1 0 0 initial_state _ eq_refl)
    as (H1 & H2 & H3 & _).
  exact (conj H1 (conj H2 H3)).
Defined.

(** C3 as stated fails: in the initial state every recorded channel
    volume is 0; a registration of a well-formed file in which the
    device refuses the time division returns failure and leaves every
    channel volume at 100. *)
Lemma RegisterSong_device_failure_resets_volumes :
  exists s',
    I_WIN_RegisterSong load_two_track [] 1 0 0 initial_state = Ok (false, s') /\
    channel_volume initial_state = repeat 0 16 /\
    channel_volume s' = repeat 100 16 /\
    channel_volume s' <> channel_volume initial_state.
Proof.
  eexists. split; [reflexivity|]. split; [reflexivity|]. split; [reflexivity|].
  cbn. discriminate.
Qed.

(** C4 (amended).  Once the exit signal is raised, the thread returns,
    with no further fill and nothing submitted, at the first wait at
    which no buffer-returned signal is pending.  When a buffer-returned
    signal is pending at a wait at the same moment, the wait serves it
    first: the thread makes a fill and submit cycle and goes back to
    the wait; the exit signal stays raised through the cycle and
    through any call of the stream callback, so the thread returns at
    the next wait when the callback has not raised the buffer-returned
    signal again by then. *)
Theorem PlayerProc_exit mmr s :
  hExitEvent s = true ->
  (hBufferReturnEvent s = false ->
   PlayerProc_turn mmr s = Ok (Returns (set_signals s false false)) /\
   device (set_signals s false false) = device s /\
   song (set_signals s false false) = song s) /\
  (hBufferReturnEvent s = true ->
   forall s1, FillBuffer (set_signals s false true) = Ok s1 ->
     PlayerProc_turn mmr s = Ok (Continues (StreamOut mmr s1)) /\
     hExitEvent (StreamOut mmr s1) = true /\
     hBufferReturnEvent (StreamOut mmr s1) = false /\
     (forall uMsg, hExitEvent (MidiStreamProc uMsg (StreamOut mmr s1)) = true) /\
     hBufferReturnEvent (MidiStreamProc MOM_DONE (StreamOut mmr s1)) = true /\
     PlayerProc_turn mmr (StreamOut mmr s1) =
       Ok (Returns (set_signals (StreamOut mmr s1) false false))).
Proof.
  intros He. split.
  - intros Hr. unfold PlayerProc_turn, WaitForMultipleObjects. rewrite Hr, He.
    cbn. auto.
  - intros Hr s1 H1.
    assert (Hturn : PlayerProc_turn mmr s = Ok (Continues (StreamOut mmr s1))).
    { unfold PlayerProc_turn, WaitForMultipleObjects. rewrite Hr, He.
      cbv iota beta. change (0 =? 0) with true. cbv iota. rewrite H1. reflexivity. }
    split; [exact Hturn|].
    destruct (FillBuffer_keeps _ _ H1) as (_ & K2 & K3 & _).
    destruct (StreamOut_keeps mmr s1) as (_ & _ & _ & _ & S5 & S6 & _).
    assert (Hexit : hExitEvent (StreamOut mmr s1) = true) by (rewrite S6, K3; reflexivity).
    assert (Hret : hBufferReturnEvent (StreamOut mmr s1) = false)
      by (rewrite S5, K2; reflexivity).
    split; [exact Hexit|]. split; [exact Hret|]. split; [|split].
    + intros uMsg. unfold MidiStreamProc. destruct (uMsg =? MOM_DONE); exact Hexit.
    + reflexivity.
    + unfold PlayerProc_turn, WaitForMultipleObjects. rewrite Hret, Hexit. reflexivity.
Qed.

Lemma PlayerProc_exit_witness :
  hExitEvent (set_signals (set_song initial_state note_song) true true) = true /\
  exists s1,
    PlayerProc_turn 0 (set_signals (set_song initial_state note_song) true true) =
      Ok (Continues s1) /\
    hExitEvent s1 = true /\
    PlayerProc_turn 0 s1 = Ok (Returns (set_signals s1 false false)).
Proof.
  split; [reflexivity|].
  destruct (proj2 (PlayerProc_exit 0
                     (set_signals (set_song initial_state note_song) true true) eq_refl)
                  eq_refl _ eq_refl) as (H1 & H2 & _ & _ & _ & H6).
  eexists. split; [exact H1|]. split; [exact H2|exact H6].
Defined.

(** C4 as stated fails: with the exit signal raised and a
    buffer-returned signal pending, the thread does not return; it
    fills the buffer and submits it to the device. *)
Lemma PlayerProc_serves_buffer_before_exit :
  let s := set_signals (set_song initial_state note_song) true true in
  hExitEvent s = true /\
  exists s', PlayerProc_turn 0 s = Ok (Continues s') /\
             device s = [] /\
             device s' = [midiStreamOut (native_events note_song)].
Proof.
  cbv zeta. split; [reflexivity|]. eexists. split; [reflexivity|].
  split; reflexivity.
Qed.

Lemma Forall2_impl_In {A B} (R R' : A -> B -> Prop) l l' :
  (forall a b, In a l -> R a b -> R' a b) -> Forall2 R l l' -> Forall2 R' l l'.
Proof.
  intros H H2. induction H2 as [|a b l l' Hab H2 IH]; constructor.
  - apply H; [left; reflexivity|exact Hab].
  - apply IH. intros a' b' Hin. apply H. right. exact Hin.
Qed.

Lemma substituted_streamed_as f src w :
  (is_main_volume (dwEvent src) = true -> Z.shiftr (dwEvent src) 24 = MEVT_SHORTMSG) ->
  substituted f src = Ok w -> streamed_as f src w.
Proof.
  intros Hplain H. unfold streamed_as, is_volume_event. unfold substituted in H.
  destruct (is_main_volume (dwEvent src)) eqn:Hmv.
  - rewrite (Hplain eq_refl). change (MEVT_SHORTMSG =? MEVT_SHORTMSG) with true.
    cbv beta iota delta [andb].
    apply bind_Ok in H. destruct H as (c & Hc & H). injection H as <-.
    exists c. split; [exact Hc|reflexivity].
  - rewrite andb_false_r. injection H as <-. reflexivity.
Qed.

Lemma streamed_as_id f evs ws :
  Forall (fun ev => is_volume_event (dwEvent ev) = false) evs ->
  Forall2 (streamed_as f) evs ws -> ws = evs.
Proof.
  intros Hall H. induction H as [|src w evs ws Hsw H IH]; [reflexivity|].
  inversion Hall as [|? ? Hsrc Hrest]; subst.
  unfold streamed_as in Hsw. rewrite Hsrc in Hsw. subst w.
  f_equal. apply IH. exact Hrest.
Qed.

(** C5 (amended).  For every song with K >= 1 events, its cursor
    between 0 and K, looping enabled and the scale factor in [0,1], in
    which no event other than a short message has the low 16 bits of a
    main volume controller message, successive fills stream the events
    cyclically from the cursor: each fill fills the 4 slots of the
    window, a cursor that reached K wraps to 0 within the fill, and the
    windows of n fills, one after the other, hold the 4n events of the
    cyclic stream, none skipped and none repeated, each as FillBuffer
    leaves it: a main volume controller event carries the corrected
    volume in its volume field, every other event is the event of the
    song itself; the windows of a song with no main volume controller
    event are the event array repeated. *)
Theorem fills_stream_cyclically n s :
  looping (song s) = true -> 1 <= num_events (song s) -> song_ok (song s) ->
  arrays_ok s -> F32.in_unit (volume_factor s) ->
  plain_song (song_events (song s)) ->
  exists ws s',
    fills n s = Ok (ws, s') /\
    length ws = (4 * n)%nat /\
    Forall2 (streamed_as (volume_factor s))
            (cyclic (song_events (song s)) (Z.to_nat (position (song s))) (4 * n)) ws /\
    (Forall (fun ev => is_volume_event (dwEvent ev) = false) (song_events (song s)) ->
     ws = cyclic (song_events (song s)) (Z.to_nat (position (song s))) (4 * n)) /\
    (n <> O -> buf_num_events (buffer s') = STREAM_MAX_EVENTS).
Proof.
  intros Hloop HK Hok Harr Hf Hplain.
  destruct (fills_looping n s Hloop HK Hok Harr Hf) as (ws & s' & Hrun & Hws & Hcnt).
  assert (Hne : song_events (song s) <> []).
  { intros Hnil. pose proof (song_events_length _ Hok) as Hl. rewrite Hnil in Hl.
    cbn in Hl. lia. }
  assert (Hws' : Forall2 (streamed_as (volume_factor s))
                   (cyclic (song_events (song s)) (Z.to_nat (position (song s))) (4 * n))
                   ws).
  { eapply Forall2_impl_In; [|exact Hws].
    intros src w Hin H. apply substituted_streamed_as; [|exact H].
    unfold plain_song in Hplain. rewrite Forall_forall in Hplain. apply Hplain.
    eapply cyclic_In; [exact Hne|exact Hin]. }
  exists ws, s'. split; [exact Hrun|].
  pose proof (Forall2_length Hws) as Hlen. rewrite cyclic_length in Hlen.
  split; [congruence|]. split; [exact Hws'|]. split; [|exact Hcnt].
  intros Hall. eapply streamed_as_id; [|exact Hws'].
  rewrite Forall_forall in *. intros ev Hev. apply Hall.
  eapply cyclic_In; [exact Hne|exact Hev].
Qed.

(** Two fills of [three_song], a note, main volume 100 and another
    note: the eight events of the windows go twice round the song and
    on to its second event, the volume event each time with the
    corrected volume 86. *)
Lemma fills_stream_cyclically_witness :
  exists ws s',
    fills 2 (set_song initial_state three_song) = Ok (ws, s') /\
    map dwEvent ws = [ 0x403C90; 0x5607B0; 0x403E90; 0x403C90;
                       0x5607B0; 0x403E90; 0x403C90; 0x5607B0 ].
Proof.
  assert (Hu : F32.in_unit (volume_factor (set_song initial_state three_song)))
    by (repeat split; reflexivity).
  assert (Hok : song_ok (song (set_song initial_state three_song)))
    by (unfold song_ok; cbn; lia).
  assert (Harr : arrays_ok (set_song initial_state three_song))
    by (split; reflexivity).
  assert (Hplain : plain_song (song_events (song (set_song initial_state three_song))))
    by (repeat constructor).
  destruct (fills_stream_cyclically 2 (set_song initial_state three_song)
              eq_refl ltac:(cbn; lia) Hok Harr Hu Hplain) as (ws & s' & H1 & _ & H3 & _).
  exists ws, s'. split; [exact H1|].
  assert (L : match fills 2 (set_song initial_state three_song) with
              | Ok r => map dwEvent (fst r)
              | _ => []
              end = [ 0x403C90; 0x5607B0; 0x403E90; 0x403C90;
                      0x5607B0; 0x403E90; 0x403C90; 0x5607B0 ])
    by (vm_compute; reflexivity).
  rewrite H1 in L. exact L.
Defined.

(** C5 as stated fails, for two reasons.  For the song of one main
    volume controller event with volume 100, looping, at scale factor
    1.0, the fill puts four events into the window whose volume field
    is the corrected volume 86, not the event of the song.  And a scale
    factor above 1.0, as a level above the slider range gives it
    (level 40 of 15), takes the index of volume 100 past the end of the
    correction table: the fill reads outside the table. *)
Lemma fill_window_differs_from_song :
  (let s := set_song initial_state volume_song in
   looping (song s) = true /\ num_events (song s) = 1 /\
   exists ws s', fills 1 s = Ok (ws, s') /\
                 map dwEvent ws = [0x5607B0; 0x5607B0; 0x5607B0; 0x5607B0] /\
                 ws <> cyclic (song_events (song s)) 0 4) /\
  (exists s1,
     I_WIN_SetMusicVolume 15 40 (set_song initial_state volume_song) = Ok s1 /\
     looping (song s1) = true /\ num_events (song s1) = 1 /\
     volume_index 100 (volume_factor s1) = Ok 173 /\
     fills 1 s1 = Undefined).
Proof.
  split.
  - cbv zeta. split; [reflexivity|]. split; [reflexivity|].
    do 2 eexists. split; [vm_compute; reflexivity|]. split; [reflexivity|].
    vm_compute. discriminate.
  - eexists. split; [vm_compute; reflexivity|].
    split; [reflexivity|]. split; [reflexivity|]. split; vm_compute; reflexivity.
Qed.

(** C6.  With looping disabled and the cursor at the event count (or
    past it), a fill fills no slot and leaves the cursor where it is,
    the stream-out step then submits nothing, and so it is for every
    further fill and submit cycle; StreamOut never submits a window of 0
    events. *)
Theorem fill_after_end_submits_nothing n mmr s :
  looping (song s) = false -> num_events (song s) <= position (song s) ->
  FillBuffer s = Ok (set_buf_num_events s 0) /\
  buf_num_events (buffer (set_buf_num_events s 0)) = 0 /\
  song (set_buf_num_events s 0) = song s /\
  device (set_buf_num_events s 0) = device s /\
  StreamOut mmr (set_buf_num_events s 0) = set_buf_num_events s 0 /\
  cycles (S n) mmr s = Ok (set_buf_num_events s 0) /\
  (forall s0, buf_num_events (buffer s0) = 0 -> StreamOut mmr s0 = s0).
Proof.
  intros Hloop Hpos. split; [apply FillBuffer_ended; assumption|].
  do 3 (split; [reflexivity|]). split; [apply StreamOut_empty; reflexivity|].
  split; [apply cycles_ended; assumption|]. intros s0. apply StreamOut_empty.
Qed.

Lemma fill_after_end_submits_nothing_witness :
  let s := set_song initial_state (set_position note_song 1) in
  looping (song s) = false /\ num_events (song s) <= position (song s) /\
  cycles 3 0 s = Ok (set_buf_num_events s 0).
Proof.
  cbv zeta. split; [reflexivity|]. split; [cbn; lia|].
  exact (proj1 (proj2 (proj2 (proj2 (proj2 (proj2
     (fill_after_end_submits_nothing 2 0
        (set_song initial_state (set_position note_song 1))
        eq_refl ltac:(cbn; lia)))))))).
Defined.

(** C7.  I_WIN_SetMusicVolume with level 0 sets the scale factor to
    exactly 0.0, whatever the range of the slider, and sends one main
    volume controller message to each of the 16 channels, in channel
    order, whose volume field is 0, whatever volumes were recorded for
    the channels. *)
Theorem SetMusicVolume_mute M s :
  Z.of_nat (length (channel_volume s)) = MIDI_CHANNELS_PER_TRACK ->
  Forall (fun v => INT_MIN <= v <= INT_MAX) (channel_volume s) ->
  volume_factor_of M 0 = F32.zero /\
  exists s',
    I_WIN_SetMusicVolume M 0 s = Ok s' /\
    volume_factor s' = F32.zero /\
    channel_volume s' = channel_volume s /\
    device s' = device s ++
                map (fun k => midiOutShortMsg (mute_message (Z.of_nat k))) (seq 0 16) /\
    forall k, (k < 16)%nat ->
      MIDIEVENT_TYPE (mute_message (Z.of_nat k)) = MIDI_EVENT_CONTROLLER /\
      MIDIEVENT_CHANNEL (mute_message (Z.of_nat k)) = Z.of_nat k /\
      MIDIEVENT_DATA1 (mute_message (Z.of_nat k)) = MIDI_CONTROLLER_MAIN_VOLUME /\
      MIDIEVENT_VOLUME (mute_message (Z.of_nat k)) = 0 /\
      Z.shiftr (mute_message (Z.of_nat k)) 16 = 0.
Proof.
  intros Hlen Hall. split; [reflexivity|].
  unfold I_WIN_SetMusicVolume. cbv zeta.
  change (volume_factor_of M 0) with F32.zero.
  change (volume_factor (set_volume_factor s F32.zero)) with F32.zero.
  change (channel_volume (set_volume_factor s F32.zero)) with (channel_volume s).
  rewrite volume_messages_mute; [|lia| |exact Hall].
  2:{ change (Z.to_nat MIDI_CHANNELS_PER_TRACK) with 16%nat.
      unfold MIDI_CHANNELS_PER_TRACK in Hlen. lia. }
  cbn [bind]. eexists. split; [reflexivity|].
  destruct (fold_call_device
              (map (fun k => mute_message (Z.of_nat k))
                   (seq (Z.to_nat 0) (Z.to_nat MIDI_CHANNELS_PER_TRACK)))
              (set_volume_factor s F32.zero))
    as (_ & A2 & A3 & _ & _ & _ & _ & A8).
  cbv zeta in A2, A3, A8. split; [exact A2|]. split; [exact A3|]. split.
  - rewrite A8, map_map. reflexivity.
  - intros k Hk.
    assert (H : forallb (fun k =>
                  let m := mute_message (Z.of_nat k) in
                  (MIDIEVENT_TYPE m =? MIDI_EVENT_CONTROLLER) &&
                  (MIDIEVENT_CHANNEL m =? Z.of_nat k) &&
                  (MIDIEVENT_DATA1 m =? MIDI_CONTROLLER_MAIN_VOLUME) &&
                  (MIDIEVENT_VOLUME m =? 0) && (Z.shiftr m 16 =? 0)) (seq 0 16) = true)
      by (vm_compute; reflexivity).
    rewrite forallb_forall in H. specialize (H k ltac:(apply in_seq; lia)).
    cbv zeta in H. repeat (apply andb_true_iff in H; destruct H as [H ?]).
    repeat split; apply Z.eqb_eq; assumption.
Qed.

Lemma SetMusicVolume_mute_witness :
  exists s',
    I_WIN_SetMusicVolume 15 0
      (set_channel_volume initial_state (repeat 127 16)) = Ok s' /\
    volume_factor s' = F32.zero.
Proof.
  destruct (SetMusicVolume_mute 15 (set_channel_volume initial_state (repeat 127 16)))
    as (_ & s' & H1 & H2 & _).
  - reflexivity.
  - apply Forall_forall. intros x Hx. apply repeat_spec in Hx. subst x.
    unfold INT_MIN, INT_MAX. lia.
  - exists s'. split; [exact H1|exact H2].
Defined.

(** C8.  The volume correction table is non-decreasing: for indices
    i <= j in 0..127, table[i] <= table[j]; and at any fixed scale
    factor in [0,1], the corrected volume of the linear volume i is at
    most the corrected volume of the linear volume j. *)
Theorem volume_correction_monotone f i j :
  F32.in_unit f -> 0 <= i -> i <= j -> j <= 127 ->
  exists ti tj ci cj,
    array_get volume_correction i = Ok ti /\
    array_get volume_correction j = Ok tj /\ ti <= tj /\
    corrected_volume i f = Ok ci /\ corrected_volume j f = Ok cj /\ ci <= cj.
Proof.
  intros Hf Hi Hij Hj.
  assert (Hlen : length volume_correction = 128%nat) by reflexivity.
  destruct (corrected_volume_ok i f Hf ltac:(lia)) as (ci & Hci & _ & Hti & Hbi).
  destruct (corrected_volume_ok j f Hf ltac:(lia)) as (cj & Hcj & _ & Htj & Hbj).
  pose proof (index_of_mono i j f ltac:(lia)) as Hmono.
  exists (nth (Z.to_nat i) volume_correction 0), (nth (Z.to_nat j) volume_correction 0), ci, cj.
  split; [apply array_get_nth; lia|]. split; [apply array_get_nth; lia|].
  split; [apply table_monotone; lia|]. split; [exact Hci|]. split; [exact Hcj|].
  rewrite (array_get_nth _ (index_of i f) 0) in Hti by lia.
  rewrite (array_get_nth _ (index_of j f) 0) in Htj by lia.
  injection Hti as <-. injection Htj as <-. apply table_monotone. lia.
Qed.

Lemma volume_correction_monotone_witness :
  exists ti tj ci cj,
    array_get volume_correction 64 = Ok ti /\
    array_get volume_correction 100 = Ok tj /\ ti <= tj /\
    corrected_volume 64 MIDI_MAXVOL = Ok ci /\
    corrected_volume 100 MIDI_MAXVOL = Ok cj /\ ci <= cj.
Proof.
  apply (volume_correction_monotone MIDI_MAXVOL 64 100); try lia.
  repeat split; reflexivity.
Defined.

(** C9.  With a slider range of 2..255 levels and I_WIN_SetMusicVolume
    only called with a level of the slider, in every state the
    operations lead to: the scale factor is 1.0, 0.0 or lies between
    0.20 and 0.75, so it lies in [0,1]; every recorded channel volume
    lies in 0..127; the table index FillBuffer computes for the volume
    field of any event, and the index I_WIN_SetMusicVolume computes for
    any level of the slider and any recorded channel volume, lie in
    0..127 and the table has an entry there; and I_WIN_SetMusicVolume
    completes for every level of the slider. *)
Theorem volume_index_in_table M load s :
  2 <= M <= 255 -> reachable M load s ->
  factor_in_range (volume_factor s) /\
  F32.in_unit (volume_factor s) /\
  Z.of_nat (length (channel_volume s)) = MIDI_CHANNELS_PER_TRACK /\
  Forall (fun v => 0 <= v <= 127) (channel_volume s) /\
  (forall x, exists i c,
      volume_index (MIDIEVENT_VOLUME x) (volume_factor s) = Ok i /\ 0 <= i <= 127 /\
      array_get volume_correction i = Ok c) /\
  (forall ev, exists w, substituted (volume_factor s) ev = Ok w) /\
  (forall volume v, 0 <= volume <= M -> In v (channel_volume s) ->
      exists i c,
        volume_index v (volume_factor_of M volume) = Ok i /\ 0 <= i <= 127 /\
        array_get volume_correction i = Ok c) /\
  (forall volume, 0 <= volume <= M ->
      exists s', I_WIN_SetMusicVolume M volume s = Ok s' /\
                 factor_in_range (volume_factor s')).
Proof.
  intros HM Hreach.
  destruct (reachable_volume_ok M load s HM Hreach) as ((Harr & Hf & Hcv) & Hrange).
  assert (Hidx : forall v f, F32.in_unit f -> 0 <= v <= 127 ->
            exists i c, volume_index v f = Ok i /\ 0 <= i <= 127 /\
                        array_get volume_correction i = Ok c).
  { intros v f Hu Hv. destruct (corrected_volume_ok v f Hu Hv) as (c & _ & _ & Hc & Hb).
    exists (index_of v f), c. split; [apply volume_index_sem; assumption|].
    split; [lia|exact Hc]. }
  split; [exact Hrange|]. split; [exact Hf|]. split; [apply Harr|]. split; [exact Hcv|].
  split; [|split; [|split]].
  - intros x. apply Hidx; [exact Hf|apply MIDIEVENT_VOLUME_range].
  - intros ev. apply substituted_ok. exact Hf.
  - intros volume v Hvol Hv. apply Hidx.
    + apply (volume_factor_of_range M volume HM Hvol).
    + rewrite Forall_forall in Hcv. apply Hcv. exact Hv.
  - intros volume Hvol.
    destruct (volume_factor_of_range M volume HM Hvol) as [Hu Hr].
    unfold I_WIN_SetMusicVolume. cbv zeta.
    destruct (volume_messages_ok (Z.to_nat MIDI_CHANNELS_PER_TRACK)
                (volume_factor (set_volume_factor s (volume_factor_of M volume))) 0
                (channel_volume (set_volume_factor s (volume_factor_of M volume))))
      as (msgs & Hmsgs).
    + exact Hu.
    + lia.
    + destruct Harr as [_ Hlen]. cbn. unfold MIDI_CHANNELS_PER_TRACK in *. lia.
    + exact Hcv.
    + rewrite Hmsgs. cbn [bind]. eexists. split; [reflexivity|].
      destruct (fold_call_device msgs (set_volume_factor s (volume_factor_of M volume)))
        as (_ & A2 & _).
      cbv zeta in A2. rewrite A2. exact Hr.
Qed.

Lemma volume_index_in_table_witness :
  2 <= 15 <= 255 /\ reachable 15 load_nothing initial_state /\
  exists s',
    I_WIN_SetMusicVolume 15 8 initial_state = Ok s' /\
    factor_in_range (volume_factor s').
Proof.
  split; [lia|]. split; [apply reach_initial|].
  apply (volume_index_in_table 15 load_nothing initial_state ltac:(lia)
           (reach_initial 15 load_nothing)).
  lia.
Defined.

(** C10.  When the event count of the song is 0 at the start of the
    merge, as it is in the initial state and after
    I_WIN_UnRegisterSong, MIDItoStream completes with every write inside
    the array it allocated: the array has as many slots as the file
    reports events, at most one event is consumed per event of the file,
    at most one output event is written per consumed event, the outputs
    fill the slots 0, 1, 2, ... in order, and the final event count is
    at most the number of slots. *)
Theorem merge_writes_within_allocation file g :
  num_events g = 0 ->
  exists g' tr,
    MIDItoStream_traced file g = Ok (g', tr) /\
    (length (emitted tr) <= length tr)%nat /\
    (length tr <= MIDI_NumEvents file)%nat /\
    length (native_events g') = MIDI_NumEvents file /\
    num_events g' = Z.of_nat (length (emitted tr)) /\
    num_events g' <= Z.of_nat (length (native_events g')) /\
    length (song_events g') = length (emitted tr) /\
    map dwEvent (song_events g') = map c_data (emitted tr).
Proof.
  intros Hn.
  destruct (MIDItoStream_traced_total file g Hn)
    as (g' & tr & Hrun & [Hl1 Hl2] & Hev & Hnum & Hlen & _).
  exists g', tr. split; [exact Hrun|]. split; [exact Hl1|]. split; [exact Hl2|].
  split; [exact Hlen|]. split; [exact Hnum|]. split; [lia|].
  assert (Hd : map dwEvent (song_events g') = map c_data (emitted tr)).
  { rewrite Hev. apply encode_dwEvent. }
  split; [|exact Hd].
  apply (f_equal (@length Z)) in Hd. rewrite !length_map in Hd. exact Hd.
Qed.

Lemma merge_writes_within_allocation_witness :
  num_events (song (I_WIN_UnRegisterSong (set_song initial_state note_song))) = 0 /\
  exists g' tr,
    MIDItoStream_traced two_track_file
      (song (I_WIN_UnRegisterSong (set_song initial_state note_song))) = Ok (g', tr) /\
    length (native_events g') = MIDI_NumEvents two_track_file /\
    num_events g' <= Z.of_nat (length (native_events g')).
Proof.
  split; [reflexivity|].
  destruct (merge_writes_within_allocation two_track_file
              (song (I_WIN_UnRegisterSong (set_song initial_state note_song))) eq_refl)
    as (g' & tr & H1 & _ & _ & H4 & _ & H6 & _).
  exists g', tr. split; [exact H1|]. split; [exact H4|exact H6].
Defined.
